(** * cl4py: the session driver [Lisp.eval] of [cl4py/lisp.py]

    A shallow embedding of the evaluation call of the bridge between the
    Python host and the Lisp engine: the request line, the four-value
    response frame, the mapping of engine conditions to host exceptions,
    the patching of foreign-object wrappers, and the interpretation of
    the multiple-value result. *)

From Stdlib Require Import ZArith Ascii DecimalString DecimalZ DecimalPos SpecFloat.
From stdpp Require Import gmap strings list fin_maps.

Set Warnings "-register-all".
Open Scope string_scope.
Open Scope list_scope.

(** ** Host values *)

(** [Symbol(name, package)] of [cl4py.data]: two symbols are the same
    entity iff name and package match. *)
Record Symbol := mkSymbol { sym_name : string; sym_package : string }.

Global Instance Symbol_eq_dec : EqDecision Symbol.
Proof. solve_decision. Defined.

Global Instance Symbol_countable : Countable Symbol.
Proof.
  refine (inj_countable' (λ s, (sym_name s, sym_package s))
                         (λ p, mkSymbol p.1 p.2) _).
  by intros [].
Defined.

(** The Python values that travel through [eval].  The Lisp empty list is
    the empty Python tuple [()], that is [VTuple []]; a wrapper instance
    is a reference into the host heap; a float is an IEEE binary64
    number, and a list is a host sequence that is not a call-form. *)
Inductive value : Type :=
| VNone
| VBool (b : bool)
| VInt (z : Z)
| VStr (s : string)
| VSym (s : Symbol)
| VCons (car cdr : value)
| VTuple (items : list value)
| VQuote (payload : value)
| VObject (ref : nat)
| VFloat (f : spec_float)
| VList (items : list value).

(** The empty-list singleton [()]. *)
Definition nil_value : value := VTuple [].

(** A proper list: a chain of paired cells closed by [()]. *)
Fixpoint list_to_cons (l : list value) : value :=
  match l with
  | [] => nil_value
  | x :: l' => VCons x (list_to_cons l')
  end.

(** [val == ()]: only the empty tuple is equal to [()]; a paired cell is
    not (the empty list is a distinguished singleton, not a paired
    cell). *)
Definition eq_nil (v : value) : bool :=
  match v with
  | VTuple [] => true
  | _ => false
  end.

(** [isinstance(v, Cons)] *)
Definition is_Cons (v : value) : bool :=
  match v with
  | VCons _ _ => true
  | _ => false
  end.

(** Python truthiness, as used by [err.cdr.car if err.cdr else str()].
    A paired cell counts as true, the empty list [()] as false. *)
Definition truthy (v : value) : bool :=
  match v with
  | VNone => false
  | VBool b => b
  | VInt z => negb (z =? 0)%Z
  | VStr s => negb (String.eqb s EmptyString)
  | VTuple items => match items with [] => false | _ => true end
  | VSym _ | VCons _ _ | VQuote _ | VObject _ => true
  | VFloat f => match f with S754_zero _ => false | _ => true end
  | VList items => match items with [] => false | _ => true end
  end.

(** Modelled from the spec: [Cons.__iter__] of [cl4py/data.py], which is
    not part of the sources at hand.  A paired cell is iterated by
    walking the chain of [rest] slots and yielding each [first] slot in
    order, up to the first tail that is not a paired cell. *)
Fixpoint cons_items (v : value) : list value :=
  match v with
  | VCons a d => a :: cons_items d
  | _ => []
  end.

(** ** Wire expressions *)

(** One complete expression as it sits on the inbound stream.  The reader
    is handed one of these per [read].  [RObject c h] is the marker of an
    engine-side object of class [c] with handle [h]; [RMalformed] stands
    for text the reader rejects; [RFloat f] is a floating literal, given
    by the binary64 number it denotes. *)
Inductive rexpr : Type :=
| RNil
| RInt (z : Z)
| RStr (s : string)
| RSym (s : Symbol)
| RCons (a d : rexpr)
| RObject (cls : Symbol) (handle : Z)
| RMalformed
| RFloat (f : spec_float).

(** ** Classes, exceptions, events *)

Inductive base_class := RuntimeError | LispWrapper.

Global Instance base_class_eq_dec : EqDecision base_class.
Proof. solve_decision. Defined.

(** What [type(name, bases, dict)] and [setattr] put into a class: the
    [__init__] closure of an exception class, which has captured [msg],
    or a method [lambda self, *args: gf(self, *args)]. *)
Inductive member :=
| MInit (msg : value)
| MMethod (gf : value).

Record pyclass := mkClass {
  cls_name : string;
  cls_base : base_class;
  cls_dict : gmap string member
}.

(** The runtime type of a wrapper instance: the plain [LispWrapper]
    placeholder, or a synthesized class given by its address. *)
Inductive class_ref :=
| Unpatched
| Synth (addr : nat).

Global Instance class_ref_eq_dec : EqDecision class_ref.
Proof. solve_decision. Defined.

Inductive exn :=
| AttributeError
| TypeError
| EOFError
| SyntaxError
| WriterError
| ExcInstance (cls : nat) (args : list value).

Inductive io_event :=
| IoWrite (line : string)          (* self.stdin.write(line) *)
| IoRead (e : rexpr) (v : value)   (* self.readtable.read(self.stdout) gave v *)
| IoPrint (v : value) (fin : string). (* print(v, end=fin) *)

(** ** Session and host state *)

Record Lisp := mkLisp {
  (** expressions the engine will deliver on [self.stdout] *)
  stdout : list rexpr;
  (** [self.package] *)
  package : value;
  (** [self.classes]: symbol to synthesized class *)
  classes : gmap Symbol nat;
  (** [self.unpatched_instances]: a dict, in insertion order *)
  unpatched_instances : list (Symbol * list nat);
  (** [self.debug] *)
  debug : bool;
  (** class objects made by [type(...)], by address *)
  class_heap : list pyclass;
  (** [__class__] of every wrapper instance *)
  obj_class : gmap nat class_ref;
  (** handle of every wrapper instance *)
  obj_handle : gmap nat Z;
  (** next free instance reference *)
  next_ref : nat;
  (** chronological log of writes, reads and prints *)
  events : list io_event
}.

(** The request lines, the completed reads and the host output of a log. *)
Definition writes (evs : list io_event) : list string :=
  omap (λ ev, match ev with IoWrite l => Some l | _ => None end) evs.

Definition reads (evs : list io_event) : list (rexpr * value) :=
  omap (λ ev, match ev with IoRead e v => Some (e, v) | _ => None end) evs.

Definition prints (evs : list io_event) : list (value * string) :=
  omap (λ ev, match ev with IoPrint v f => Some (v, f) | _ => None end) evs.

(** The lines written to [self.stdin] so far. *)
Definition stdin (s : Lisp) : list string := writes (events s).

(** The host's standard output so far. *)
Definition printed (s : Lisp) : list (value * string) := prints (events s).

Definition with_stdout (x : list rexpr) (s : Lisp) : Lisp :=
  mkLisp x (package s) (classes s) (unpatched_instances s) (debug s)
         (class_heap s) (obj_class s) (obj_handle s) (next_ref s) (events s).
Definition with_package (x : value) (s : Lisp) : Lisp :=
  mkLisp (stdout s) x (classes s) (unpatched_instances s) (debug s)
         (class_heap s) (obj_class s) (obj_handle s) (next_ref s) (events s).
Definition with_classes (x : gmap Symbol nat) (s : Lisp) : Lisp :=
  mkLisp (stdout s) (package s) x (unpatched_instances s) (debug s)
         (class_heap s) (obj_class s) (obj_handle s) (next_ref s) (events s).
Definition with_unpatched (x : list (Symbol * list nat)) (s : Lisp) : Lisp :=
  mkLisp (stdout s) (package s) (classes s) x (debug s)
         (class_heap s) (obj_class s) (obj_handle s) (next_ref s) (events s).
Definition with_class_heap (x : list pyclass) (s : Lisp) : Lisp :=
  mkLisp (stdout s) (package s) (classes s) (unpatched_instances s) (debug s)
         x (obj_class s) (obj_handle s) (next_ref s) (events s).
Definition with_obj_class (x : gmap nat class_ref) (s : Lisp) : Lisp :=
  mkLisp (stdout s) (package s) (classes s) (unpatched_instances s) (debug s)
         (class_heap s) x (obj_handle s) (next_ref s) (events s).
Definition with_new_obj (c : class_ref) (h : Z) (s : Lisp) : Lisp :=
  mkLisp (stdout s) (package s) (classes s) (unpatched_instances s) (debug s)
         (class_heap s) (<[next_ref s := c]> (obj_class s))
         (<[next_ref s := h]> (obj_handle s)) (S (next_ref s)) (events s).
Definition log_event (ev : io_event) (s : Lisp) : Lisp :=
  mkLisp (stdout s) (package s) (classes s) (unpatched_instances s) (debug s)
         (class_heap s) (obj_class s) (obj_handle s) (next_ref s)
         (events s ++ [ev]).

(** ** The monad of host computations

    A computation runs on the state and either returns, raises (the
    state changes made so far persist, as in Python), or exhausts the
    recursion budget of the model. *)

Inductive outcome (A : Type) : Type :=
| Return (a : A) (s : Lisp)
| Raise (e : exn) (s : Lisp)
| OutOfFuel.
Arguments Return {A} a s.
Arguments Raise {A} e s.
Arguments OutOfFuel {A}.

Definition M (A : Type) : Type := Lisp → outcome A.

Definition ret {A} (a : A) : M A := λ s, Return a s.
Definition raise {A} (e : exn) : M A := λ s, Raise e s.
Definition bind {A B} (m : M A) (k : A → M B) : M B :=
  λ s, match m s with
       | Return a s' => k a s'
       | Raise e s' => Raise e s'
       | OutOfFuel => OutOfFuel
       end.
Definition get {A} (f : Lisp → A) : M A := λ s, Return (f s) s.
Definition modify (f : Lisp → Lisp) : M unit := λ s, Return tt (f s).

Notation "'let!' x ':=' m 'in' k" := (bind m (λ x, k))
  (at level 10, x pattern, m at level 100, k at level 200).
Notation "'do!' m 'in' k" := (bind m (λ _, k))
  (at level 10, m at level 100, k at level 200).

(** [for x in l: body(x)] *)
Fixpoint for_each {A} (l : list A) (body : A → M unit) : M unit :=
  match l with
  | [] => ret tt
  | x :: l' => do! body x in for_each l' body
  end.

(** ** Attribute access and iteration *)

(** [v.car] *)
Definition attr_car (v : value) : M value :=
  match v with
  | VCons a _ => ret a
  | _ => raise AttributeError
  end.

(** [v.cdr] *)
Definition attr_cdr (v : value) : M value :=
  match v with
  | VCons _ d => ret d
  | _ => raise AttributeError
  end.

(** [for x in v]: the items a [for] loop visits. *)
Definition py_iter (v : value) : M (list value) :=
  match v with
  | VCons _ _ => ret (cons_items v)
  | VTuple items => ret items
  | VList items => ret items
  | VStr s => ret ((λ c, VStr (String c EmptyString)) <$> String.list_ascii_of_string s)
  | _ => raise TypeError
  end.

(** ** Stream primitives *)

(** [self.stdin.write(line)] *)
Definition write (line : string) : M unit := modify (log_event (IoWrite line)).

(** [print(v, end=fin)] *)
Definition print (v : value) (fin : string) : M unit :=
  modify (log_event (IoPrint v fin)).

(** [type(name, (base,), dict)]: a new class object at a fresh address. *)
Definition new_type (nm : string) (base : base_class) (d : gmap string member)
  : M nat :=
  λ s, Return (length (class_heap s))
              (with_class_heap (class_heap s ++ [mkClass nm base d]) s).

(** [setattr(cls, attr, m)] *)
Definition setattr (cls : nat) (attr : string) (m : member) : M unit :=
  modify (λ s, with_class_heap
    (alter (λ c, mkClass (cls_name c) (cls_base c) (<[attr := m]> (cls_dict c)))
           cls (class_heap s)) s).

(** [instance.__class__ = cls] *)
Definition set_class (cls : nat) (instance : nat) : M unit :=
  modify (λ s, with_obj_class (<[instance := Synth cls]> (obj_class s)) s).

(** [d.setdefault(k, []).append(i)] on the insertion-ordered dict. *)
Fixpoint register (k : Symbol) (i : nat) (d : list (Symbol * list nat))
  : list (Symbol * list nat) :=
  match d with
  | [] => [(k, [i])]
  | (k', l) :: d' =>
      if decide (k' = k) then (k', l ++ [i]) :: d'
      else (k', l) :: register k i d'
  end.

(** Modelled from the spec: the object case of the reader
    ([cl4py/reader.py] is not part of the sources at hand).  An object of
    a class that is already in [self.classes] is made an instance of the
    cached class at once; an object whose class is not yet known becomes
    a plain wrapper and is stored in [self.unpatched_instances] under its
    class name, to be patched later. *)
Definition read_object (cls : Symbol) (handle : Z) : M value :=
  λ s, match classes s !! cls with
       | Some addr =>
           Return (VObject (next_ref s)) (with_new_obj (Synth addr) handle s)
       | None =>
           Return (VObject (next_ref s))
                  (with_unpatched
                     (register cls (next_ref s) (unpatched_instances s))
                     (with_new_obj Unpatched handle s))
       end.

(** Modelled from the spec: the value the reader builds from one
    expression, in textual order. *)
Fixpoint read_aux (e : rexpr) : M value :=
  match e with
  | RNil => ret nil_value
  | RInt z => ret (VInt z)
  | RStr s => ret (VStr s)
  | RSym s => ret (VSym s)
  | RCons a d =>
      let! va := read_aux a in
      let! vd := read_aux d in
      ret (VCons va vd)
  | RObject cls handle => read_object cls handle
  | RMalformed => raise SyntaxError
  | RFloat f => ret (VFloat f)
  end.

(** [self.readtable.read(self.stdout)]: takes exactly one expression off
    the inbound stream; a completed read is entered in the log. *)
Definition read : M value :=
  λ s, match stdout s with
       | [] => Raise EOFError s
       | e :: rest =>
           match read_aux e (with_stdout rest s) with
           | Return v s' => Return v (log_event (IoRead e v) s')
           | other => other
           end
       end.

(** ** The textual syntax

    Modelled from the spec: the writer and the reader of the engine's
    textual syntax ([cl4py/writer.py] and [cl4py/reader.py] are not part
    of the sources at hand).  The writer prints integers in decimal,
    strings between double quotes with the quote and the escape
    character escaped, a symbol as [NAMESPACE:NAME] or as [NAME] alone
    when its namespace is the current one, booleans as [T] and [NIL],
    a quoted value behind the quote marker, a call-form tuple as a
    parenthesized list with the operator first, a host sequence that is
    not a call-form as a plain list, a chain of paired cells as a proper
    or dotted list, and a floating value that is zero or finite as a
    decimal literal with the exponent marker of the double format, whose
    digits give the number exactly.  The reader takes one expression
    off the text: an integer, a floating literal, which it rounds to the
    nearest binary64 number, a string with escapes, a symbol, the empty
    list, or a proper or dotted list.  The marker of engine-side
    objects, whose text the spec does not give, is left out. *)

Module Syntax.

Definition dquote : ascii := "034"%char.
Definition backslash : ascii := "092"%char.

Definition chars (s : string) : list ascii := String.list_ascii_of_string s.
Definition text_of (t : list ascii) : string := String.string_of_list_ascii t.

Definition is_whitespace (c : ascii) : bool :=
  Ascii.eqb c " " || Ascii.eqb c "010" || Ascii.eqb c "009" || Ascii.eqb c "013".

Definition is_delimiter (c : ascii) : bool :=
  is_whitespace c || Ascii.eqb c "(" || Ascii.eqb c ")" || Ascii.eqb c dquote
  || Ascii.eqb c "'".

(** *** Writer *)

Fixpoint escape (t : list ascii) : list ascii :=
  match t with
  | [] => []
  | c :: t' =>
      if Ascii.eqb c dquote || Ascii.eqb c backslash
      then backslash :: c :: escape t'
      else c :: escape t'
  end.

Definition write_string (s : string) : list ascii :=
  dquote :: escape (chars s) ++ [dquote].

Definition write_int (z : Z) : list ascii :=
  chars (NilZero.string_of_int (Z.to_int z)).

Definition write_symbol (pkg : string) (x : Symbol) : list ascii :=
  if String.eqb (sym_package x) pkg then chars (sym_name x)
  else chars (sym_package x) ++ ":"%char :: chars (sym_name x).

(** The precision and the exponent bound of the binary64 format. *)
Definition prec : Z := 53.
Definition emax : Z := 1024.

(** A float that has a literal: a zero or a finite binary64 number. *)
Definition float_ok (f : spec_float) : bool :=
  match f with
  | S754_zero _ => true
  | S754_finite _ m e => bounded prec emax m e
  | _ => false
  end.

Definition write_sign (neg : bool) : list ascii :=
  if neg then ["-"%char] else [].

(** The integer [M] with [m * 2^e = M * 10^(min e 0)]. *)
Definition float_digits (m : positive) (e : Z) : Z :=
  match e with
  | Zneg q => Zpos (m * 5 ^ q)
  | _ => Zpos m * 2 ^ e
  end.

(** The literal of a float: [M.0dE], with a sign in front.  An infinity
    and a NaN have none. *)
Definition write_float (f : spec_float) : option (list ascii) :=
  match f with
  | S754_zero s => Some (write_sign s ++ chars "0.0d0")
  | S754_finite s m e =>
      Some (write_sign s ++ write_int (float_digits m e)
            ++ chars ".0d" ++ write_int (Z.min e 0))
  | _ => None
  end.

(** Modelled from the spec: the writer ([lispify] of [cl4py/writer.py],
    absent), on the characters of the text.  [None] stands for a value
    the spec gives no syntax for. *)
Fixpoint write (pkg : string) (v : value) : option (list ascii) :=
  match v with
  | VNone | VObject _ => None
  | VBool b => Some (chars (if b then "T" else "NIL"))
  | VInt z => Some (write_int z)
  | VFloat f => write_float f
  | VStr s => Some (write_string s)
  | VSym x => Some (write_symbol pkg x)
  | VQuote p =>
      match write pkg p with
      | Some wp => Some ("'"%char :: wp)
      | None => None
      end
  | VTuple items =>
      let fix args (l : list value) : option (list ascii) :=
        match l with
        | [] => Some [")"%char]
        | x :: l' =>
            match write pkg x, args l' with
            | Some wx, Some wl => Some (" "%char :: wx ++ wl)
            | _, _ => None
            end
        end in
      match items with
      | [] => Some (chars "()")
      | op :: rest =>
          match write pkg op, args rest with
          | Some wo, Some wl => Some ("("%char :: wo ++ wl)
          | _, _ => None
          end
      end
  | VList items =>
      let fix elements (l : list value) : option (list ascii) :=
        match l with
        | [] => Some [")"%char]
        | x :: l' =>
            match write pkg x, elements l' with
            | Some wx, Some wl => Some (" "%char :: wx ++ wl)
            | _, _ => None
            end
        end in
      match items with
      | [] => Some (chars "()")
      | x :: rest =>
          match write pkg x, elements rest with
          | Some wx, Some wl => Some ("("%char :: wx ++ wl)
          | _, _ => None
          end
      end
  | VCons a d =>
      let fix tail (d : value) : option (list ascii) :=
        match d with
        | VCons a' d' =>
            match write pkg a', tail d' with
            | Some wa, Some wt => Some (" "%char :: wa ++ wt)
            | _, _ => None
            end
        | VTuple [] => Some [")"%char]
        | _ =>
            match write pkg d with
            | Some wd => Some (chars " . " ++ wd ++ [")"%char])
            | None => None
            end
        end in
      match write pkg a, tail d with
      | Some wa, Some wt => Some ("("%char :: wa ++ wt)
      | _, _ => None
      end
  end.

(** Modelled from the spec: [serialize(connection, expr)], with the
    current namespace of the connection as [pkg]. *)
Definition serialize (pkg : string) (v : value) : option string :=
  text_of <$> write pkg v.

(** The tail of a chain of paired cells, as [write] prints it. *)
Definition write_tail (pkg : string) : value → option (list ascii) :=
  fix tail (d : value) : option (list ascii) :=
    match d with
    | VCons a' d' =>
        match write pkg a', tail d' with
        | Some wa, Some wt => Some (" "%char :: wa ++ wt)
        | _, _ => None
        end
    | VTuple [] => Some [")"%char]
    | _ =>
        match write pkg d with
        | Some wd => Some (chars " . " ++ wd ++ [")"%char])
        | None => None
        end
    end.

(** *** Reader *)

Fixpoint skip_whitespace (t : list ascii) : list ascii :=
  match t with
  | c :: t' => if is_whitespace c then skip_whitespace t' else t
  | [] => []
  end.

Fixpoint take_token (t : list ascii) : list ascii * list ascii :=
  match t with
  | c :: t' =>
      if is_delimiter c then ([], t)
      else let '(tok, r) := take_token t' in (c :: tok, r)
  | [] => ([], [])
  end.

Fixpoint read_string_body (t : list ascii) : option (list ascii * list ascii) :=
  match t with
  | [] => None
  | c :: t' =>
      if Ascii.eqb c dquote then Some ([], t')
      else if Ascii.eqb c backslash then
        match t' with
        | [] => None
        | c' :: t'' =>
            match read_string_body t'' with
            | Some (s, r) => Some (c' :: s, r)
            | None => None
            end
        end
      else
        match read_string_body t' with
        | Some (s, r) => Some (c :: s, r)
        | None => None
        end
  end.

Definition read_int (tok : list ascii) : option Z :=
  Z.of_int <$> NilZero.int_of_string (text_of tok).

Fixpoint split_colon (tok : list ascii) : option (list ascii * list ascii) :=
  match tok with
  | [] => None
  | c :: tok' =>
      if Ascii.eqb c ":" then Some ([], tok')
      else match split_colon tok' with
           | Some (p, n) => Some (c :: p, n)
           | None => None
           end
  end.

(** The text before and after the first character that [p] accepts. *)
Fixpoint split_at (p : ascii → bool) (tok : list ascii)
  : option (list ascii * list ascii) :=
  match tok with
  | [] => None
  | c :: tok' =>
      if p c then Some ([], tok')
      else match split_at p tok' with
           | Some (a, b) => Some (c :: a, b)
           | None => None
           end
  end.

Definition is_exponent_marker (c : ascii) : bool :=
  Ascii.eqb c "d" || Ascii.eqb c "e" || Ascii.eqb c "D" || Ascii.eqb c "E".

(** Digits without a sign. *)
Definition read_unsigned (t : list ascii) : option Z :=
  match t with
  | c :: _ => if Ascii.eqb c "-" then None else read_int t
  | [] => None
  end.

(** The binary64 number nearest to [n * 10^k], ties to even: the
    correctly rounded quotient of two integers. *)
Definition float_of_decimal (neg : bool) (n k : Z) : spec_float :=
  match n with
  | Zpos p =>
      match k with
      | Zneg q =>
          SFdiv prec emax (S754_finite neg p 0) (S754_finite false (10 ^ q) 0)
      | _ =>
          SFdiv prec emax (S754_finite neg (p * Z.to_pos (10 ^ k)) 0)
                (S754_finite false 1 0)
      end
  | _ => S754_zero neg
  end.

(** A floating literal: an optional sign, digits, the point, digits,
    and an optional exponent behind its marker. *)
Definition read_float (tok : list ascii) : option spec_float :=
  let '(neg, body) :=
    match tok with
    | c :: b => if Ascii.eqb c "-" then (true, b) else (false, tok)
    | [] => (false, [])
    end in
  match split_at (Ascii.eqb ".") body with
  | None => None
  | Some (ip, rest) =>
      let '(fp, ex) :=
        match split_at is_exponent_marker rest with
        | Some (fp, ep) => (fp, read_int ep)
        | None => (rest, Some 0%Z)
        end in
      match read_unsigned ip, read_unsigned fp, ex with
      | Some i, Some f, Some e =>
          Some (float_of_decimal neg (i * 10 ^ Z.of_nat (length fp) + f)
                                 (e - Z.of_nat (length fp)))
      | _, _, _ => None
      end
  end.

Definition is_dot (t : list ascii) : bool :=
  match t with
  | c :: t' =>
      Ascii.eqb c "." && match t' with [] => true | c' :: _ => is_delimiter c' end
  | [] => false
  end.

Definition classify (pkg : string) (tok : list ascii) : option rexpr :=
  match split_colon tok with
  | Some (p, n) => Some (RSym (mkSymbol (text_of n) (text_of p)))
  | None =>
      match read_float tok with
      | Some f => Some (RFloat f)
      | None =>
          match read_int tok with
          | Some z => Some (RInt z)
          | None =>
              match tok with
              | [] => None
              | _ => if is_dot tok then None
                     else Some (RSym (mkSymbol (text_of tok) pkg))
              end
          end
      end
  end.

(** Modelled from the spec: the reader ([cl4py/reader.py], absent) on
    the characters of the text: one expression, and the text that
    follows it.  [parse_tail] reads the elements of a list after its
    opening parenthesis.  The budget bounds the nesting. *)
Fixpoint parse (fuel : nat) (pkg : string) (t : list ascii)
  : option (rexpr * list ascii) :=
  match fuel with
  | O => None
  | S f =>
      match skip_whitespace t with
      | [] => None
      | c :: t' =>
          if Ascii.eqb c "(" then parse_tail f pkg t'
          else if Ascii.eqb c dquote then
            match read_string_body t' with
            | Some (s, r) => Some (RStr (text_of s), r)
            | None => None
            end
          else if is_delimiter c then None
          else
            let '(tok, r) := take_token (c :: t') in
            match classify pkg tok with
            | Some e => Some (e, r)
            | None => None
            end
      end
  end
with parse_tail (fuel : nat) (pkg : string) (t : list ascii)
  : option (rexpr * list ascii) :=
  match fuel with
  | O => None
  | S f =>
      match skip_whitespace t with
      | [] => None
      | c :: t' =>
          if Ascii.eqb c ")" then Some (RNil, t')
          else if is_dot (c :: t') then
            match parse f pkg t' with
            | Some (e, r) =>
                match skip_whitespace r with
                | c' :: r' => if Ascii.eqb c' ")" then Some (e, r') else None
                | [] => None
                end
            | None => None
            end
          else
            match parse f pkg (c :: t') with
            | Some (e, r) =>
                match parse_tail f pkg r with
                | Some (d, r') => Some (RCons e d, r')
                | None => None
                end
            | None => None
            end
      end
  end.

(** Modelled from the spec: [read] on a text, with a budget that the
    length of the text makes sufficient. *)
Definition parse_text (pkg : string) (s : string) : option (rexpr * string) :=
  match parse (S (String.length s)) pkg (chars s) with
  | Some (e, r) => Some (e, text_of r)
  | None => None
  end.

(** *** Values that both syntaxes can represent *)

Definition is_constituent (c : ascii) : bool := negb (is_delimiter c).

Definition no_colon (t : list ascii) : bool :=
  forallb (λ c, negb (Ascii.eqb c ":")) t.

(** What follows a token: the end of the text or a delimiter. *)
Definition delimited (t : list ascii) : bool :=
  match t with
  | [] => true
  | c :: _ => is_delimiter c
  end.

(** A symbol whose printed form is read back as the same symbol: name
    and namespace are made of constituent characters other than the
    colon, the name is not empty, and a name printed without its
    namespace is neither an integer nor a floating literal nor the
    dot. *)
Definition symbol_ok (pkg : string) (x : Symbol) : bool :=
  forallb is_constituent (chars (sym_name x))
  && forallb is_constituent (chars (sym_package x))
  && no_colon (chars (sym_name x)) && no_colon (chars (sym_package x))
  && match chars (sym_name x) with [] => false | _ => true end
  && (if String.eqb (sym_package x) pkg
      then match read_float (chars (sym_name x)),
                 read_int (chars (sym_name x)) with
           | None, None => negb (is_dot (chars (sym_name x)))
           | _, _ => false
           end
      else true).

(** Integers, floats that have a literal, strings, such symbols, the
    empty list and chains of paired cells over them; no quote, no
    call-form tuple.  A host sequence is written as a list and read back
    as a chain of paired cells, and a boolean is read back as a symbol:
    they are not among the values that both syntaxes represent. *)
Fixpoint representable (pkg : string) (v : value) : bool :=
  match v with
  | VInt _ | VStr _ => true
  | VFloat f => float_ok f
  | VSym x => symbol_ok pkg x
  | VCons a d => representable pkg a && representable pkg d
  | VTuple [] => true
  | _ => false
  end.

(** The expression that the reader turns into [v]. *)
Fixpoint expr_of (v : value) : rexpr :=
  match v with
  | VInt z => RInt z
  | VFloat f => RFloat f
  | VStr s => RStr s
  | VSym x => RSym x
  | VCons a d => RCons (expr_of a) (expr_of d)
  | VTuple [] => RNil
  | _ => RMalformed
  end.

(** A budget that is enough to parse the printed form of [v]. *)
Fixpoint depth (v : value) : nat :=
  match v with
  | VCons a d => 2 + max (depth a) (depth d)
  | _ => 2
  end.

(** A character of a printed integer. *)
Definition digit_like (c : ascii) : Prop :=
  is_delimiter c = false ∧ Ascii.eqb c ":" = false ∧ Ascii.eqb c "." = false.

(** A character of a printed natural number. *)
Definition digit_char (c : ascii) : Prop :=
  digit_like c ∧ Ascii.eqb c "-" = false ∧ is_exponent_marker c = false.

(** The text of an element of a list: it starts with a character that
    is neither blank nor the closing parenthesis, and not with the dot
    of a dotted pair. *)
Definition starts_element (t : list ascii) : Prop :=
  ∃ c t', t = c :: t' ∧ is_whitespace c = false ∧
          Ascii.eqb c ")" = false ∧ is_dot t = false.

End Syntax.

(** ** A concrete session

    Instances of the parts of [cl4py/data.py] and [cl4py/writer.py] that
    the evaluation call takes as parameters, and inbound streams, used
    by the examples at the end. *)

Definition state_after {A} (o : outcome A) (s : Lisp) : Lisp :=
  match o with
  | Return _ s' | Raise _ s' => s'
  | OutOfFuel => s
  end.

Definition demo_lispify (s : Lisp) (v : value) : option string :=
  match package s with
  | VStr p =>
      match Syntax.serialize p v with
      | Some t => Some t
      | None => Some "(cl4py:call)"
      end
  | _ => None
  end.

Definition demo_str (v : value) : string :=
  match v with
  | VSym x => sym_package x +:+ ":" +:+ sym_name x
  | VStr s => s
  | _ => "object"
  end.

Definition demo_python_name (x : Symbol) : string := sym_name x.

Definition demo_call_form (f : value) (args : list value) : value :=
  VTuple (f :: args).

Definition demo_session (inbound : list rexpr) : Lisp :=
  mkLisp inbound (VStr "COMMON-LISP-USER") ∅ [] false [] ∅ ∅ 0 [].

Definition USER : rexpr := RStr "COMMON-LISP-USER".
Definition POINT : Symbol := mkSymbol "POINT" "GEO".
Definition FUNCTION : Symbol := mkSymbol "FUNCTION" "COMMON-LISP".
Definition AREA : Symbol := mkSymbol "AREA" "GEO".
Definition TYPEX : Symbol := mkSymbol "TYPEX" "GEO".

Definition rlist (l : list rexpr) : rexpr := foldr RCons RNil l.

Definition demo_request : value :=
  VTuple [VSym (mkSymbol "MAKE-POINT" "GEO"); VInt 1; VInt 2].

(** Two values come back. *)
Definition values_stream : list rexpr :=
  [USER; rlist [RInt 1; RInt 2]; RNil; RStr "done"].

(** The engine reports a condition; the frame holds a new object. *)
Definition condition_stream (TYPE : Symbol) : list rexpr :=
  [USER; rlist [RObject POINT 7]; rlist [RSym TYPE; RStr "boom"]; RStr "out"].

(** One object of an unknown class comes back, and the engine answers
    the queries of the patching pass. *)
Definition patching_stream : list rexpr :=
  [ USER; rlist [RObject POINT 7]; RNil; RStr "";
    USER; rlist [RObject FUNCTION 8]; RNil; RStr "";
    USER; rlist [RObject FUNCTION 9]; RNil; RStr "";
    USER; rlist [RNil]; RNil; RStr "";
    USER; rlist [rlist [RCons (RSym AREA) (RObject FUNCTION 10)]]; RNil;
    RStr "" ].

(** Two objects of unknown classes come back, and the answer to the
    query for the first class holds an object of the second. *)
Definition GENERIC : Symbol :=
  mkSymbol "STANDARD-GENERIC-FUNCTION" "COMMON-LISP".

Definition twice_stream : list rexpr :=
  [ USER; rlist [RObject POINT 1; RObject GENERIC 2]; RNil; RStr "";
    USER; rlist [RObject FUNCTION 8]; RNil; RStr "";
    USER; rlist [rlist [RCons (RSym AREA) (RObject GENERIC 9)]]; RNil; RStr "";
    USER; rlist [RObject FUNCTION 8]; RNil; RStr "";
    USER; rlist [RNil]; RNil; RStr "";
    USER; rlist [RObject FUNCTION 8]; RNil; RStr "";
    USER; rlist [RNil]; RNil; RStr "" ].

(** A session that has the class [FUNCTION] in its cache. *)
Definition function_session (inbound : list rexpr) : Lisp :=
  mkLisp inbound (VStr "COMMON-LISP-USER") {[FUNCTION := 0]} [] false
         [mkClass "FUNCTION" LispWrapper ∅] ∅ ∅ 0 [].

(** A session that has the class [POINT] in its cache. *)
Definition cached_session (inbound : list rexpr) : Lisp :=
  mkLisp inbound (VStr "COMMON-LISP-USER") {[POINT := 0]} [] false
         [mkClass "POINT" LispWrapper ∅] ∅ ∅ 0 [].

(** One object of an unknown class comes back, and the engine answers
    the first query of the patching pass with a condition. *)
Definition lost_stream : list rexpr :=
  [ USER; rlist [RObject POINT 7]; RNil; RStr EmptyString;
    USER; RNil; rlist [RSym TYPEX; RStr "no"]; RStr EmptyString ].

(** A frame that is cut short after two expressions. *)
Definition short_stream : list rexpr := [USER; rlist [RInt 1]].

(** A frame whose result is an integer, not a list, and whose condition
    is a string. *)
Definition atom_stream : list rexpr :=
  [USER; RInt 5; RStr "oops"; RStr EmptyString].

(** The answers to the lookup of [CL:FIND-PACKAGE] and to its call. *)
Definition find_package_stream : list rexpr :=
  [ USER; rlist [RObject FUNCTION 8]; RNil; RStr EmptyString;
    RStr "GEO"; rlist [RSym (mkSymbol "GEO" "KEYWORD")]; RNil;
    RStr EmptyString ].

(** The frame of the call reports the namespace [A]; the frames that
    answer the queries of the patching pass report [GEO]. *)
Definition namespace_stream : list rexpr :=
  [ RStr "A"; rlist [RObject POINT 7]; RNil; RStr EmptyString;
    RStr "GEO"; rlist [RObject FUNCTION 8]; RNil; RStr EmptyString;
    RStr "GEO"; rlist [RObject FUNCTION 9]; RNil; RStr EmptyString;
    RStr "GEO"; rlist [RNil]; RNil; RStr EmptyString;
    RStr "GEO"; rlist [rlist [RCons (RSym AREA) (RObject FUNCTION 10)]]; RNil;
    RStr EmptyString ].

(** ** The evaluation call *)

Section Eval.

(** [lispify(self, expr)] of [cl4py/writer.py]: the request text, or
    [None] when the writer rejects the expression. *)
Variable lispify : Lisp → value → option string.
(** [str(v)], which for a symbol is [Symbol.__str__] of [cl4py/data.py]. *)
Variable py_str : value → string.
(** [Symbol.python_name] of [cl4py/data.py]. *)
Variable python_name : Symbol → string.
(** The call-form that invoking a wrapper [f(args)] hands to [eval]
    ([LispWrapper.__call__] of [cl4py/data.py]). *)
Variable call_form : value → list value → value.

(** [f(args)], with [ev] the evaluation call of the session. *)
Definition call (ev : value → bool → bool → M value)
    (f : value) (args : list value) : M value :=
  match f with
  | VObject _ => ev (call_form f args) false false
  | _ => raise TypeError
  end.

(** [self.function(name)], with [ev] the evaluation call of the session. *)
Definition function_of (ev : value → bool → bool → M value) (nm : value)
  : M value :=
  ev (VTuple [VStr "CL:FUNCTION"; nm]) false false.

(** [add_member_function(cls, name, gf)] *)
Definition add_member_function (cls : nat) (nm gf : value) : M unit :=
  match nm with
  | VSym x => setattr cls (python_name x) (MMethod gf)
  | _ => raise AttributeError
  end.

(** Lines 108-114: the engine reported a condition. *)
Definition raise_condition (err : value) : M value :=
  let! condition := attr_car err in
  let! rest := attr_cdr err in
  let! msg := (if truthy rest then attr_car rest else ret (VStr EmptyString)) in
  let! cls := new_type (py_str condition) RuntimeError {["__init__" := MInit msg]} in
  raise (ExcInstance cls [msg]).

(** Lines 129-142: the values handed back to the caller. *)
Definition return_values (return_lisp_output : bool) (val output : value)
  : M value :=
  if return_lisp_output then
    if eq_nil val then ret (VTuple [VNone; output])
    else
      let! d := attr_cdr val in
      if eq_nil d then
        let! a := attr_car val in ret (VTuple [a; output])
      else ret (VTuple [VTuple (cons_items val); output])
  else
    if eq_nil val then ret VNone
    else
      let! d := attr_cdr val in
      if eq_nil d then attr_car val
      else ret (VTuple (cons_items val)).

(** Lines 95-106: the request line, the four reads, the package update
    and the optional echo of the Lisp output. *)
Definition exchange (expr : value) (print_lisp_output : bool)
  : M (value * value * value * value) :=
  let! self := get id in
  match lispify self expr with
  | None => raise WriterError
  | Some sexp =>
      let! dbg := get debug in
      do! (if dbg then print (VStr sexp) "
" else ret tt) in
      do! write (sexp +:+ "
") in
      let! pkg := read in
      let! val := read in
      let! err := read in
      let! output := read in
      do! modify (with_package pkg) in
      do! (if print_lisp_output then print output EmptyString else ret tt) in
      ret (pkg, val, err, output)
  end.

(** The body of the loop of lines 119-126, for one entry of the
    snapshot; [ev] is [self.eval]. *)
Definition patch_class (ev : value → bool → bool → M value)
    (item : Symbol * list nat) : M unit :=
  let '(cls_name, instances) := item in
  let! cls := new_type (python_name cls_name) LispWrapper ∅ in
  do! modify (λ s, with_classes (<[cls_name := cls]> (classes s)) s) in
  let! f := function_of ev (VStr "cl4py:class-information") in
  let! alist := call ev f [VSym cls_name] in
  let! conses := py_iter alist in
  do! for_each conses (λ cons,
        let! nm := attr_car cons in
        let! gf := attr_cdr cons in
        add_member_function cls nm gf) in
  for_each instances (set_class cls).

(** Lines 117-126: snapshot and clear the pending instances, then patch
    class by class. *)
Definition patch_unpatched (ev : value → bool → bool → M value) : M unit :=
  let! items := get unpatched_instances in
  do! modify (with_unpatched []) in
  for_each items (patch_class ev).

(** [Lisp.eval].  The budget bounds the depth of the calls that the
    patching loop makes back into [eval]. *)
Fixpoint eval (fuel : nat) (expr : value)
    (return_lisp_output print_lisp_output : bool) : M value :=
  match fuel with
  | O => λ _, OutOfFuel
  | S fuel' =>
      let! (pkg, val, err, output) := exchange expr print_lisp_output in
      if is_Cons err then raise_condition err
      else
        do! patch_unpatched (eval fuel') in
        return_values return_lisp_output val output
  end.

(** [Lisp.function] *)
Definition function (fuel : nat) (nm : value) : M value :=
  function_of (eval fuel) nm.

(** [Lisp.find_package] *)
Definition find_package (fuel : nat) (name : value) : M value :=
  let! f := function fuel (VStr "CL:FIND-PACKAGE") in
  call (eval fuel) f [name].

(** Every call into [eval] consumes inbound expressions before it can
    call itself again, so the length of the inbound stream bounds the
    depth. *)
Definition Lisp_eval (expr : value)
    (return_lisp_output print_lisp_output : bool) : M value :=
  λ s, eval (S (length (stdout s))) expr return_lisp_output print_lisp_output s.

(** ** Observations used in the statements *)

(** The state a computation ends in, and the value it returns. *)
Definition final_state {A} (o : outcome A) : option Lisp :=
  match o with
  | Return _ s | Raise _ s => Some s
  | OutOfFuel => None
  end.

Definition returned {A} (o : outcome A) : option A :=
  match o with
  | Return a _ => Some a
  | _ => None
  end.

Definition raised {A} (o : outcome A) : option exn :=
  match o with
  | Raise e _ => Some e
  | _ => None
  end.

(** A computation keeps a relation between the state it starts in and
    the state it ends in, whether it returns or raises. *)
Definition keeps (R : Lisp → Lisp → Prop) {A} (m : M A) : Prop :=
  ∀ s, match m s with
       | Return _ s' | Raise _ s' => R s s'
       | OutOfFuel => True
       end.

(** The values read since the last request line was written. *)
Definition frame_step (acc : list value) (ev : io_event) : list value :=
  match ev with
  | IoWrite _ => []
  | IoRead _ v => acc ++ [v]
  | IoPrint _ _ => acc
  end.

Definition current_frame (evs : list io_event) : list value :=
  fold_left frame_step evs [].

(** The recorded package is the first value of the frame last completed. *)
Definition package_tracks_frame (s : Lisp) : Prop :=
  ∀ pkg val err output,
    current_frame (events s) = [pkg; val; err; output] → package s = pkg.

(** The class names of the object markers of an expression, in textual
    order. *)
Fixpoint markers (e : rexpr) : list Symbol :=
  match e with
  | RCons a d => markers a ++ markers d
  | RObject cls _ => [cls]
  | _ => []
  end.

(** An instance whose runtime type is a synthesized class. *)
Definition patched (s : Lisp) (i : nat) : Prop :=
  ∃ addr, obj_class s !! i = Some (Synth addr).

(** An instance that waits in [self.unpatched_instances]. *)
Definition pending (s : Lisp) (i : nat) : Prop :=
  ∃ k l, (k, l) ∈ unpatched_instances s ∧ i ∈ l.

(** Every reference handed out so far is below [next_ref]. *)
Definition refs_allocated (s : Lisp) : Prop :=
  ∀ i, pending s i → i < next_ref s.

(** What the caller receives: the result alone, or the pair of the
    result and the Lisp output. *)
Definition pair_output (return_lisp_output : bool) (r output : value) : value :=
  if return_lisp_output then VTuple [r; output] else r.

(** The class object made for a condition of type [TYPE] with message
    [msg]. *)
Definition condition_class (TYPE msg : value) : pyclass :=
  mkClass (py_str TYPE) RuntimeError {["__init__" := MInit msg]}.

(** What [print(sexp)] under [self.debug] and [print(output, end=str())]
    under [print_lisp_output] add to the log. *)
Definition debug_echo (s : Lisp) (sexp : string) : list io_event :=
  if debug s then [IoPrint (VStr sexp) "
"] else [].

Definition output_echo (print_lisp_output : bool) (output : value)
  : list io_event :=
  if print_lisp_output then [IoPrint output EmptyString] else [].

(** An expression the reader accepts. *)
Fixpoint readable (e : rexpr) : bool :=
  match e with
  | RMalformed => false
  | RCons a d => readable a && readable d
  | _ => true
  end.

(** A computation that never exhausts the budget. *)
Definition total {A} (m : M A) : Prop := ∀ s, m s ≠ OutOfFuel.

(** A computation that does not exhaust the budget when fewer than [n]
    expressions are left on the inbound stream. *)
Definition terminates_below (n : nat) {A} (m : M A) : Prop :=
  ∀ s, (length (stdout s) < n)%nat → m s ≠ OutOfFuel.

(** The last frame of the log is complete and its first value is the
    recorded package. *)
Definition frame_complete (s : Lisp) : Prop :=
  ∃ pkg val err output,
    current_frame (events s) = [pkg; val; err; output] ∧ package s = pkg.

(** [Q] holds after the computation whenever it returns or raises the
    exception of an engine condition; [maintains] assumes [Q] before. *)
Definition settles (Q : Lisp → Prop) {A} (m : M A) : Prop :=
  ∀ s, match m s with
       | Return _ s' | Raise (ExcInstance _ _) s' => Q s'
       | _ => True
       end.

Definition maintains (Q : Lisp → Prop) {A} (m : M A) : Prop :=
  ∀ s, Q s → match m s with
             | Return _ s' | Raise (ExcInstance _ _) s' => Q s'
             | _ => True
             end.

(** The runtime type the reader gives to a new instance of class [k]. *)
Definition class_for (s : Lisp) (k : Symbol) : class_ref :=
  match classes s !! k with
  | Some addr => Synth addr
  | None => Unpatched
  end.

(** What parsing expressions with the object markers [ms] does to the
    wrapper instances: the [j]-th marker gets the reference
    [next_ref s + j]; it is an instance of the cached class when there
    is one, and a pending plain wrapper otherwise; nothing else moves. *)
Definition reads_markers (ms : list Symbol) (s s' : Lisp) : Prop :=
  next_ref s' = (next_ref s + length ms)%nat ∧
  classes s' = classes s ∧
  (∀ j k, ms !! j = Some k →
          obj_class s' !! (next_ref s + j)%nat = Some (class_for s k)) ∧
  (∀ j k, ms !! j = Some k → classes s !! k = None →
          pending s' (next_ref s + j)%nat) ∧
  (∀ i, (i < next_ref s)%nat → obj_class s' !! i = obj_class s !! i) ∧
  (∀ i, pending s i → pending s' i) ∧
  (∀ i, pending s' i → pending s i ∨ (next_ref s ≤ i < next_ref s')%nat) ∧
  (Forall (λ k, is_Some (classes s !! k)) ms →
   unpatched_instances s' = unpatched_instances s).

(** Two states with the same wrapper instances and class cache. *)
Definition same_instances (s s' : Lisp) : Prop :=
  next_ref s' = next_ref s ∧ classes s' = classes s ∧
  obj_class s' = obj_class s ∧
  unpatched_instances s' = unpatched_instances s.

(** Instances patched in [s] and allocated by then are patched in [s']. *)
Definition patched_kept (s s' : Lisp) : Prop :=
  (next_ref s ≤ next_ref s')%nat ∧
  ∀ i, (i < next_ref s)%nat → patched s i → patched s' i.

(** The class [T], cached at [c] and not pending in [s], is still so
    in [s']. *)
Definition cache_entry_kept (T : Symbol) (c : nat) (s s' : Lisp) : Prop :=
  classes s !! T = Some c ∧ T ∉ (unpatched_instances s).*1 →
  classes s' !! T = Some c ∧ T ∉ (unpatched_instances s').*1.

(** The log of [s'] continues the log of [s]. *)
Definition log_extends (s s' : Lisp) : Prop := events s `prefix_of` events s'.

(** Between [s] and [s'] the inbound stream got no longer, and the class
    heap and the instance counter got no smaller. *)
Definition monotone (s s' : Lisp) : Prop :=
  (length (stdout s') ≤ length (stdout s))%nat ∧
  (length (class_heap s) ≤ length (class_heap s'))%nat ∧
  (next_ref s ≤ next_ref s')%nat.

(** The part of the state that parsing an expression leaves alone. *)
Definition reader_frame (s s' : Lisp) : Prop :=
  stdout s' = stdout s ∧ package s' = package s ∧ classes s' = classes s ∧
  class_heap s' = class_heap s ∧ debug s' = debug s ∧ events s' = events s.

(** The class cache of [s'] has an entry for every symbol that has one
    in [s]. *)
Definition cache_grows (s s' : Lisp) : Prop :=
  ∀ k, is_Some (classes s !! k) → is_Some (classes s' !! k).

(** Every class object of [s] is still at its address in [s'], with its
    name and its base; only its members may differ. *)
Definition heap_stable (s s' : Lisp) : Prop :=
  ∀ c cls, class_heap s !! c = Some cls →
           ∃ d, class_heap s' !! c
                = Some (mkClass (cls_name cls) (cls_base cls) d).

(** The symbols under which instances wait in
    [self.unpatched_instances]. *)
Definition pending_classes (s : Lisp) : list Symbol :=
  (unpatched_instances s).*1.

(** An allocated instance that is not pending in [s] is not pending in
    [s']. *)
Definition not_revived (s s' : Lisp) : Prop :=
  (next_ref s ≤ next_ref s')%nat ∧
  ∀ i, (i < next_ref s)%nat → ¬ pending s i → ¬ pending s' i.

(** An allocated instance outside [X] that is not pending in [s] is not
    pending in [s'] and has the runtime type it had in [s]. *)
Definition settled_outside (X : nat → Prop) (s s' : Lisp) : Prop :=
  (next_ref s ≤ next_ref s')%nat ∧
  ∀ i, (i < next_ref s)%nat → ¬ X i → ¬ pending s i →
       ¬ pending s' i ∧ obj_class s' !! i = obj_class s !! i.

(** The class at address [c] is a subclass of [LispWrapper]. *)
Definition wrapper_class (s : Lisp) (c : nat) : Prop :=
  ∃ n d, class_heap s !! c = Some (mkClass n LispWrapper d).

(** Every entry of the class cache is a subclass of [LispWrapper] that
    carries the [python_name] of its symbol, and the runtime type of
    every patched instance is a subclass of [LispWrapper]. *)
Definition registry_sound (s : Lisp) : Prop :=
  (∀ k c, classes s !! k = Some c →
          ∃ d, class_heap s !! c
               = Some (mkClass (python_name k) LispWrapper d)) ∧
  (∀ i c, obj_class s !! i = Some (Synth c) → wrapper_class s c).

(** The members of a class after [add_member_function] has been called
    for each pair of a name and a function, in order. *)
Definition attach (d : gmap string member) (pairs : list (Symbol * value))
  : gmap string member :=
  foldl (λ d p, <[python_name p.1 := MMethod p.2]> d) d pairs.

(** The pair [(name . gf)] of a class description. *)
Definition member_pair (p : Symbol * value) : value := VCons (VSym p.1) p.2.

(** A value of a builtin host type other than the empty tuple (the
    empty list [[]] is not equal to [()]): it has neither [car] nor
    [cdr]. *)
Definition builtin_atom (v : value) : bool :=
  match v with
  | VNone | VBool _ | VInt _ | VStr _ | VTuple (_ :: _) | VFloat _ | VList _ => true
  | _ => false
  end.

(** Between [s] and [s'] nothing was written or printed, and the
    package, the class cache, the classes and the debug flag are the
    same. *)
Definition only_reads (s s' : Lisp) : Prop :=
  stdin s' = stdin s ∧ printed s' = printed s ∧ package s' = package s ∧
  classes s' = classes s ∧ class_heap s' = class_heap s ∧ debug s' = debug s.

(** With [self.debug] off in [s], it is off in [s'] and nothing was
    printed in between. *)
Definition quiet (s s' : Lisp) : Prop :=
  debug s = false → debug s' = false ∧ printed s' = printed s.

(** The first [n] class objects of [s] are the first [n] class objects
    of [s'], members included. *)
Definition heap_kept (n : nat) (s s' : Lisp) : Prop :=
  (n ≤ length (class_heap s))%nat →
  (n ≤ length (class_heap s'))%nat ∧
  take n (class_heap s') = take n (class_heap s).

(** The log of one evaluation call made by the patching pass, which
    runs with both options off: the echo of the request under
    [self.debug], the request line, and four reads. *)
Definition nested_frame (evs : list io_event) : Prop :=
  ∃ (dbg : bool) sexp e1 v1 e2 v2 e3 v3 e4 v4,
    evs = (if dbg then [IoPrint (VStr sexp) "
"] else []) ++
          [IoWrite (sexp +:+ "
"); IoRead e1 v1; IoRead e2 v2; IoRead e3 v3; IoRead e4 v4].

(** The log of [s] is the log of [s0] followed by the logs of such
    calls, one after the other. *)
Definition framed_since (s0 s : Lisp) : Prop :=
  ∃ nested, events s = events s0 ++ concat nested ∧ Forall nested_frame nested.

(** What a relation must satisfy to be kept by every evaluation call:
    it is a preorder, and the exchange and each state change of the
    patching loop keep it. *)
Record respected (R : Lisp → Lisp → Prop) : Prop := {
  resp_refl : ∀ s, R s s;
  resp_trans : ∀ a b c, R a b → R b c → R a c;
  resp_exchange : ∀ expr p, keeps R (exchange expr p);
  resp_new_type : ∀ n b d, keeps R (new_type n b d);
  resp_cache : ∀ k c,
    keeps R (modify (λ s, with_classes (<[k := c]> (classes s)) s));
  resp_clear : keeps R (modify (with_unpatched []));
  resp_setattr : ∀ c a m, keeps R (setattr c a m);
  resp_set_class : ∀ c i, keeps R (set_class c i)
}.

(** ** The monad *)

Lemma bind_Return {A B} (m : M A) (k : A → M B) s b s' :
  bind m k s = Return b s' ↔ ∃ a s1, m s = Return a s1 ∧ k a s1 = Return b s'.
Proof. unfold bind. destruct (m s) as [a0 s0|e0 s0|]; split; intros H; try (destruct H as [H|H]); try (destruct H as (?&?&?&?)); simplify_eq; eauto. Qed.

Lemma bind_Raise {A B} (m : M A) (k : A → M B) s e s' :
  bind m k s = Raise e s' ↔
  m s = Raise e s' ∨ ∃ a s1, m s = Return a s1 ∧ k a s1 = Raise e s'.
Proof. unfold bind. destruct (m s) as [a0 s0|e0 s0|]; split; intros H; try (destruct H as [H|H]); try (destruct H as (?&?&?&?)); simplify_eq; eauto. Qed.

Lemma bind_of_Return {A B} (m : M A) (k : A → M B) s a s1 :
  m s = Return a s1 → bind m k s = k a s1.
Proof. unfold bind. by intros ->. Qed.

Lemma bind_of_Raise {A B} (m : M A) (k : A → M B) s e s1 :
  m s = Raise e s1 → bind m k s = Raise e s1.
Proof. unfold bind. by intros ->. Qed.

Section Keeps.
Variable R : Lisp → Lisp → Prop.
Hypothesis R_refl : ∀ s, R s s.
Hypothesis R_trans : ∀ a b c, R a b → R b c → R a c.

Lemma keeps_ret {A} (a : A) : keeps R (ret a).
Proof. intros s. apply R_refl. Qed.

Lemma keeps_raise {A} e : keeps R (@raise A e).
Proof. intros s. apply R_refl. Qed.

Lemma keeps_get {A} (f : Lisp → A) : keeps R (get f).
Proof. intros s. apply R_refl. Qed.

Lemma keeps_bind {A B} (m : M A) (k : A → M B) :
  keeps R m → (∀ a, keeps R (k a)) → keeps R (bind m k).
Proof.
  intros Hm Hk s. unfold bind. specialize (Hm s).
  destruct (m s) as [a s1|e s1|]; try done.
  specialize (Hk a s1). destruct (k a s1); eauto.
Qed.

Lemma keeps_for_each {A} (l : list A) (body : A → M unit) :
  (∀ x, keeps R (body x)) → keeps R (for_each l body).
Proof.
  intros Hb. induction l as [|x l IH]; simpl.
  - apply keeps_ret.
  - apply keeps_bind; auto.
Qed.

Lemma keeps_attr_car v : keeps R (attr_car v).
Proof. destruct v; first [apply keeps_ret | apply keeps_raise]. Qed.

Lemma keeps_attr_cdr v : keeps R (attr_cdr v).
Proof. destruct v; first [apply keeps_ret | apply keeps_raise]. Qed.

Lemma keeps_py_iter v : keeps R (py_iter v).
Proof. destruct v; first [apply keeps_ret | apply keeps_raise]. Qed.

Lemma keeps_return_values b val output : keeps R (return_values b val output).
Proof.
  unfold return_values.
  repeat first
    [ apply keeps_ret | apply keeps_attr_car
    | apply keeps_bind; [apply keeps_attr_cdr || apply keeps_attr_car | intros ?]
    | match goal with |- context [if ?c then _ else _] => destruct c end ].
Qed.
End Keeps.

(** One round of the patching loop, and so the whole pass, keeps a
    relation as soon as its state changes and the evaluation calls it
    makes do. *)
Lemma patch_class_keeps_gen R (ev : value → bool → bool → M value) k l :
  (∀ s, R s s) → (∀ a b c, R a b → R b c → R a c) →
  (∀ n b d, keeps R (new_type n b d)) →
  (∀ c, keeps R (modify (λ s, with_classes (<[k := c]> (classes s)) s))) →
  (∀ c a m, keeps R (setattr c a m)) →
  (∀ c i, keeps R (set_class c i)) →
  (∀ e a b, keeps R (ev e a b)) → keeps R (patch_class ev (k, l)).
Proof.
  intros Hrefl Htrans Hnew Hcache Hset Hcls Hev.
  pose proof (@keeps_bind R Htrans) as Hbind.
  pose proof (@keeps_raise R Hrefl) as Hraise.
  pose proof (@keeps_attr_car R Hrefl) as Hcar.
  pose proof (@keeps_attr_cdr R Hrefl) as Hcdr.
  pose proof (@keeps_for_each R Hrefl Htrans) as Hfor.
  unfold patch_class, function_of.
  apply Hbind; [apply Hnew|intros cls].
  apply Hbind; [apply Hcache|intros _].
  apply Hbind; [apply Hev|intros f].
  apply Hbind; [|intros alist].
  { unfold call. destruct f; first [apply Hraise | apply Hev]. }
  apply Hbind; [by apply keeps_py_iter|intros conses].
  apply Hbind; [|intros _].
  { apply Hfor. intros cons.
    apply Hbind; [apply Hcar|intros nm].
    apply Hbind; [apply Hcdr|intros gf].
    unfold add_member_function.
    destruct nm; first [apply Hraise | apply Hset]. }
  apply Hfor. intros i. apply Hcls.
Qed.

Lemma patch_class_keeps R (HR : respected R)
    (ev : value → bool → bool → M value) item :
  (∀ e a b, keeps R (ev e a b)) → keeps R (patch_class ev item).
Proof.
  intros Hev. destruct item as [k l].
  apply patch_class_keeps_gen; try apply HR; done.
Qed.

Lemma patch_unpatched_keeps R (HR : respected R)
    (ev : value → bool → bool → M value) :
  (∀ e a b, keeps R (ev e a b)) → keeps R (patch_unpatched ev).
Proof.
  intros Hev. unfold patch_unpatched.
  apply (keeps_bind R (resp_trans R HR));
    [apply keeps_get, HR|intros items].
  apply (keeps_bind R (resp_trans R HR)); [apply HR|intros _].
  apply keeps_for_each; [apply HR|apply HR|].
  intros item. by apply patch_class_keeps.
Qed.

Lemma raise_condition_keeps R (HR : respected R) err :
  keeps R (raise_condition err).
Proof.
  destruct HR as [Hrefl Htrans Hex Hnew Hcache Hclear Hset Hcls].
  pose proof (@keeps_bind R Htrans) as Hbind.
  unfold raise_condition.
  apply Hbind; [by apply keeps_attr_car|intros condition].
  apply Hbind; [by apply keeps_attr_cdr|intros rest].
  apply Hbind; [|intros msg].
  { destruct (truthy rest); [by apply keeps_attr_car|by apply keeps_ret]. }
  apply Hbind; [apply Hnew|intros cls]. by apply keeps_raise.
Qed.

(** Every evaluation call keeps a respected relation, whatever the
    budget and whether it returns or raises. *)
Lemma eval_keeps R (HR : respected R) fuel expr rlo plo :
  keeps R (eval fuel expr rlo plo).
Proof.
  revert expr rlo plo. induction fuel as [|fuel IH]; intros expr rlo plo.
  - intros s. exact I.
  - simpl. apply (keeps_bind R (resp_trans R HR)); [apply HR|].
    intros [[[pkg val] err] output].
    destruct (is_Cons err); [by apply raise_condition_keeps|].
    apply (keeps_bind R (resp_trans R HR)).
    + by apply patch_unpatched_keeps.
    + intros _. apply keeps_return_values; apply HR.
Qed.

(** ** The reader *)

Lemma reader_frame_refl s : reader_frame s s.
Proof. by repeat split. Qed.

Lemma reader_frame_trans a b c :
  reader_frame a b → reader_frame b c → reader_frame a c.
Proof.
  unfold reader_frame. intros (?&?&?&?&?&?) (?&?&?&?&?&?).
  repeat split; congruence.
Qed.

Lemma read_aux_frame e : keeps reader_frame (read_aux e).
Proof.
  induction e; simpl;
    try (apply keeps_ret, reader_frame_refl);
    try (apply keeps_raise, reader_frame_refl).
  - apply keeps_bind; [apply reader_frame_trans|done|intros va].
    apply keeps_bind; [apply reader_frame_trans|done|intros vd].
    apply keeps_ret, reader_frame_refl.
  - intros s. unfold read_object. by destruct (classes s !! cls).
Qed.

Lemma read_Return s v s' :
  read s = Return v s' →
  ∃ e, stdout s = e :: stdout s' ∧ events s' = events s ++ [IoRead e v] ∧
       package s' = package s ∧ classes s' = classes s ∧
       class_heap s' = class_heap s ∧ debug s' = debug s.
Proof.
  unfold read. destruct (stdout s) as [|e rest] eqn:Hs; [done|].
  pose proof (read_aux_frame e (with_stdout rest s)) as Hf.
  destruct (read_aux e (with_stdout rest s)) as [v1 s1|e1 s1|]; [|done|done].
  intros [= -> <-]. destruct Hf as (H1&H2&H3&H4&H5&H6). simpl in *.
  exists e. rewrite H1, H6. by repeat split.
Qed.

Lemma read_Raise s e s' :
  read s = Raise e s' →
  events s' = events s ∧ package s' = package s ∧ classes s' = classes s ∧
  class_heap s' = class_heap s ∧ debug s' = debug s ∧
  (length (stdout s') ≤ length (stdout s))%nat.
Proof.
  unfold read. destruct (stdout s) as [|x rest] eqn:Hs.
  - intros [= _ <-]. rewrite Hs. by repeat split.
  - pose proof (read_aux_frame x (with_stdout rest s)) as Hf.
    destruct (read_aux x (with_stdout rest s)) as [v1 s1|e1 s1|]; [done| |done].
    intros [= _ <-]. destruct Hf as (H1&H2&H3&H4&H5&H6). simpl in *.
    rewrite H1. repeat split; try done. simpl. lia.
Qed.

(** ** The exchange: one request line, four reads *)

Lemma exchange_Return expr plo s pkg val err output s1 :
  exchange expr plo s = Return (pkg, val, err, output) s1 →
  ∃ sexp e1 e2 e3 e4,
    lispify s expr = Some sexp ∧
    stdout s = e1 :: e2 :: e3 :: e4 :: stdout s1 ∧
    events s1 = events s ++ debug_echo s sexp ++
                [IoWrite (sexp +:+ "
"); IoRead e1 pkg; IoRead e2 val; IoRead e3 err; IoRead e4 output] ++
                output_echo plo output ∧
    package s1 = pkg ∧ classes s1 = classes s ∧
    class_heap s1 = class_heap s ∧ debug s1 = debug s.
Proof.
  unfold exchange, get. intros H.
  apply bind_Return in H as (self & s0 & [= <- <-] & H). unfold id in H.
  destruct (lispify s expr) as [sexp|] eqn:Hl; [|done].
  apply bind_Return in H as (dbg & s0 & [= <- <-] & H).
  apply bind_Return in H as ([] & sa & Ha & H).
  apply bind_Return in H as ([] & sb & Hb & H).
  apply bind_Return in H as (v1 & sc & Hc & H).
  apply bind_Return in H as (v2 & sd & Hd & H).
  apply bind_Return in H as (v3 & se & He & H).
  apply bind_Return in H as (v4 & sf & Hf & H).
  apply bind_Return in H as ([] & sg & Hg & H).
  apply bind_Return in H as ([] & sh & Hh & H).
  injection H as <- <- <- <- <-.
  apply read_Return in Hc as (e1 & Hc1 & Hc2 & Hc3 & Hc4 & Hc5 & Hc6).
  apply read_Return in Hd as (e2 & Hd1 & Hd2 & Hd3 & Hd4 & Hd5 & Hd6).
  apply read_Return in He as (e3 & He1 & He2 & He3 & He4 & He5 & He6).
  apply read_Return in Hf as (e4 & Hf1 & Hf2 & Hf3 & Hf4 & Hf5 & Hf6).
  injection Hg as <-. injection Hb as <-.
  exists sexp, e1, e2, e3, e4.
  assert (sa = if debug s then log_event (IoPrint (VStr sexp) "
") s else s) as -> by (destruct (debug s); by injection Ha).
  assert (events sh = events sf ++ output_echo plo v4 ∧ package sh = v1
          ∧ classes sh = classes sf ∧ class_heap sh = class_heap sf
          ∧ debug sh = debug sf ∧ stdout sh = stdout sf) as (Hh1&Hh2&Hh3&Hh4&Hh5&Hh6).
  { destruct plo; injection Hh as <-; simpl; by rewrite ?app_nil_r. }
  split; [done|]. split.
  { rewrite Hh6, <- Hf1, <- He1, <- Hd1, <- Hc1. by destruct (debug s). }
  split.
  { rewrite Hh1, Hf2, He2, Hd2, Hc2. unfold debug_echo.
    destruct (debug s); simpl; by rewrite <- ?app_assoc. }
  split; [done|].
  rewrite Hh3, Hh4, Hh5, Hf4, Hf5, Hf6, He4, He5, He6, Hd4, Hd5, Hd6, Hc4, Hc5, Hc6.
  by destruct (debug s) eqn:Hdbg.
Qed.

(** ** Building respected relations from the primitive state changes *)

Lemma read_aux_keeps R :
  (∀ s, R s s) → (∀ a b c, R a b → R b c → R a c) →
  (∀ cls h, keeps R (read_object cls h)) →
  ∀ e, keeps R (read_aux e).
Proof.
  intros Hrefl Htrans Hobj e.
  induction e; simpl;
    try (by apply keeps_ret); try (by apply keeps_raise); [|apply Hobj].
  apply (keeps_bind R Htrans); [done|intros va].
  apply (keeps_bind R Htrans); [done|intros vd]. by apply keeps_ret.
Qed.

Lemma read_keeps R :
  (∀ s, R s s) → (∀ a b c, R a b → R b c → R a c) →
  (∀ s ev, R s (log_event ev s)) →
  (∀ s e rest, stdout s = e :: rest → R s (with_stdout rest s)) →
  (∀ cls h, keeps R (read_object cls h)) →
  keeps R read.
Proof.
  intros Hrefl Htrans Hlog Htake Hobj s. unfold read.
  destruct (stdout s) as [|e rest] eqn:Hs; [apply Hrefl|].
  pose proof (read_aux_keeps R Hrefl Htrans Hobj e (with_stdout rest s)) as Haux.
  destruct (read_aux e (with_stdout rest s)) as [v s1|x s1|]; [| |done].
  - eapply Htrans; [by eapply Htake|]. eapply Htrans; [apply Haux|apply Hlog].
  - eapply Htrans; [by eapply Htake|apply Haux].
Qed.

Lemma exchange_keeps R :
  (∀ s, R s s) → (∀ a b c, R a b → R b c → R a c) →
  (∀ s ev, R s (log_event ev s)) →
  (∀ s p, R s (with_package p s)) →
  keeps R read →
  ∀ expr plo, keeps R (exchange expr plo).
Proof.
  intros Hrefl Htrans Hlog Hpkg Hread expr plo.
  pose proof (@keeps_bind R Htrans) as Hbind.
  assert (∀ v f, keeps R (print v f)) as Hprint by (intros v f s; apply Hlog).
  unfold exchange.
  apply Hbind; [by apply keeps_get|intros self].
  destruct (lispify self expr) as [sexp|]; [|by apply keeps_raise].
  apply Hbind; [by apply keeps_get|intros dbg].
  apply Hbind; [destruct dbg; [apply Hprint|by apply keeps_ret]|intros _].
  apply Hbind; [intros s; apply Hlog|intros _].
  do 4 (apply Hbind; [apply Hread|intros ?]).
  apply Hbind; [intros s; apply Hpkg|intros _].
  apply Hbind; [destruct plo; [apply Hprint|by apply keeps_ret]|intros _].
  by apply keeps_ret.
Qed.

Lemma respected_intro R :
  (∀ s, R s s) → (∀ a b c, R a b → R b c → R a c) →
  (∀ s ev, R s (log_event ev s)) →
  (∀ s e rest, stdout s = e :: rest → R s (with_stdout rest s)) →
  (∀ cls h, keeps R (read_object cls h)) →
  (∀ s p, R s (with_package p s)) →
  (∀ s x, R s (with_class_heap (class_heap s ++ [x]) s)) →
  (∀ s k c, R s (with_classes (<[k := c]> (classes s)) s)) →
  (∀ s, R s (with_unpatched [] s)) →
  (∀ s f c, R s (with_class_heap (alter f c (class_heap s)) s)) →
  (∀ s c i, R s (with_obj_class (<[i := Synth c]> (obj_class s)) s)) →
  respected R.
Proof.
  intros Hrefl Htrans Hlog Htake Hobj Hpkg Hnew Hcache Hclear Hset Hcls.
  split; try done.
  - apply exchange_keeps; try done. by apply read_keeps.
  - intros n b d s. apply Hnew.
  - intros k c s. apply Hcache.
  - intros c a m s. apply Hset.
  - intros c i s. apply Hcls.
Qed.

(** The log only grows. *)
Lemma log_extends_respected : respected log_extends.
Proof.
  apply respected_intro; unfold log_extends; try done.
  - intros a b c. apply transitivity.
  - intros s ev. simpl. by apply prefix_app_r.
  - intros cls h s. unfold read_object. by destruct (classes s !! cls).
Qed.

(** The inbound stream only shrinks, and the class heap and the
    instance counter only grow. *)
Lemma monotone_respected : respected monotone.
Proof.
  apply respected_intro; unfold monotone; simpl; try (intros; lia).
  - intros s e rest ->. simpl. lia.
  - intros cls h s. unfold read_object.
    destruct (classes s !! cls); simpl; lia.
  - intros s x. rewrite length_app. simpl. lia.
  - intros s f c. rewrite length_alter. lia.
Qed.

(** ** The exchange succeeds on a complete frame *)

Lemma read_aux_readable e st :
  readable e = true → ∃ v st', read_aux e st = Return v st'.
Proof.
  revert st. induction e; intros st Hr; simpl in *; try done;
    try (by eexists _, _).
  - apply andb_true_iff in Hr as [Ha Hd].
    destruct (IHe1 st Ha) as (va & sa & Hva).
    destruct (IHe2 sa Hd) as (vd & sd & Hvd).
    exists (VCons va vd), sd. unfold bind. by rewrite Hva, Hvd.
  - unfold read_object. destruct (classes st !! cls); by eexists _, _.
Qed.

Lemma read_readable s e rest :
  stdout s = e :: rest → readable e = true →
  ∃ v s', read s = Return v s' ∧ stdout s' = rest.
Proof.
  intros Hs Hr. unfold read. rewrite Hs.
  destruct (read_aux_readable e (with_stdout rest s) Hr) as (v & s' & Hv).
  pose proof (read_aux_frame e (with_stdout rest s)) as Hf.
  rewrite Hv in *. exists v, (log_event (IoRead e v) s'). split; [done|].
  simpl. apply Hf.
Qed.

Lemma exchange_unfold expr plo s :
  exchange expr plo s =
  match lispify s expr with
  | None => Raise WriterError s
  | Some sexp =>
      (let! pkg := read in
       let! val := read in
       let! err := read in
       let! output := read in
       do! modify (with_package pkg) in
       do! (if plo then print output EmptyString else ret tt) in
       ret (pkg, val, err, output))
        (log_event (IoWrite (sexp +:+ "
")) (if debug s then log_event (IoPrint (VStr sexp) "
") s else s))
  end.
Proof.
  unfold exchange. unfold bind at 1. simpl. unfold id.
  destruct (lispify s expr); [|done].
  unfold bind at 1. simpl. by destruct (debug s).
Qed.

Lemma exchange_complete expr plo s sexp e1 e2 e3 e4 rest :
  lispify s expr = Some sexp →
  stdout s = e1 :: e2 :: e3 :: e4 :: rest →
  readable e1 && readable e2 && readable e3 && readable e4 = true →
  ∃ frame s1, exchange expr plo s = Return frame s1.
Proof.
  intros Hl Hs Hr.
  apply andb_true_iff in Hr as [Hr H4].
  apply andb_true_iff in Hr as [Hr H3].
  apply andb_true_iff in Hr as [H1 H2].
  rewrite exchange_unfold, Hl.
  set (s0 := log_event _ _).
  assert (stdout s0 = e1 :: e2 :: e3 :: e4 :: rest) as Hs0
    by (subst s0; by destruct (debug s)).
  destruct (read_readable _ _ _ Hs0 H1) as (v1 & sa & Ha & Hsa).
  destruct (read_readable _ _ _ Hsa H2) as (v2 & sb & Hb & Hsb).
  destruct (read_readable _ _ _ Hsb H3) as (v3 & sc & Hc & Hsc).
  destruct (read_readable _ _ _ Hsc H4) as (v4 & sd & Hd & Hsd).
  rewrite (bind_of_Return _ _ _ _ _ Ha), (bind_of_Return _ _ _ _ _ Hb),
    (bind_of_Return _ _ _ _ _ Hc), (bind_of_Return _ _ _ _ _ Hd).
  destruct plo; by eexists _, _.
Qed.

(** ** Unfolding one evaluation call *)

Lemma eval_after_exchange fuel expr rlo plo s pkg val err output s1 :
  exchange expr plo s = Return (pkg, val, err, output) s1 →
  eval (S fuel) expr rlo plo s =
  (if is_Cons err then raise_condition err
   else do! patch_unpatched (eval fuel) in return_values rlo val output) s1.
Proof. intros H. simpl. unfold bind at 1. by rewrite H. Qed.

Lemma eval_condition_case fuel expr rlo plo s pkg val TYPE rest output s1 :
  exchange expr plo s = Return (pkg, val, VCons TYPE rest, output) s1 →
  eval (S fuel) expr rlo plo s = raise_condition (VCons TYPE rest) s1.
Proof. apply eval_after_exchange. Qed.

Lemma eval_success_case fuel expr rlo plo s pkg val err output s1 :
  exchange expr plo s = Return (pkg, val, err, output) s1 →
  is_Cons err = false →
  eval (S fuel) expr rlo plo s =
  (do! patch_unpatched (eval fuel) in return_values rlo val output) s1.
Proof.
  intros H Herr. rewrite (eval_after_exchange _ _ _ _ _ _ _ _ _ _ H).
  by rewrite Herr.
Qed.

Lemma cons_items_list_to_cons l : cons_items (list_to_cons l) = l.
Proof. induction l as [|x l IH]; simpl; [done|by rewrite IH]. Qed.

Lemma return_values_nil rlo output s :
  return_values rlo nil_value output s = Return (pair_output rlo VNone output) s.
Proof. by destruct rlo. Qed.

Lemma return_values_one rlo a output s :
  return_values rlo (list_to_cons [a]) output s
  = Return (pair_output rlo a output) s.
Proof. by destruct rlo. Qed.

Lemma return_values_many rlo a b l output s :
  return_values rlo (list_to_cons (a :: b :: l)) output s
  = Return (pair_output rlo (VTuple (a :: b :: l)) output) s.
Proof.
  destruct rlo; simpl; unfold bind; simpl; by rewrite cons_items_list_to_cons.
Qed.

Lemma eval_success_values fuel expr rlo plo s pkg val output s1 s2 :
  exchange expr plo s = Return (pkg, val, nil_value, output) s1 →
  patch_unpatched (eval fuel) s1 = Return tt s2 →
  eval (S fuel) expr rlo plo s = return_values rlo val output s2.
Proof.
  intros Hex Hpatch.
  rewrite (eval_success_case _ _ _ _ _ _ _ _ _ _ Hex eq_refl).
  by rewrite (bind_of_Return _ _ _ _ _ Hpatch).
Qed.

(** C1: a call whose condition frame is the empty list and whose
    patching pass completes hands back [None] for the empty result list,
    the sole element for a one-element list, and the tuple of the
    elements, in order, for a list of two or more; with
    [return_lisp_output] this value is the first component of the pair. *)
Theorem eval_result_values fuel expr rlo plo s pkg val output s1 s2 :
  exchange expr plo s = Return (pkg, val, nil_value, output) s1 →
  patch_unpatched (eval fuel) s1 = Return tt s2 →
  (val = nil_value →
     eval (S fuel) expr rlo plo s = Return (pair_output rlo VNone output) s2) ∧
  (∀ a, val = list_to_cons [a] →
     eval (S fuel) expr rlo plo s = Return (pair_output rlo a output) s2) ∧
  (∀ a b l, val = list_to_cons (a :: b :: l) →
     eval (S fuel) expr rlo plo s
     = Return (pair_output rlo (VTuple (a :: b :: l)) output) s2).
Proof.
  intros Hex Hpatch. rewrite (eval_success_values _ _ _ _ _ _ _ _ _ _ Hex Hpatch).
  split; [|split].
  - intros ->. apply return_values_nil.
  - intros a ->. apply return_values_one.
  - intros a b l ->. apply return_values_many.
Qed.

(** ** The budget is enough *)

Lemma total_bind {A B} (m : M A) (k : A → M B) :
  total m → (∀ a, total (k a)) → total (bind m k).
Proof.
  intros Hm Hk s. unfold bind. specialize (Hm s).
  destruct (m s); [apply Hk|done|done].
Qed.

Lemma total_for_each {A} (l : list A) (body : A → M unit) :
  (∀ x, total (body x)) → total (for_each l body).
Proof.
  intros Hb. induction l; simpl; [done|]. apply total_bind; auto.
Qed.

Lemma total_attr_car v : total (attr_car v).
Proof. by destruct v. Qed.

Lemma total_attr_cdr v : total (attr_cdr v).
Proof. by destruct v. Qed.

Lemma total_read_aux e : total (read_aux e).
Proof.
  induction e; simpl; try done.
  - apply total_bind; [done|intros va].
    apply total_bind; [done|intros vd]. done.
  - intros s. unfold read_object. by destruct (classes s !! cls).
Qed.

Lemma total_read : total read.
Proof.
  intros s. unfold read. destruct (stdout s) as [|e rest]; [done|].
  pose proof (total_read_aux e (with_stdout rest s)).
  by destruct (read_aux e (with_stdout rest s)).
Qed.

Lemma total_exchange expr plo : total (exchange expr plo).
Proof.
  intros s. rewrite exchange_unfold. destruct (lispify s expr); [|done].
  revert s. intros s.
  assert (total (let! pkg := read in
       let! val := read in
       let! err := read in
       let! output := read in
       do! modify (with_package pkg) in
       do! (if plo then print output EmptyString else ret tt) in
       ret (pkg, val, err, output))) as Ht; [|apply Ht].
  do 4 (apply total_bind; [apply total_read|intros ?]).
  apply total_bind; [done|intros _].
  apply total_bind; [by destruct plo|intros _]. done.
Qed.

Lemma total_raise_condition err : total (raise_condition err).
Proof.
  intros s. unfold raise_condition, bind.
  destruct err; simpl; try done.
  destruct (truthy err2); [destruct err2|]; done.
Qed.

Lemma total_return_values rlo val output : total (return_values rlo val output).
Proof.
  unfold return_values.
  destruct rlo, (eq_nil val); try done;
    (apply total_bind; [apply total_attr_cdr|intros d]);
    destruct (eq_nil d); try done; try apply total_attr_car.
  apply total_bind; [apply total_attr_car|done].
Qed.

Lemma terminates_below_total {A} n (m : M A) : total m → terminates_below n m.
Proof. intros H s _. apply H. Qed.

Lemma terminates_below_bind {A B} n (m : M A) (k : A → M B) :
  terminates_below n m → keeps monotone m →
  (∀ a, terminates_below n (k a)) → terminates_below n (bind m k).
Proof.
  intros Hm Hmono Hk s Hlen. unfold bind.
  specialize (Hm s Hlen). specialize (Hmono s).
  destruct (m s) as [a s1|e s1|]; [|done|done].
  apply Hk. destruct Hmono as (?&_). lia.
Qed.

Lemma terminates_below_for_each {A} n (l : list A) (body : A → M unit) :
  (∀ x, terminates_below n (body x)) → (∀ x, keeps monotone (body x)) →
  terminates_below n (for_each l body).
Proof.
  intros Hb Hmono. induction l; simpl; [by apply terminates_below_total|].
  apply terminates_below_bind; auto.
Qed.

Lemma monotone_refl s : monotone s s.
Proof. apply monotone_respected. Qed.

Lemma monotone_trans a b c : monotone a b → monotone b c → monotone a c.
Proof. apply monotone_respected. Qed.

Lemma patch_unpatched_terminates n (ev : value → bool → bool → M value) :
  (∀ e a b, terminates_below n (ev e a b)) →
  (∀ e a b, keeps monotone (ev e a b)) →
  terminates_below n (patch_unpatched ev).
Proof.
  intros Hev Hmono.
  pose proof monotone_respected as HR.
  pose proof (@keeps_bind monotone monotone_trans) as Hbind.
  unfold patch_unpatched.
  apply terminates_below_bind;
    [by apply terminates_below_total|by apply keeps_get, monotone_refl|].
  intros items.
  apply terminates_below_bind;
    [by apply terminates_below_total|apply HR|intros _].
  assert (∀ f args, keeps monotone (call ev f args)) as Hcall.
  { intros f args. unfold call.
    destruct f; first [apply keeps_raise, monotone_refl | apply Hmono]. }
  assert (∀ cls conses, keeps monotone (for_each conses (λ cons,
        let! nm := attr_car cons in
        let! gf := attr_cdr cons in
        add_member_function cls nm gf))) as Hmembers.
  { intros cls conses.
    apply keeps_for_each; [apply monotone_refl|apply monotone_trans|].
    intros cons.
    apply Hbind; [apply keeps_attr_car, monotone_refl|intros nm].
    apply Hbind; [apply keeps_attr_cdr, monotone_refl|intros gf].
    unfold add_member_function.
    destruct nm; first [apply keeps_raise, monotone_refl | apply HR]. }
  apply terminates_below_for_each.
  - intros [cls_nm instances]. unfold patch_class, function_of.
    apply terminates_below_bind;
      [by apply terminates_below_total|apply HR|intros cls].
    apply terminates_below_bind;
      [by apply terminates_below_total|apply HR|intros _].
    apply terminates_below_bind; [apply Hev|apply Hmono|intros f].
    apply terminates_below_bind; [|apply Hcall|intros alist].
    { unfold call. destruct f; first [by apply terminates_below_total | apply Hev]. }
    apply terminates_below_total.
    apply total_bind; [by destruct alist|intros conses].
    apply total_bind; [|intros _; by apply total_for_each].
    apply total_for_each. intros cons.
    apply total_bind; [apply total_attr_car|intros nm].
    apply total_bind; [apply total_attr_cdr|intros gf]. by destruct nm.
  - intros [cls_nm instances]. unfold patch_class, function_of.
    apply Hbind; [apply HR|intros cls].
    apply Hbind; [apply HR|intros _].
    apply Hbind; [apply Hmono|intros f].
    apply Hbind; [apply Hcall|intros alist].
    apply Hbind; [apply keeps_py_iter, monotone_refl|intros conses].
    apply Hbind; [apply Hmembers|intros _].
    apply keeps_for_each; [apply monotone_refl|apply monotone_trans|].
    intros i. apply HR.
Qed.

(** A budget above the number of inbound expressions is never
    exhausted. *)
Lemma eval_terminates fuel expr rlo plo :
  terminates_below fuel (eval fuel expr rlo plo).
Proof.
  revert expr rlo plo. induction fuel as [|fuel IH]; intros expr rlo plo s Hlen.
  - lia.
  - simpl. unfold bind at 1.
    pose proof (total_exchange expr plo s) as Htot.
    destruct (exchange expr plo s) as [[[[pkg val] err] output] s1|e s1|] eqn:Hex;
      [|done|done].
    apply exchange_Return in Hex as (?&?&?&?&?&_&Hs&_).
    rewrite Hs in Hlen. simpl in Hlen.
    destruct (is_Cons err); [apply total_raise_condition|].
    apply (terminates_below_bind fuel).
    + apply patch_unpatched_terminates; [done|].
      intros e a b. apply eval_keeps, monotone_respected.
    + apply patch_unpatched_keeps; [apply monotone_respected|].
      intros e a b. apply eval_keeps, monotone_respected.
    + intros _. apply terminates_below_total, total_return_values.
    + lia.
Qed.

(** The evaluation call always returns or raises. *)
Lemma Lisp_eval_total expr rlo plo : total (Lisp_eval expr rlo plo).
Proof. intros s. apply eval_terminates. lia. Qed.

(** ** Engine conditions *)



Lemma raise_condition_instance TYPE rest s c args s' :
  raise_condition (VCons TYPE rest) s = Raise (ExcInstance c args) s' →
  ∃ msg, c = length (class_heap s) ∧ args = [msg] ∧
         s' = with_class_heap (class_heap s ++ [condition_class TYPE msg]) s.
Proof.
  unfold raise_condition, bind. simpl.
  destruct (truthy rest).
  - destruct rest; simpl; try done. intros [= <- <- <-]. eauto.
  - simpl. intros [= <- <- <-]. eauto.
Qed.

(** Raising a condition touches nothing but the class heap. *)
Lemma raise_condition_raises err s :
  ∃ e s', raise_condition err s = Raise e s' ∧
          events s' = events s ∧ stdout s' = stdout s ∧
          package s' = package s ∧ classes s' = classes s ∧
          unpatched_instances s' = unpatched_instances s ∧
          obj_class s' = obj_class s ∧ next_ref s' = next_ref s.
Proof.
  unfold raise_condition, bind.
  destruct err; simpl; try by eexists _, _.
  destruct (truthy err2); [destruct err2|]; simpl; by eexists _, _.
Qed.


(** C9: the exception raised for a condition is an instance of a class
    that did not exist before the call, whose base is [RuntimeError] and
    whose name is the rendering of the condition type; a later condition
    of the same type raises an instance of another class object, again a
    subclass of [RuntimeError] with that name. *)
Theorem condition_class_fresh fuel expr rlo plo s pkg val output s1 TYPE rest
    c1 a1 s' :
  exchange expr plo s = Return (pkg, val, VCons TYPE rest, output) s1 →
  eval (S fuel) expr rlo plo s = Raise (ExcInstance c1 a1) s' →
  class_heap s !! c1 = None ∧
  (∃ msg, a1 = [msg] ∧ class_heap s' !! c1 = Some (condition_class TYPE msg)) ∧
  (∀ fuel2 expr2 rlo2 plo2 t pkg2 val2 output2 t1 rest2 c2 a2 t',
     (length (class_heap s') ≤ length (class_heap t))%nat →
     exchange expr2 plo2 t = Return (pkg2, val2, VCons TYPE rest2, output2) t1 →
     eval (S fuel2) expr2 rlo2 plo2 t = Raise (ExcInstance c2 a2) t' →
     c2 ≠ c1 ∧
     ∃ msg2, a2 = [msg2] ∧
             class_heap t' !! c2 = Some (condition_class TYPE msg2) ∧
             cls_base (condition_class TYPE msg2) = RuntimeError ∧
             cls_name (condition_class TYPE msg2) = py_str TYPE).
Proof.
  intros Hex H1.
  rewrite (eval_condition_case _ _ _ _ _ _ _ _ _ _ _ Hex) in H1.
  apply raise_condition_instance in H1 as (m1 & -> & -> & ->).
  apply exchange_Return in Hex as (?&?&?&?&?&_&_&_&_&_&Hheap&_).
  split; [|split].
  - rewrite Hheap. by apply lookup_ge_None_2.
  - exists m1. split; [done|]. simpl.
    by rewrite lookup_app_r, Nat.sub_diag.
  - intros fuel2 expr2 rlo2 plo2 t pkg2 val2 output2 t1 rest2 c2 a2 t' Hle Hex2 H2.
    rewrite (eval_condition_case _ _ _ _ _ _ _ _ _ _ _ Hex2) in H2.
    apply raise_condition_instance in H2 as (m2 & -> & -> & ->).
    apply exchange_Return in Hex2 as (?&?&?&?&?&_&_&_&_&_&Hheap2&_).
    simpl in *. rewrite length_app in Hle. simpl in Hle.
    split; [rewrite Hheap2; lia|]. exists m2.
    by rewrite lookup_app_r, Nat.sub_diag.
Qed.

(** ** Framing *)

Lemma with_unpatched_same s :
  unpatched_instances s = [] → with_unpatched [] s = s.
Proof. destruct s. simpl. by intros ->. Qed.

Lemma patch_unpatched_nothing ev s :
  unpatched_instances s = [] → patch_unpatched ev s = Return tt s.
Proof.
  intros H. unfold patch_unpatched, bind, get, modify. simpl.
  rewrite H. simpl. unfold ret. by rewrite with_unpatched_same.
Qed.

Lemma return_values_state rlo val output : keeps eq (return_values rlo val output).
Proof. apply keeps_return_values; [done|]. intros a b c. apply eq_trans. Qed.

(** ** Namespace tracking *)

Lemma current_frame_app evs evs' :
  current_frame (evs ++ evs') = fold_left frame_step evs' (current_frame evs).
Proof. unfold current_frame. apply fold_left_app. Qed.

Lemma frame_complete_same s s' :
  events s' = events s → package s' = package s →
  frame_complete s → frame_complete s'.
Proof. unfold frame_complete. intros -> ->. done. Qed.

Lemma exchange_frame_complete expr plo s pkg val err output s1 :
  exchange expr plo s = Return (pkg, val, err, output) s1 → frame_complete s1.
Proof.
  intros H. apply exchange_Return in H as (sexp&e1&e2&e3&e4&_&_&Hlog&Hpkg&_).
  exists pkg, val, err, output. split; [|done].
  rewrite Hlog, app_assoc, current_frame_app. simpl.
  unfold output_echo. by destruct plo.
Qed.

Lemma read_aux_no_instance e s x s' c a :
  read_aux e s = Raise x s' → x ≠ ExcInstance c a.
Proof.
  revert s. induction e; intros st; simpl; try done.
  - intros H. apply bind_Raise in H as [H|(va & s1 & _ & H)]; [by eapply IHe1|].
    apply bind_Raise in H as [H|(vd & s2 & _ & H)]; [by eapply IHe2|done].
  - unfold read_object. by destruct (classes st !! cls).
  - by intros [= <- _].
Qed.

Lemma read_no_instance s x s' c a : read s = Raise x s' → x ≠ ExcInstance c a.
Proof.
  unfold read. destruct (stdout s) as [|e rest]; [by intros [= <- _]|].
  destruct (read_aux e (with_stdout rest s)) eqn:H; try done.
  intros [= <- <-]. by eapply read_aux_no_instance.
Qed.

Lemma exchange_no_instance expr plo s x s' c a :
  exchange expr plo s = Raise x s' → x ≠ ExcInstance c a.
Proof.
  rewrite exchange_unfold. destruct (lispify s expr); [|by intros [= <- _]].
  intros H.
  do 4 (apply bind_Raise in H as [H|(? & ? & _ & H)];
        [by eapply read_no_instance|]).
  apply bind_Raise in H as [H|(? & ? & _ & H)]; [done|].
  apply bind_Raise in H as [H|(? & ? & _ & H)]; [by destruct plo|done].
Qed.

Section Maintains.
Variable Q : Lisp → Prop.

Lemma maintains_of_settles {A} (m : M A) : settles Q m → maintains Q m.
Proof. intros H s _. apply H. Qed.

Lemma maintains_bind {A B} (m : M A) (k : A → M B) :
  maintains Q m → (∀ a, maintains Q (k a)) → maintains Q (bind m k).
Proof.
  intros Hm Hk s HQ. unfold bind. specialize (Hm s HQ).
  destruct (m s) as [a s1|e s1|]; [by apply Hk|done|done].
Qed.

Lemma maintains_for_each {A} (l : list A) (body : A → M unit) :
  (∀ x, maintains Q (body x)) → maintains Q (for_each l body).
Proof.
  intros Hb. induction l; simpl; [by intros s|].
  apply maintains_bind; auto.
Qed.

Lemma maintains_pure {A} (m : M A) :
  (∀ s, match m s with
        | Return _ s' | Raise _ s' => s' = s
        | OutOfFuel => True
        end) → maintains Q m.
Proof.
  intros H s HQ. specialize (H s).
  destruct (m s) as [a s1|e s1|]; [by subst|destruct e; by subst|done].
Qed.
End Maintains.

Lemma attr_car_pure v : keeps eq (attr_car v).
Proof. by destruct v. Qed.

Lemma attr_cdr_pure v : keeps eq (attr_cdr v).
Proof. by destruct v. Qed.

Lemma py_iter_pure v : keeps eq (py_iter v).
Proof. by destruct v. Qed.

Lemma keeps_eq_pure {A} (m : M A) :
  keeps eq m →
  ∀ s, match m s with
       | Return _ s' | Raise _ s' => s' = s
       | OutOfFuel => True
       end.
Proof.
  intros H s. specialize (H s). by destruct (m s).
Qed.

(** The patching pass maintains a property of the log and the package
    that every evaluation call it makes settles. *)
Lemma patch_unpatched_maintains (Q : Lisp → Prop)
    (ev : value → bool → bool → M value) :
  (∀ s s', events s' = events s → package s' = package s → Q s → Q s') →
  (∀ e a b, settles Q (ev e a b)) →
  maintains Q (patch_unpatched ev).
Proof.
  intros HQ Hev.
  assert (∀ (f : Lisp → Lisp),
            (∀ s, events (f s) = events s ∧ package (f s) = package s) →
            maintains Q (modify f)) as Hmod.
  { intros f Hf s Hs. simpl. destruct (Hf s). by eapply HQ. }
  unfold patch_unpatched.
  apply maintains_bind; [by intros s|intros items].
  apply maintains_bind; [by apply Hmod|intros _].
  apply maintains_for_each. intros [cls_nm instances]. unfold patch_class, function_of.
  apply maintains_bind; [|intros cls].
  { intros s Hs. unfold new_type. eapply HQ; [| |exact Hs]; done. }
  apply maintains_bind; [by apply Hmod|intros _].
  apply maintains_bind; [apply maintains_of_settles, Hev|intros f].
  apply maintains_bind; [|intros alist].
  { unfold call.
    destruct f; first [intros ? _; exact I | apply maintains_of_settles, Hev]. }
  apply maintains_bind; [apply maintains_pure, keeps_eq_pure, py_iter_pure|].
  intros conses.
  apply maintains_bind; [|intros _].
  { apply maintains_for_each. intros cons.
    apply maintains_bind; [apply maintains_pure, keeps_eq_pure, attr_car_pure|].
    intros nm.
    apply maintains_bind; [apply maintains_pure, keeps_eq_pure, attr_cdr_pure|].
    intros gf. unfold add_member_function.
    destruct nm; first [intros ? _; exact I | by apply Hmod]. }
  apply maintains_for_each. intros i. by apply Hmod.
Qed.

Lemma eval_settles_frame fuel expr rlo plo :
  settles frame_complete (eval fuel expr rlo plo).
Proof.
  revert expr rlo plo. induction fuel as [|fuel IH]; intros expr rlo plo s.
  - done.
  - simpl. unfold bind at 1.
    destruct (exchange expr plo s) as [[[[pkg val] err] output] s1|x s1|] eqn:Hex;
      [| |done].
    2:{ destruct x; try done. by eapply exchange_no_instance in Hex. }
    apply exchange_frame_complete in Hex.
    destruct (is_Cons err).
    + destruct (raise_condition_raises err s1) as (x & s2 & -> & Hevs & _ & Hp & _).
      destruct x; try done. by eapply frame_complete_same.
    + assert (maintains frame_complete
                (do! patch_unpatched (eval fuel) in return_values rlo val output))
        as Hm; [|by apply Hm].
      apply maintains_bind.
      * apply patch_unpatched_maintains; [|done].
        intros a b Ha Hb. by apply frame_complete_same.
      * intros _. apply maintains_pure, keeps_eq_pure, return_values_state.
Qed.

(** ** The traffic of the patching pass *)

Lemma framed_since_refl s : framed_since s s.
Proof. exists []. simpl. by rewrite app_nil_r. Qed.

Lemma framed_since_same s0 s s' :
  events s' = events s → framed_since s0 s → framed_since s0 s'.
Proof. intros He (nested & Hn & Hall). exists nested. by rewrite He. Qed.

Lemma nested_frames_count nested :
  Forall nested_frame nested →
  length (writes (concat nested)) = length nested ∧
  length (reads (concat nested)) = (4 * length nested)%nat.
Proof.
  induction 1 as [|evs nested Hevs _ [IHw IHr]]; [done|].
  destruct Hevs as (dbg & sexp & e1 & v1 & e2 & v2 & e3 & v3 & e4 & v4 & ->).
  unfold writes, reads in *. simpl. rewrite !omap_app, !length_app, IHw, IHr.
  destruct dbg; simpl; lia.
Qed.

Lemma patch_unpatched_maintains_quiet (Q : Lisp → Prop)
    (ev : value → bool → bool → M value) :
  (∀ s s', events s' = events s → Q s → Q s') →
  (∀ e, maintains Q (ev e false false)) →
  maintains Q (patch_unpatched ev).
Proof.
  intros HQ Hev.
  assert (∀ (f : Lisp → Lisp),
            (∀ s, events (f s) = events s) → maintains Q (modify f)) as Hmod.
  { intros f Hf s Hs. simpl. eapply HQ; [apply Hf|exact Hs]. }
  unfold patch_unpatched.
  apply maintains_bind; [by intros s|intros items].
  apply maintains_bind; [by apply Hmod|intros _].
  apply maintains_for_each. intros [cls_nm instances]. unfold patch_class, function_of.
  apply maintains_bind; [|intros cls].
  { intros s Hs. unfold new_type. eapply HQ; [|exact Hs]; done. }
  apply maintains_bind; [by apply Hmod|intros _].
  apply maintains_bind; [apply Hev|intros f].
  apply maintains_bind; [|intros alist].
  { unfold call. destruct f; first [intros ? _; exact I | apply Hev]. }
  apply maintains_bind; [apply maintains_pure, keeps_eq_pure, py_iter_pure|].
  intros conses.
  apply maintains_bind; [|intros _].
  { apply maintains_for_each. intros cons.
    apply maintains_bind; [apply maintains_pure, keeps_eq_pure, attr_car_pure|].
    intros nm.
    apply maintains_bind; [apply maintains_pure, keeps_eq_pure, attr_cdr_pure|].
    intros gf. unfold add_member_function.
    destruct nm; first [intros ? _; exact I | by apply Hmod]. }
  apply maintains_for_each. intros i. by apply Hmod.
Qed.

(** An evaluation call with [print_lisp_output] off that returns or
    raises the exception of an engine condition adds whole frames to the
    log, its own and those of the calls of its patching pass. *)
Lemma eval_maintains_framed s0 fuel expr rlo :
  maintains (framed_since s0) (eval fuel expr rlo false).
Proof.
  revert expr rlo. induction fuel as [|fuel IH]; intros expr rlo s Hs; [done|].
  simpl. unfold bind at 1.
  destruct (exchange expr false s) as [[[[pkg val] err] output] s1|x s1|] eqn:Hex;
    [| |done].
  2:{ destruct x; try done. by eapply exchange_no_instance in Hex. }
  apply exchange_Return in Hex as (sexp&e1&e2&e3&e4&_&_&Hlog&_).
  assert (framed_since s0 s1) as Hs1.
  { destruct Hs as (nested & Hn & Hall).
    exists (nested ++ [debug_echo s sexp ++
                       [IoWrite (sexp +:+ "
"); IoRead e1 pkg; IoRead e2 val; IoRead e3 err; IoRead e4 output]]).
    split.
    - rewrite Hlog, Hn, concat_app. simpl. unfold output_echo.
      by rewrite !app_nil_r, <- !app_assoc.
    - apply Forall_app. split; [done|]. apply Forall_singleton.
      by exists (debug s), sexp, e1, pkg, e2, val, e3, err, e4, output. }
  destruct (is_Cons err).
  - destruct (raise_condition_raises err s1) as (x & s2 & -> & Hevs & _).
    destruct x; try done. by eapply framed_since_same.
  - assert (maintains (framed_since s0)
              (do! patch_unpatched (eval fuel) in return_values rlo val output))
      as Hm; [|by apply Hm].
    apply maintains_bind.
    + apply patch_unpatched_maintains_quiet;
        [intros a b Ha; by apply framed_since_same|intros e; apply IH].
    + intros _. apply maintains_pure, keeps_eq_pure, return_values_state.
Qed.

(** What a call does after its own frame only adds the frames of the
    calls of the patching pass. *)
Lemma rest_maintains_framed s0 fuel rlo val err output :
  maintains (framed_since s0)
    (if is_Cons err then raise_condition err
     else do! patch_unpatched (eval fuel) in return_values rlo val output).
Proof.
  destruct (is_Cons err).
  - intros s Hs.
    destruct (raise_condition_raises err s) as (x & s2 & -> & Hevs & _).
    destruct x; try done. by eapply framed_since_same.
  - apply maintains_bind.
    + apply patch_unpatched_maintains_quiet;
        [intros a b Ha; by apply framed_since_same
        |intros e; apply eval_maintains_framed].
    + intros _. apply maintains_pure, keeps_eq_pure, return_values_state.
Qed.

(** C4: a call whose expression the writer accepts and whose inbound
    stream holds four readable expressions writes one line, the
    serialized expression followed by a newline, and then reads exactly
    those four expressions, which it takes in this order as namespace,
    result, condition and output text, whatever the result list is.
    There is no later traffic when the call raises the condition or has
    nothing to patch.  Otherwise all later traffic comes from the
    evaluation calls of the patching pass: when the call returns or
    raises the exception of an engine condition, the rest of its log is
    the logs of those calls one after the other, each one request line
    followed by four reads, so that with [n] such calls the call has
    written [1 + n] lines and read [4 * (1 + n)] expressions. *)
Theorem eval_framing fuel expr rlo plo s sexp e1 e2 e3 e4 rest :
  lispify s expr = Some sexp →
  stdout s = e1 :: e2 :: e3 :: e4 :: rest →
  readable e1 && readable e2 && readable e3 && readable e4 = true →
  ∃ pkg val err output s1,
    exchange expr plo s = Return (pkg, val, err, output) s1 ∧
    stdout s1 = rest ∧ package s1 = pkg ∧
    events s1 = events s ++ debug_echo s sexp ++
                [IoWrite (sexp +:+ "
"); IoRead e1 pkg; IoRead e2 val; IoRead e3 err; IoRead e4 output] ++
                output_echo plo output ∧
    stdin s1 = stdin s ++ [sexp +:+ "
"] ∧
    eval (S fuel) expr rlo plo s =
      (if is_Cons err then raise_condition err
       else do! patch_unpatched (eval fuel) in return_values rlo val output) s1 ∧
    ∀ s', final_state (eval (S fuel) expr rlo plo s) = Some s' →
          log_extends s1 s' ∧
          (is_Cons err = true ∨ unpatched_instances s1 = [] →
           events s' = events s1 ∧ stdout s' = rest) ∧
          ((∃ v, eval (S fuel) expr rlo plo s = Return v s') ∨
           (∃ c a, eval (S fuel) expr rlo plo s = Raise (ExcInstance c a) s') →
           ∃ nested,
             events s' = events s1 ++ concat nested ∧
             Forall nested_frame nested ∧
             length (stdin s') = (length (stdin s) + (1 + length nested))%nat ∧
             length (reads (events s'))
             = (length (reads (events s)) + 4 * (1 + length nested))%nat).
Proof.
  intros Hl Hs Hr.
  destruct (exchange_complete expr plo s sexp e1 e2 e3 e4 rest Hl Hs Hr)
    as ([[[pkg val] err] output] & s1 & Hex).
  pose proof (eval_after_exchange fuel _ rlo _ _ _ _ _ _ _ Hex) as Hev.
  exists pkg, val, err, output, s1.
  apply exchange_Return in Hex as Hinv.
  destruct Hinv as (sexp'&x1&x2&x3&x4&Hl'&Hs'&Hlog&Hpkg&_).
  rewrite Hl in Hl'. injection Hl' as <-.
  rewrite Hs in Hs'. injection Hs' as <- <- <- <- Hrest.
  split; [done|]. split; [done|]. split; [done|]. split; [done|].
  split.
  { unfold stdin, writes. rewrite Hlog, !omap_app. unfold debug_echo, output_echo.
    destruct (debug s), plo; simpl; by rewrite ?app_nil_r. }
  split; [done|].
  intros s' Hfin.
  assert ((∃ v, eval (S fuel) expr rlo plo s = Return v s') ∨
          (∃ c a, eval (S fuel) expr rlo plo s = Raise (ExcInstance c a) s') →
          ∃ nested,
            events s' = events s1 ++ concat nested ∧
            Forall nested_frame nested ∧
            length (stdin s') = (length (stdin s) + (1 + length nested))%nat ∧
            length (reads (events s'))
            = (length (reads (events s)) + 4 * (1 + length nested))%nat) as Hnested.
  { intros Hout.
    assert (framed_since s1 s') as (nested & Hn & Hall).
    { pose proof (rest_maintains_framed s1 fuel rlo val err output s1
                    (framed_since_refl s1)) as Hm.
      rewrite <- Hev in Hm.
      destruct Hout as [(v & Hv)|(c & a & Hc)];
        [by rewrite Hv in Hm|by rewrite Hc in Hm]. }
    exists nested. split; [done|]. split; [done|].
    destruct (nested_frames_count nested Hall) as [Hw Hr'].
    unfold stdin. rewrite Hn, Hlog.
    unfold writes, reads in *. rewrite !omap_app, !length_app, Hw, Hr'.
    unfold debug_echo, output_echo. destruct (debug s), plo; simpl; lia. }
  rewrite Hev in Hfin.
  destruct (is_Cons err) eqn:Herr.
  - destruct (raise_condition_raises err s1) as (x & s2 & Hraise & Hevs & Hout & _).
    rewrite Hraise in Hfin. injection Hfin as <-.
    split; [unfold log_extends; by rewrite Hevs|].
    split; [|exact Hnested].
    intros _. by rewrite Hevs, Hout.
  - split.
    + pose proof (keeps_bind log_extends (resp_trans _ log_extends_respected)
        (patch_unpatched (eval fuel)) (λ _, return_values rlo val output)) as Hk.
      specialize (Hk (patch_unpatched_keeps _ log_extends_respected _
                        (eval_keeps _ log_extends_respected fuel))).
      specialize (Hk (λ _, keeps_return_values _
                        (resp_refl _ log_extends_respected)
                        (resp_trans _ log_extends_respected) rlo val output) s1).
      destruct (bind _ _ s1); simpl in Hfin; by simplify_eq.
    + split; [|exact Hnested].
      intros [|Hnone]; [done|].
      rewrite (bind_of_Return _ _ _ _ _ (patch_unpatched_nothing _ _ Hnone)) in Hfin.
      pose proof (return_values_state rlo val output s1) as Hst.
      destruct (return_values rlo val output s1); simpl in Hfin; by simplify_eq.
Qed.

(** C5: once the four frame values have been read the recorded package
    is the first of them, and it is still so when the call ends by
    raising the condition or with nothing to patch; in every call that
    returns or raises the exception of an engine condition, the recorded
    package at the end is the first value of the frame read last. *)
Theorem package_after_eval fuel expr rlo plo s pkg val err output s1 :
  exchange expr plo s = Return (pkg, val, err, output) s1 →
  package s1 = pkg ∧
  (∀ s', final_state (eval (S fuel) expr rlo plo s) = Some s' →
         is_Cons err = true ∨ unpatched_instances s1 = [] →
         package s' = pkg) ∧
  (∀ s', (∃ v, eval (S fuel) expr rlo plo s = Return v s') ∨
         (∃ c a, eval (S fuel) expr rlo plo s = Raise (ExcInstance c a) s') →
         ∃ pkg' val' err' output',
           current_frame (events s') = [pkg'; val'; err'; output'] ∧
           package s' = pkg').
Proof.
  intros Hex.
  pose proof (eval_after_exchange fuel _ rlo _ _ _ _ _ _ _ Hex) as Hev.
  apply exchange_Return in Hex as Hinv.
  destruct Hinv as (sexp&e1&e2&e3&e4&_&_&_&Hpkg&_).
  split; [done|]. split.
  - intros s' Hfin Hcase. rewrite Hev in Hfin.
    destruct (is_Cons err) eqn:Herr.
    + destruct (raise_condition_raises err s1) as (x & s2 & Hr & _ & _ & Hp & _).
      rewrite Hr in Hfin. injection Hfin as <-. congruence.
    + destruct Hcase as [|Hnone]; [done|].
      rewrite (bind_of_Return _ _ _ _ _ (patch_unpatched_nothing _ _ Hnone)) in Hfin.
      pose proof (return_values_state rlo val output s1) as Hst.
      destruct (return_values rlo val output s1); simpl in Hfin; by simplify_eq.
  - intros s' Hout.
    pose proof (eval_settles_frame (S fuel) expr rlo plo s) as Hset.
    destruct Hout as [(v & Hv)|(c & a & Hc)].
    + by rewrite Hv in Hset.
    + by rewrite Hc in Hset.
Qed.

(** ** The reader and the wrapper instances *)

Lemma pending_register k i d s j :
  pending (with_unpatched (register k i d) s) j ↔
  pending (with_unpatched d s) j ∨ j = i.
Proof.
  unfold pending. simpl. induction d as [|[k' l] d IH]; simpl.
  - split.
    + intros (k0 & l0 & Hin & Hj). apply list_elem_of_singleton in Hin.
      injection Hin as -> ->. apply list_elem_of_singleton in Hj. by right.
    + intros [(k0 & l0 & Hin & _)| ->]; [by apply elem_of_nil in Hin|].
      exists k, [i]. split; apply list_elem_of_singleton; done.
  - destruct (decide (k' = k)) as [->|Hne].
    + split.
      * intros (k0 & l0 & Hin & Hj). apply elem_of_cons in Hin as [Heq|Hin].
        -- injection Heq as -> ->. apply elem_of_app in Hj as [Hj|Hj].
           ++ left. exists k, l. split; [apply elem_of_cons; by left|done].
           ++ apply list_elem_of_singleton in Hj. by right.
        -- left. exists k0, l0. split; [apply elem_of_cons; by right|done].
      * intros [(k0 & l0 & Hin & Hj)| ->].
        -- apply elem_of_cons in Hin as [Heq|Hin].
           ++ injection Heq as -> ->. exists k, (l ++ [i]).
              split; [apply elem_of_cons; by left|apply elem_of_app; by left].
           ++ exists k0, l0. split; [apply elem_of_cons; by right|done].
        -- exists k, (l ++ [i]).
           split; [apply elem_of_cons; by left|].
           apply elem_of_app. right. by apply list_elem_of_singleton.
    + split.
      * intros (k0 & l0 & Hin & Hj). apply elem_of_cons in Hin as [Heq|Hin].
        -- injection Heq as -> ->. left. exists k', l.
           split; [apply elem_of_cons; by left|done].
        -- destruct (proj1 IH) as [(k1 & l1 & Hin1 & Hj1)| ->]; [by eauto| |by right].
           left. exists k1, l1. split; [apply elem_of_cons; by right|done].
      * intros [(k0 & l0 & Hin & Hj)| ->].
        -- apply elem_of_cons in Hin as [Heq|Hin].
           ++ injection Heq as -> ->. exists k', l.
              split; [apply elem_of_cons; by left|done].
           ++ destruct (proj2 IH) as (k1 & l1 & Hin1 & Hj1); [left; by eauto|].
              exists k1, l1. split; [apply elem_of_cons; by right|done].
        -- destruct (proj2 IH) as (k1 & l1 & Hin1 & Hj1); [by right|].
           exists k1, l1. split; [apply elem_of_cons; by right|done].
Qed.

Lemma reads_markers_nil s : reads_markers [] s s.
Proof.
  unfold reads_markers. simpl. repeat split; try done; try lia.
  intros i Hi. by left.
Qed.

Lemma reads_markers_app ms1 ms2 a b c :
  reads_markers ms1 a b → reads_markers ms2 b c →
  reads_markers (ms1 ++ ms2) a c.
Proof.
  intros (Hn1&Hc1&Ho1&Hp1&Hk1&Hq1&Hr1&Hu1) (Hn2&Hc2&Ho2&Hp2&Hk2&Hq2&Hr2&Hu2).
  assert (∀ k, class_for b k = class_for a k) as Hcf
    by (intros k; unfold class_for; by rewrite Hc1).
  unfold reads_markers. rewrite length_app.
  split; [lia|]. split; [congruence|]. split; [|split; [|split; [|split; [|split]]]].
  - intros j k Hj. apply lookup_app_Some in Hj as [Hj|[Hlen Hj]].
    + rewrite Hk2; [by apply Ho1|]. apply lookup_lt_Some in Hj. lia.
    + rewrite <- Hcf.
      replace (next_ref a + j)%nat with (next_ref b + (j - length ms1))%nat by lia.
      by apply Ho2.
  - intros j k Hj Hnone. apply lookup_app_Some in Hj as [Hj|[Hlen Hj]].
    + apply Hq2. by eapply Hp1.
    + replace (next_ref a + j)%nat with (next_ref b + (j - length ms1))%nat by lia.
      eapply Hp2; [done|]. by rewrite Hc1.
  - intros i Hi. rewrite Hk2 by lia. by apply Hk1.
  - intros i Hi. by apply Hq2, Hq1.
  - intros i Hi. apply Hr2 in Hi as [Hi|Hi]; [|right; lia].
    apply Hr1 in Hi as [Hi|Hi]; [by left|right; lia].
  - intros Hall. apply Forall_app in Hall as [Hall1 Hall2].
    rewrite Hu2, Hu1; [done|done|].
    eapply Forall_impl; [exact Hall2|]. simpl. intros k. by rewrite Hc1.
Qed.

Lemma reads_markers_same ms a a' b b' :
  same_instances a' a → same_instances b b' →
  reads_markers ms a b → reads_markers ms a' b'.
Proof.
  intros (Ha1&Ha2&Ha3&Ha4) (Hb1&Hb2&Hb3&Hb4).
  unfold reads_markers, pending, class_for.
  by rewrite Ha1, Ha2, Ha3, Ha4, Hb1, Hb2, Hb3, Hb4.
Qed.

Lemma read_object_markers cls h s :
  ∃ s', read_object cls h s = Return (VObject (next_ref s)) s' ∧
        reads_markers [cls] s s'.
Proof.
  unfold read_object, reads_markers, class_for.
  destruct (classes s !! cls) as [addr|] eqn:Hc; eexists; (split; [done|]); simpl.
  - split; [lia|]. split; [done|].
    split.
    { intros [|j] k Hj; simpl in Hj; [|done]. injection Hj as <-.
      rewrite Nat.add_0_r, lookup_insert_eq. by rewrite Hc. }
    split; [intros [|j] k Hj; simpl in Hj; [|done]; congruence|].
    split; [intros i Hi; rewrite lookup_insert_ne by lia; done|].
    split; [done|]. split; [intros i Hi; by left|done].
  - split; [lia|]. split; [done|].
    split.
    { intros [|j] k Hj; simpl in Hj; [|done]. injection Hj as <-.
      rewrite Nat.add_0_r, lookup_insert_eq. by rewrite Hc. }
    split.
    { intros [|j] k Hj; simpl in Hj; [|done]. injection Hj as <-. intros _.
      rewrite Nat.add_0_r. apply pending_register. by right. }
    split; [intros i Hi; rewrite lookup_insert_ne by lia; done|].
    split; [intros i Hi; apply pending_register; by left|].
    split.
    { intros i Hi. apply pending_register in Hi as [Hi| ->]; [by left|right; lia]. }
    intros Hall. apply Forall_singleton in Hall as [x Hx]. congruence.
Qed.

Lemma read_aux_markers e s v s' :
  read_aux e s = Return v s' → reads_markers (markers e) s s'.
Proof.
  revert s v s'. induction e; intros st v st'; simpl;
    try (intros [= <- <-]; apply reads_markers_nil); try done.
  - intros H. apply bind_Return in H as (va & sa & Ha & H).
    apply bind_Return in H as (vd & sd & Hd & H). injection H as <- <-.
    eapply reads_markers_app; eauto.
  - intros H. destruct (read_object_markers cls handle st) as (s1 & Hs1 & Hm).
    rewrite Hs1 in H. by injection H as <- <-.
Qed.

Lemma read_markers s v s' :
  read s = Return v s' →
  ∃ e, stdout s = e :: stdout s' ∧ reads_markers (markers e) s s'.
Proof.
  intros H. pose proof H as H'. apply read_Return in H' as (e & Hs & _).
  exists e. split; [done|].
  unfold read in H. rewrite Hs in H.
  destruct (read_aux e (with_stdout (stdout s') s)) as [v1 s1|x s1|] eqn:Haux;
    [|done|done].
  injection H as <- <-. apply read_aux_markers in Haux.
  eapply reads_markers_same; [| |exact Haux]; by repeat split.
Qed.

Lemma exchange_markers expr plo s pkg val err output s1 :
  exchange expr plo s = Return (pkg, val, err, output) s1 →
  ∃ e1 e2 e3 e4,
    stdout s = e1 :: e2 :: e3 :: e4 :: stdout s1 ∧
    reads_markers (markers e1 ++ markers e2 ++ markers e3 ++ markers e4) s s1.
Proof.
  rewrite exchange_unfold. destruct (lispify s expr) as [sexp|]; [|done].
  set (s0 := log_event _ _).
  assert (same_instances s0 s ∧ stdout s0 = stdout s) as [Hs0 Hout0]
    by (subst s0; by destruct (debug s)).
  intros H.
  apply bind_Return in H as (v1 & sa & Ha & H).
  apply bind_Return in H as (v2 & sb & Hb & H).
  apply bind_Return in H as (v3 & sc & Hc & H).
  apply bind_Return in H as (v4 & sd & Hd & H).
  apply bind_Return in H as ([] & se & He & H).
  apply bind_Return in H as ([] & sf & Hf & H).
  injection H as <- <- <- <- <-.
  apply read_markers in Ha as (e1 & Ho1 & Hm1).
  apply read_markers in Hb as (e2 & Ho2 & Hm2).
  apply read_markers in Hc as (e3 & Ho3 & Hm3).
  apply read_markers in Hd as (e4 & Ho4 & Hm4).
  injection He as <-.
  assert (same_instances sf sd ∧ stdout sf = stdout sd) as [Hsf Houtf].
  { destruct plo; injection Hf as <-; by repeat split. }
  exists e1, e2, e3, e4. split.
  { rewrite Houtf, <- Ho4, <- Ho3, <- Ho2, <- Ho1. done. }
  eapply (reads_markers_same _ s0 s sd sf).
  - destruct Hs0 as (?&?&?&?). by repeat split.
  - destruct Hsf as (?&?&?&?). by repeat split.
  - eapply reads_markers_app; [exact Hm1|].
    eapply reads_markers_app; [exact Hm2|].
    eapply reads_markers_app; [exact Hm3|exact Hm4].
Qed.

(** ** Patching *)

Lemma patched_kept_respected : respected patched_kept.
Proof.
  apply respected_intro; unfold patched_kept; simpl; try by intros.
  - intros a b c [Hab Hp] [Hbc Hq]. split; [lia|].
    intros i Hi Hpi. apply Hq; [lia|]. by apply Hp.
  - intros cls h s. unfold read_object, patched.
    destruct (classes s !! cls); simpl; (split; [lia|]);
      intros i Hi [addr Ha]; exists addr; by rewrite lookup_insert_ne by lia.
  - intros s c i. split; [done|]. intros j Hj [addr Ha]. unfold patched. simpl.
    destruct (decide (i = j)) as [->|Hne].
    + exists c. by rewrite lookup_insert_eq.
    + exists addr. by rewrite lookup_insert_ne.
Qed.

Lemma set_class_all c l s :
  ∃ s', for_each l (set_class c) s = Return tt s' ∧
        (∀ i, i ∈ l → obj_class s' !! i = Some (Synth c)) ∧
        (∀ i, i ∉ l → obj_class s' !! i = obj_class s !! i) ∧
        next_ref s' = next_ref s ∧ classes s' = classes s ∧
        unpatched_instances s' = unpatched_instances s ∧
        class_heap s' = class_heap s ∧ events s' = events s ∧
        stdout s' = stdout s ∧ package s' = package s.
Proof.
  revert s. induction l as [|x l IH]; intros s; simpl.
  - exists s. repeat split; try done. intros i Hi. by apply elem_of_nil in Hi.
  - unfold bind, set_class at 1, modify.
    destruct (IH (with_obj_class (<[x:=Synth c]> (obj_class s)) s))
      as (s' & -> & Hin & Hout & Hrest).
    exists s'. split; [done|]. split; [|split; [|done]].
    + intros i Hi. destruct (decide (i ∈ l)) as [Hl|Hl]; [by apply Hin|].
      apply elem_of_cons in Hi as [->|Hi]; [|done].
      rewrite Hout by done. simpl. by rewrite lookup_insert_eq.
    + intros i Hi. apply not_elem_of_cons in Hi as [Hne Hl].
      rewrite Hout by done. simpl. by rewrite lookup_insert_ne.
Qed.

Lemma patch_class_patches ev k l s s' :
  patch_class ev (k, l) s = Return tt s' → ∀ i, i ∈ l → patched s' i.
Proof.
  unfold patch_class, function_of. intros H.
  apply bind_Return in H as (cls & s1 & _ & H).
  apply bind_Return in H as ([] & s2 & _ & H).
  apply bind_Return in H as (f & s3 & _ & H).
  apply bind_Return in H as (alist & s4 & _ & H).
  apply bind_Return in H as (conses & s5 & _ & H).
  apply bind_Return in H as ([] & s6 & _ & H).
  destruct (set_class_all cls l s6) as (s7 & Hs7 & Hin & _).
  rewrite Hs7 in H. injection H as <-.
  intros i Hi. exists cls. by apply Hin.
Qed.

(** A completed run of the loop leaves every instance of the snapshot
    patched. *)
Lemma patch_loop_patches (ev : value → bool → bool → M value) items s s' :
  (∀ e a b, keeps patched_kept (ev e a b)) →
  for_each items (patch_class ev) s = Return tt s' →
  ∀ k l i, (k, l) ∈ items → i ∈ l → (i < next_ref s)%nat → patched s' i.
Proof.
  intros Hev. revert s.
  induction items as [|[k0 l0] items IH]; intros s; cbn [for_each].
  - intros _ k l i Hin. by apply elem_of_nil in Hin.
  - intros H k l i Hin Hi Hlt.
    apply bind_Return in H as ([] & s1 & H1 & H).
    pose proof (patch_class_keeps _ patched_kept_respected ev (k0, l0) Hev s)
      as Hk1.
    rewrite H1 in Hk1. destruct Hk1 as [Hn1 _].
    apply elem_of_cons in Hin as [Heq|Hin].
    + injection Heq as -> ->.
      assert (keeps patched_kept (for_each items (patch_class ev))) as Hk.
      { apply keeps_for_each; [apply patched_kept_respected
                              |apply patched_kept_respected|].
        intros item. by apply patch_class_keeps, Hev; apply patched_kept_respected. }
      specialize (Hk s1). rewrite H in Hk. destruct Hk as [_ Hk].
      apply Hk; [lia|]. by eapply patch_class_patches.
    + eapply (IH s1); eauto. lia.
Qed.

Lemma raise_condition_never_returns err s v s' :
  raise_condition err s ≠ Return v s'.
Proof.
  destruct (raise_condition_raises err s) as (e & s2 & -> & _). done.
Qed.

(** A call that returns has patched every instance that was pending
    when it started. *)
Lemma eval_patches_pending fuel expr rlo plo s v s' :
  refs_allocated s →
  eval (S fuel) expr rlo plo s = Return v s' →
  ∀ i, pending s i → patched s' i.
Proof.
  intros Hwf Hev i Hi. simpl in Hev.
  apply bind_Return in Hev as ([[[pkg val] err] output] & s1 & Hex & Hev).
  destruct (is_Cons err); [by apply raise_condition_never_returns in Hev|].
  apply bind_Return in Hev as ([] & s2 & Hpatch & Hret).
  pose proof (return_values_state rlo val output s2) as Hst.
  rewrite Hret in Hst. subst s'.
  apply exchange_markers in Hex as (e1&e2&e3&e4&_&Hm).
  destruct Hm as (Hn&_&_&_&_&Hq&_).
  unfold patch_unpatched in Hpatch.
  apply bind_Return in Hpatch as (items & s1' & [= <- <-] & Hpatch).
  apply bind_Return in Hpatch as ([] & s1'' & [= <-] & Hpatch).
  destruct (Hq i Hi) as (k & l & Hin & Hil).
  eapply patch_loop_patches; [|exact Hpatch|exact Hin|exact Hil|].
  - intros e a b. apply eval_keeps, patched_kept_respected.
  - simpl. specialize (Hwf i Hi). lia.
Qed.

(** C6: a call whose condition frame is a pair raises; the class cache
    is as it was before the call, the instances are as the reader left
    them and the map of pending instances is as the reader left it, with
    every instance that was pending before and every plain wrapper made
    for this frame; nothing more is written or read.  A later call that
    returns patches all of them. *)
Theorem condition_skips_patching fuel expr rlo plo s pkg val TYPE rest output s1 :
  exchange expr plo s = Return (pkg, val, VCons TYPE rest, output) s1 →
  ∃ e s',
    eval (S fuel) expr rlo plo s = Raise e s' ∧
    classes s' = classes s ∧
    unpatched_instances s' = unpatched_instances s1 ∧
    obj_class s' = obj_class s1 ∧
    events s' = events s1 ∧ stdout s' = stdout s1 ∧
    (∀ i, pending s i → pending s' i) ∧
    (∀ i, (next_ref s ≤ i < next_ref s')%nat →
          obj_class s' !! i = Some Unpatched → pending s' i) ∧
    (∀ t fuel2 expr2 rlo2 plo2 v t',
       refs_allocated t →
       eval (S fuel2) expr2 rlo2 plo2 t = Return v t' →
       ∀ i, pending s' i → pending t i → patched t' i).
Proof.
  intros Hex.
  rewrite (eval_condition_case _ _ _ _ _ _ _ _ _ _ _ Hex).
  destruct (raise_condition_raises (VCons TYPE rest) s1)
    as (e & s' & -> & Hev & Hout & Hpkg & Hcls & Hun & Hobj & Hnext).
  exists e, s'. split; [done|].
  apply exchange_markers in Hex as (e1&e2&e3&e4&_&Hm).
  destruct Hm as (Hn&Hc&Ho&Hp&Hk&Hq&Hr&Hu).
  assert (∀ i, pending s' i ↔ pending s1 i) as Hps
    by (intros i; unfold pending; by rewrite Hun).
  split; [congruence|]. do 4 (split; [done|]).
  split; [intros i Hi; by apply Hps, Hq|]. split.
  - intros i Hi Hunp. rewrite Hnext, Hn in Hi. rewrite Hobj in Hunp.
    apply Hps.
    assert (is_Some ((markers e1 ++ markers e2 ++ markers e3 ++ markers e4)
                       !! (i - next_ref s)%nat)) as [k Hk']
      by (apply lookup_lt_is_Some_2; lia).
    specialize (Ho _ _ Hk'). specialize (Hp _ _ Hk').
    replace (next_ref s + (i - next_ref s))%nat with i in * by lia.
    apply Hp. rewrite Ho in Hunp. unfold class_for in Hunp.
    by destruct (classes s !! k).
  - intros t fuel2 expr2 rlo2 plo2 v t' Hwf Hret i _ Hi.
    by eapply eval_patches_pending.
Qed.

(** ** The class cache *)

Lemma register_keys k i d k' :
  k' ∈ (register k i d).*1 ↔ k' = k ∨ k' ∈ d.*1.
Proof.
  induction d as [|[k0 l0] d IH]; simpl.
  - rewrite list_elem_of_singleton. split; [by left|]. intros [|H]; [done|].
    by apply elem_of_nil in H.
  - destruct (decide (k0 = k)) as [->|Hne]; simpl.
    + rewrite !elem_of_cons. tauto.
    + rewrite !elem_of_cons, IH. tauto.
Qed.

Lemma cache_entry_kept_refl T c s : cache_entry_kept T c s s.
Proof. by intros H. Qed.

Lemma cache_entry_kept_trans T c s1 s2 s3 :
  cache_entry_kept T c s1 s2 → cache_entry_kept T c s2 s3 →
  cache_entry_kept T c s1 s3.
Proof. unfold cache_entry_kept. auto. Qed.

Lemma exchange_keeps_cache_entry T c expr plo :
  keeps (cache_entry_kept T c) (exchange expr plo).
Proof.
  apply exchange_keeps;
    [apply cache_entry_kept_refl|apply cache_entry_kept_trans
    |by intros s ev H|by intros s p H|].
  apply read_keeps;
    [apply cache_entry_kept_refl|apply cache_entry_kept_trans
    |by intros s ev H|by intros s e rest _ H|].
  intros cls h s. unfold read_object.
  destruct (classes s !! cls) as [addr|] eqn:Hcls; simpl; [by intros H|].
  intros [Hc Hn]. simpl. split; [done|].
  rewrite register_keys. intros [->|Hin]; [congruence|done].
Qed.

(** The entry of a cached class that is not pending survives every
    evaluation call: no class is made for it again. *)
Lemma eval_keeps_cache_entry T c fuel expr rlo plo :
  keeps (cache_entry_kept T c) (eval fuel expr rlo plo).
Proof.
  revert expr rlo plo. induction fuel as [|fuel IH]; intros expr rlo plo.
  - by intros s.
  - simpl.
    apply (keeps_bind _ (cache_entry_kept_trans T c));
      [apply exchange_keeps_cache_entry|].
    intros [[[pkg val] err] output].
    destruct (is_Cons err).
    + intros s. destruct (raise_condition_raises err s)
        as (e & s' & -> & _ & _ & _ & Hc & Hu & _).
      unfold cache_entry_kept. by rewrite Hc, Hu.
    + apply (keeps_bind _ (cache_entry_kept_trans T c)).
      2:{ intros _. apply keeps_return_values;
            [apply cache_entry_kept_refl|apply cache_entry_kept_trans]. }
      intros s. unfold patch_unpatched, bind, get, modify. simpl.
      assert (∀ items s0,
        T ∉ items.*1 →
        match for_each items (patch_class (eval fuel)) s0 with
        | Return _ s' | Raise _ s' => cache_entry_kept T c s0 s'
        | OutOfFuel => True
        end) as Hloop.
      { intros items s0 Hitems.
        assert (keeps (cache_entry_kept T c)
                  (for_each items (patch_class (eval fuel)))) as Hk; [|apply Hk].
        induction items as [|[k l] items IHi]; simpl.
        - apply keeps_ret, cache_entry_kept_refl.
        - simpl in Hitems. apply not_elem_of_cons in Hitems as [Hne Hitems].
          apply (keeps_bind _ (cache_entry_kept_trans T c)); [|intros _; by apply IHi].
          apply patch_class_keeps_gen;
            [apply cache_entry_kept_refl|apply cache_entry_kept_trans
            |by intros n b d s1 H| |by intros c0 a m s1 H
            |by intros c0 i s1 H|apply IH].
          intros c0 s1 [Hc Hn]. simpl. by rewrite lookup_insert_ne. }
      destruct (decide (T ∈ (unpatched_instances s).*1)) as [Hin|Hnin].
      * destruct (for_each _ _ _); try done; by intros [_ ?].
      * specialize (Hloop (unpatched_instances s) (with_unpatched [] s) Hnin).
        destruct (for_each _ _ _); try done;
          intros [Hc Hn]; apply Hloop; simpl; split; try done; apply not_elem_of_nil.
Qed.

(** ** The patching pass leaves nothing pending *)

Lemma member_loop_same_pending cls conses :
  keeps (λ s s', unpatched_instances s' = unpatched_instances s)
        (for_each conses (λ cons,
           let! nm := attr_car cons in
           let! gf := attr_cdr cons in
           add_member_function cls nm gf)).
Proof.
  set (R := λ s s' : Lisp, unpatched_instances s' = unpatched_instances s).
  assert (∀ s, R s s) as Hrefl by done.
  assert (∀ a b c, R a b → R b c → R a c) as Htrans
    by (unfold R; intros; congruence).
  apply (keeps_for_each R Hrefl Htrans). intros cons.
  apply (keeps_bind R Htrans); [apply (keeps_attr_car R Hrefl)|intros nm].
  apply (keeps_bind R Htrans); [apply (keeps_attr_cdr R Hrefl)|intros gf].
  unfold add_member_function.
  destruct nm; first [apply (keeps_raise R Hrefl) | by intros ?].
Qed.

Lemma patch_class_clean (ev : value → bool → bool → M value) item s s' :
  (∀ e a b s0 v s1, ev e a b s0 = Return v s1 → unpatched_instances s1 = []) →
  patch_class ev item s = Return tt s' → unpatched_instances s' = [].
Proof.
  intros Hev. destruct item as [k l]. unfold patch_class, function_of. intros H.
  apply bind_Return in H as (cls & s1 & _ & H).
  apply bind_Return in H as ([] & s2 & _ & H).
  apply bind_Return in H as (f & s3 & _ & H).
  apply bind_Return in H as (alist & s4 & Hcall & H).
  apply bind_Return in H as (conses & s5 & Hiter & H).
  apply bind_Return in H as ([] & s6 & Hmem & H).
  assert (unpatched_instances s4 = []) as H4.
  { unfold call in Hcall. destruct f; try done. by eapply Hev. }
  pose proof (py_iter_pure alist s4) as Hp. rewrite Hiter in Hp. subst s5.
  pose proof (member_loop_same_pending cls conses s4) as Hm.
  rewrite Hmem in Hm.
  destruct (set_class_all cls l s6) as (s7 & Hs7 & _ & _ & _ & _ & Hu & _).
  rewrite Hs7 in H. injection H as <-. congruence.
Qed.

Lemma patch_unpatched_clean (ev : value → bool → bool → M value) s s' :
  (∀ e a b s0 v s1, ev e a b s0 = Return v s1 → unpatched_instances s1 = []) →
  patch_unpatched ev s = Return tt s' → unpatched_instances s' = [].
Proof.
  intros Hev. unfold patch_unpatched. intros H.
  apply bind_Return in H as (items & s1 & [= <- <-] & H).
  apply bind_Return in H as ([] & s2 & [= <-] & H).
  assert (∀ items s0, unpatched_instances s0 = [] →
            for_each items (patch_class ev) s0 = Return tt s' →
            unpatched_instances s' = []) as Hloop.
  { clear H. intros items. induction items as [|x items IH]; intros s0 H0; simpl.
    - by intros [= <-].
    - intros H. apply bind_Return in H as ([] & sa & Ha & H).
      eapply IH; [|exact H]. by eapply patch_class_clean. }
  eapply Hloop; [|exact H]. done.
Qed.

(** A call that returns leaves no instance pending. *)
Lemma eval_returns_clean fuel expr rlo plo s v s' :
  eval fuel expr rlo plo s = Return v s' → unpatched_instances s' = [].
Proof.
  revert expr rlo plo s v s'.
  induction fuel as [|fuel IH]; intros expr rlo plo s v s' Hev; [done|].
  simpl in Hev.
  apply bind_Return in Hev as ([[[pkg val] err] output] & s1 & Hex & Hev).
  destruct (is_Cons err); [by apply raise_condition_never_returns in Hev|].
  apply bind_Return in Hev as ([] & s2 & Hpatch & Hret).
  pose proof (return_values_state rlo val output s2) as Hst.
  rewrite Hret in Hst. subst s'.
  by eapply patch_unpatched_clean.
Qed.

Lemma exchange_stdin expr plo s pkg val err output s1 sexp :
  lispify s expr = Some sexp →
  exchange expr plo s = Return (pkg, val, err, output) s1 →
  stdin s1 = stdin s ++ [sexp +:+ "
"].
Proof.
  intros Hl Hex.
  apply exchange_Return in Hex as (sexp'&e1&e2&e3&e4&Hl'&_&Hlog&_).
  rewrite Hl in Hl'. injection Hl' as <-.
  unfold stdin, writes. rewrite Hlog, !omap_app. unfold debug_echo, output_echo.
  destruct (debug s), plo; simpl; by rewrite ?app_nil_r.
Qed.

(** C3: with the reader modelled from the spec, a new instance of a
    class that is in the cache is an instance of the cached class as
    soon as its frame is read, and the cache and the class heap are as
    before; the entry of a cached class that is not pending survives the
    whole call; when nothing is pending and every class in the frame is
    cached, the call makes no class and writes nothing but its own
    request line; and a completed patching pass, run again, changes
    nothing. *)
Theorem cached_class_used_at_once fuel expr rlo plo s pkg val err output s1 T c :
  classes s !! T = Some c →
  exchange expr plo s = Return (pkg, val, err, output) s1 →
  ∃ sexp e1 e2 e3 e4,
    lispify s expr = Some sexp ∧
    stdout s = e1 :: e2 :: e3 :: e4 :: stdout s1 ∧
    (∀ j, (markers e1 ++ markers e2 ++ markers e3 ++ markers e4) !! j = Some T →
          obj_class s1 !! (next_ref s + j)%nat = Some (Synth c)) ∧
    classes s1 = classes s ∧ class_heap s1 = class_heap s ∧
    (T ∉ (unpatched_instances s).*1 →
     ∀ s', final_state (eval (S fuel) expr rlo plo s) = Some s' →
           classes s' !! T = Some c ∧ T ∉ (unpatched_instances s').*1) ∧
    (unpatched_instances s = [] →
     Forall (λ k, is_Some (classes s !! k))
            (markers e1 ++ markers e2 ++ markers e3 ++ markers e4) →
     is_Cons err = false →
     eval (S fuel) expr rlo plo s = return_values rlo val output s1 ∧
     ∀ s', final_state (eval (S fuel) expr rlo plo s) = Some s' →
           s' = s1 ∧ class_heap s' = class_heap s ∧ classes s' = classes s ∧
           unpatched_instances s' = [] ∧
           stdin s' = stdin s ++ [sexp +:+ "
"]) ∧
    (∀ s2, patch_unpatched (eval fuel) s1 = Return tt s2 →
           ∀ fuel', patch_unpatched (eval fuel') s2 = Return tt s2).
Proof.
  intros HT Hex.
  pose proof Hex as Hinv.
  apply exchange_Return in Hinv as (sexp&x1&x2&x3&x4&Hl&Hs&_&_&Hcls&Hheap&_).
  pose proof Hex as Hmark.
  apply exchange_markers in Hmark as (e1&e2&e3&e4&Hs'&Hm).
  rewrite Hs in Hs'. injection Hs' as -> -> -> ->.
  destruct Hm as (Hn&Hc&Ho&Hp&Hk&Hq&Hr&Hu).
  exists sexp, e1, e2, e3, e4.
  split; [done|]. split; [done|]. split.
  { intros j Hj. rewrite (Ho _ _ Hj). unfold class_for. by rewrite HT. }
  split; [done|]. split; [done|]. split; [|split].
  - intros Hnot s' Hfin.
    pose proof (eval_keeps_cache_entry T c (S fuel) expr rlo plo s) as Hkeep.
    destruct (eval (S fuel) expr rlo plo s); simpl in Hfin; try done;
      injection Hfin as <-; by apply Hkeep.
  - intros Hnone Hall Herr.
    assert (unpatched_instances s1 = []) as Hnone1 by (rewrite Hu; done).
    assert (eval (S fuel) expr rlo plo s = return_values rlo val output s1) as Hev.
    { rewrite (eval_success_case _ _ _ _ _ _ _ _ _ _ Hex Herr).
      by rewrite (bind_of_Return _ _ _ _ _ (patch_unpatched_nothing _ _ Hnone1)). }
    split; [done|]. intros s' Hfin. rewrite Hev in Hfin.
    pose proof (return_values_state rlo val output s1) as Hst.
    assert (s' = s1) as ->
      by (destruct (return_values rlo val output s1); simpl in Hfin; by simplify_eq).
    repeat split; try done. by eapply exchange_stdin.
  - intros s2 Hpatch fuel'.
    apply patch_unpatched_nothing.
    eapply patch_unpatched_clean; [|exact Hpatch].
    intros e a b s0 v s3. apply eval_returns_clean.
Qed.

(** ** Output options *)

(** C8: with [return_lisp_output] a successful call returns the pair of
    the result, interpreted by the empty/one/many rule, and the output
    text; with [print_lisp_output] the output text is printed, with an
    empty line end, right after the frame has been read. *)
Theorem eval_output_options fuel expr plo s pkg val output s1 s2 :
  exchange expr plo s = Return (pkg, val, nil_value, output) s1 →
  patch_unpatched (eval fuel) s1 = Return tt s2 →
  (val = nil_value →
     eval (S fuel) expr true plo s = Return (VTuple [VNone; output]) s2) ∧
  (∀ a, val = list_to_cons [a] →
     eval (S fuel) expr true plo s = Return (VTuple [a; output]) s2) ∧
  (∀ a b l, val = list_to_cons (a :: b :: l) →
     eval (S fuel) expr true plo s
     = Return (VTuple [VTuple (a :: b :: l); output]) s2) ∧
  (plo = true →
     ∃ sexp e1 e2 e3 e4 later,
       lispify s expr = Some sexp ∧
       events s2 = events s ++ debug_echo s sexp ++
                   [IoWrite (sexp +:+ "
"); IoRead e1 pkg; IoRead e2 val; IoRead e3 nil_value; IoRead e4 output;
                    IoPrint output EmptyString] ++ later).
Proof.
  intros Hex Hpatch.
  rewrite (eval_success_values _ _ _ _ _ _ _ _ _ _ Hex Hpatch).
  split; [intros ->; apply (return_values_nil true)|].
  split; [intros a ->; apply (return_values_one true)|].
  split; [intros a b l ->; apply (return_values_many true)|]. intros ->.
  apply exchange_Return in Hex as (sexp&e1&e2&e3&e4&Hl&_&Hev&_).
  pose proof (patch_unpatched_keeps log_extends log_extends_respected
                (eval fuel) (eval_keeps log_extends log_extends_respected fuel)
                s1) as Hext.
  rewrite Hpatch in Hext. destruct Hext as [later Hlater].
  exists sexp, e1, e2, e3, e4, later. split; [done|].
  rewrite Hlater, Hev. simpl. by rewrite <- !app_assoc.
Qed.

(** C10: with [print_lisp_output] a call whose condition frame is a pair
    raises, and the output text of the frame is on the host's standard
    output all the same: the echo is the last entry of the log, after
    the four reads. *)
Theorem eval_echo_before_raise fuel expr rlo s pkg val TYPE rest output s1 :
  exchange expr true s = Return (pkg, val, VCons TYPE rest, output) s1 →
  ∃ e s' sexp e1 e2 e3 e4,
    eval (S fuel) expr rlo true s = Raise e s' ∧
    lispify s expr = Some sexp ∧
    events s' = events s ++ debug_echo s sexp ++
                [IoWrite (sexp +:+ "
"); IoRead e1 pkg; IoRead e2 val; IoRead e3 (VCons TYPE rest);
                 IoRead e4 output; IoPrint output EmptyString] ∧
    printed s' = printed s ++ prints (debug_echo s sexp) ++
                 [(output, EmptyString)].
Proof.
  intros Hex.
  rewrite (eval_condition_case _ _ _ _ _ _ _ _ _ _ _ Hex).
  destruct (raise_condition_raises (VCons TYPE rest) s1)
    as (e & s' & -> & Hev & _).
  apply exchange_Return in Hex as (sexp&e1&e2&e3&e4&Hl&_&Hev1&_).
  exists e, s', sexp, e1, e2, e3, e4.
  assert (events s' = events s ++ debug_echo s sexp ++
                [IoWrite (sexp +:+ "
"); IoRead e1 pkg; IoRead e2 val; IoRead e3 (VCons TYPE rest);
                 IoRead e4 output; IoPrint output EmptyString]) as Hlog.
  { rewrite Hev, Hev1. simpl. done. }
  repeat split; try done.
  unfold printed, prints. rewrite Hlog, !omap_app. done.
Qed.

(** A decidable check of [refs_allocated]. *)
Lemma refs_allocated_check s :
  forallb (λ kl, forallb (λ i, i <? next_ref s)%nat kl.2)
          (unpatched_instances s) = true →
  refs_allocated s.
Proof.
  intros H i (k & l & Hin & Hil).
  rewrite forallb_forall in H. apply list_elem_of_In in Hin.
  specialize (H _ Hin). simpl in H. rewrite forallb_forall in H.
  apply list_elem_of_In in Hil. specialize (H _ Hil).
  by apply Nat.ltb_lt in H.
Qed.

(** * Further properties of the evaluation call *)

(** ** Relations kept by every call *)

Lemma cache_grows_respected : respected cache_grows.
Proof.
  apply respected_intro; unfold cache_grows; simpl; try by intros.
  - intros a b c Hab Hbc k Hk. by apply Hbc, Hab.
  - intros cls h s. unfold read_object.
    by destruct (classes s !! cls) eqn:E; simpl; intros k Hk.
  - intros s k c k' Hk'. destruct (decide (k = k')) as [->|Hne].
    + rewrite lookup_insert_eq. by eexists.
    + by rewrite lookup_insert_ne.
Qed.

Lemma heap_stable_refl s : heap_stable s s.
Proof. intros c [n b d] H. by exists d. Qed.

Lemma heap_stable_trans a b c :
  heap_stable a b → heap_stable b c → heap_stable a c.
Proof.
  intros Hab Hbc i cls H.
  destruct (Hab _ _ H) as (d & Hd). destruct (Hbc _ _ Hd) as (d' & Hd').
  by exists d'.
Qed.

Lemma heap_stable_same s s' : class_heap s' = class_heap s → heap_stable s s'.
Proof. intros Heq c [n b d] H. exists d. by rewrite Heq. Qed.

Lemma heap_stable_respected : respected heap_stable.
Proof.
  split.
  - apply heap_stable_refl.
  - apply heap_stable_trans.
  - apply exchange_keeps;
      [apply heap_stable_refl|apply heap_stable_trans
      |intros; by apply heap_stable_same|intros; by apply heap_stable_same|].
    apply read_keeps;
      [apply heap_stable_refl|apply heap_stable_trans
      |intros; by apply heap_stable_same|intros; by apply heap_stable_same|].
    intros cls h s. unfold read_object.
    destruct (classes s !! cls); by apply heap_stable_same.
  - intros n b d s c [n' b' d'] H. exists d'. simpl. by apply lookup_app_l_Some.
  - intros k c s. by apply heap_stable_same.
  - intros s. by apply heap_stable_same.
  - intros c a m s i [n b d] H. simpl.
    destruct (decide (c = i)) as [->|Hne].
    + rewrite list_lookup_alter, H. simpl. case_decide; by eexists.
    + rewrite list_lookup_alter_ne by done. by exists d.
  - intros c i s. by apply heap_stable_same.
Qed.

Lemma member_loop_keeps R cls conses :
  (∀ s, R s s) → (∀ a b c, R a b → R b c → R a c) →
  (∀ c a m, keeps R (setattr c a m)) →
  keeps R (for_each conses (λ cons,
             let! nm := attr_car cons in
             let! gf := attr_cdr cons in
             add_member_function cls nm gf)).
Proof.
  intros Hrefl Htrans Hset.
  apply (keeps_for_each R Hrefl Htrans). intros cons.
  apply (keeps_bind R Htrans); [apply (keeps_attr_car R Hrefl)|intros nm].
  apply (keeps_bind R Htrans); [apply (keeps_attr_cdr R Hrefl)|intros gf].
  unfold add_member_function.
  destruct nm; first [apply (keeps_raise R Hrefl) | apply Hset].
Qed.

Lemma keeps_for_each_in R {A} (l : list A) (body : A → M unit) :
  (∀ s, R s s) → (∀ a b c, R a b → R b c → R a c) →
  (∀ x, x ∈ l → keeps R (body x)) → keeps R (for_each l body).
Proof.
  intros Hrefl Htrans. induction l as [|x l IH]; intros Hb; simpl.
  - by apply keeps_ret.
  - apply (keeps_bind R Htrans); [apply Hb; by left|intros _].
    apply IH. intros y Hy. apply Hb. by right.
Qed.

(** One round of the patching loop keeps a relation that its own state
    changes keep: the class assignment for the instances of the round
    only, and the evaluation calls as the loop makes them, with both
    options off. *)
Lemma patch_class_keeps_on R (ev : value → bool → bool → M value) k l :
  (∀ s, R s s) → (∀ a b c, R a b → R b c → R a c) →
  (∀ n b d, keeps R (new_type n b d)) →
  (∀ c, keeps R (modify (λ s, with_classes (<[k := c]> (classes s)) s))) →
  (∀ c a m, keeps R (setattr c a m)) →
  (∀ c i, i ∈ l → keeps R (set_class c i)) →
  (∀ e, keeps R (ev e false false)) → keeps R (patch_class ev (k, l)).
Proof.
  intros Hrefl Htrans Hnew Hcache Hset Hcls Hev.
  pose proof (@keeps_bind R Htrans) as Hbind.
  unfold patch_class, function_of.
  apply Hbind; [apply Hnew|intros cls].
  apply Hbind; [apply Hcache|intros _].
  apply Hbind; [apply Hev|intros f].
  apply Hbind; [|intros alist].
  { unfold call. destruct f; first [by apply keeps_raise | apply Hev]. }
  apply Hbind; [by apply keeps_py_iter|intros conses].
  apply Hbind; [by apply member_loop_keeps|intros _].
  apply keeps_for_each_in; try done. intros i Hi. by apply Hcls.
Qed.

(** ** What a returning call has resolved *)

Lemma exchange_keeps_pending_classes expr plo :
  keeps (λ s s', ∀ k, k ∈ pending_classes s → k ∈ pending_classes s')
        (exchange expr plo).
Proof.
  set (R := λ s s' : Lisp, ∀ k, k ∈ pending_classes s → k ∈ pending_classes s').
  assert (∀ s, R s s) as Hrefl by (by intros s k).
  assert (∀ a b c, R a b → R b c → R a c) as Htrans
    by (intros a b c Hab Hbc k Hk; by apply Hbc, Hab).
  apply exchange_keeps; [done|done|by intros s ev k|by intros s p k|].
  apply read_keeps; [done|done|by intros s ev k|by intros s e rest _ k|].
  intros cls h s. unfold read_object.
  destruct (classes s !! cls); [by intros k|].
  intros k Hk. unfold pending_classes in *. simpl.
  apply register_keys. by right.
Qed.

Lemma patch_class_caches (ev : value → bool → bool → M value) k l s s' :
  (∀ e a b, keeps cache_grows (ev e a b)) →
  patch_class ev (k, l) s = Return tt s' → is_Some (classes s' !! k).
Proof.
  intros Hev. unfold patch_class, function_of. intros H.
  apply bind_Return in H as (cls & s1 & _ & H).
  apply bind_Return in H as ([] & s2 & [= <-] & H).
  apply bind_Return in H as (f & s3 & Hf & H).
  apply bind_Return in H as (alist & s4 & Hcall & H).
  apply bind_Return in H as (conses & s5 & Hiter & H).
  apply bind_Return in H as ([] & s6 & Hmem & H).
  pose proof (Hev (VTuple [VStr "CL:FUNCTION"; VStr "cl4py:class-information"])
                false false (with_classes (<[k:=cls]> (classes s1)) s1)) as G3.
  rewrite Hf in G3.
  assert (cache_grows s3 s4) as G4.
  { unfold call in Hcall. destruct f; try done.
    pose proof (Hev (call_form (VObject ref) [VSym k]) false false s3) as G.
    by rewrite Hcall in G. }
  pose proof (py_iter_pure alist s4) as Hp. rewrite Hiter in Hp. subst s5.
  pose proof (member_loop_keeps cache_grows cls conses
                (resp_refl _ cache_grows_respected)
                (resp_trans _ cache_grows_respected)
                (resp_setattr _ cache_grows_respected) s4) as G6.
  rewrite Hmem in G6.
  destruct (set_class_all cls l s6) as (s7 & Hs7 & _ & _ & _ & Hc7 & _).
  rewrite Hs7 in H. injection H as <-. rewrite Hc7.
  apply G6, G4, G3. simpl. rewrite lookup_insert_eq. by eexists.
Qed.

Lemma patch_loop_caches (ev : value → bool → bool → M value) items s s' :
  (∀ e a b, keeps cache_grows (ev e a b)) →
  for_each items (patch_class ev) s = Return tt s' →
  ∀ k, k ∈ items.*1 → is_Some (classes s' !! k).
Proof.
  intros Hev. revert s.
  induction items as [|[k0 l0] items IH]; intros s; cbn [for_each].
  - intros _ k Hin. by apply elem_of_nil in Hin.
  - intros H k Hin. apply bind_Return in H as ([] & s1 & H1 & H).
    simpl in Hin. apply elem_of_cons in Hin as [->|Hin]; [|by eapply IH].
    assert (keeps cache_grows (for_each items (patch_class ev))) as Hk.
    { apply keeps_for_each; [apply cache_grows_respected
                            |apply cache_grows_respected|].
      intros item. by apply patch_class_keeps, Hev; apply cache_grows_respected. }
    specialize (Hk s1). rewrite H in Hk. apply Hk.
    by eapply patch_class_caches.
Qed.

(** X1: a call that returns leaves [self.unpatched_instances] empty, and
    every class under which an instance was pending when the call
    started has an entry in [self.classes]. *)
Theorem eval_resolves_pending fuel expr rlo plo s v s' :
  eval fuel expr rlo plo s = Return v s' →
  unpatched_instances s' = [] ∧
  ∀ k, k ∈ pending_classes s → is_Some (classes s' !! k).
Proof.
  intros Hev. split; [by eapply eval_returns_clean|].
  destruct fuel as [|fuel]; [done|]. simpl in Hev.
  apply bind_Return in Hev as ([[[pkg val] err] output] & s1 & Hex & Hev).
  destruct (is_Cons err); [by apply raise_condition_never_returns in Hev|].
  apply bind_Return in Hev as ([] & s2 & Hpatch & Hret).
  pose proof (return_values_state rlo val output s2) as Hst.
  rewrite Hret in Hst. subst s'.
  pose proof (exchange_keeps_pending_classes expr plo s) as Hkeys.
  rewrite Hex in Hkeys.
  unfold patch_unpatched in Hpatch.
  apply bind_Return in Hpatch as (items & s1' & [= <- <-] & Hpatch).
  apply bind_Return in Hpatch as ([] & s1'' & [= <-] & Hpatch).
  intros k Hk. eapply patch_loop_caches; [|exact Hpatch|by apply Hkeys].
  intros e a b. apply eval_keeps, cache_grows_respected.
Qed.

(** X2: an instance that has a synthesized class before a call has one
    after it, whether the call returns or raises: a patched instance
    never goes back to the plain wrapper. *)
Theorem patched_stays_patched fuel expr rlo plo s s' i :
  final_state (eval fuel expr rlo plo s) = Some s' →
  (i < next_ref s)%nat → patched s i → patched s' i.
Proof.
  intros Hfin Hi Hp.
  pose proof (eval_keeps _ patched_kept_respected fuel expr rlo plo s) as Hk.
  destruct (eval fuel expr rlo plo s); simplify_eq/=; by apply Hk.
Qed.

(** ** A request that fails before its frame is complete *)

Lemma only_reads_trans a b c : only_reads a b → only_reads b c → only_reads a c.
Proof.
  unfold only_reads. intros (?&?&?&?&?&?) (?&?&?&?&?&?).
  repeat split; congruence.
Qed.

Lemma read_only_reads : keeps only_reads read.
Proof.
  intros s. destruct (read s) as [v s'|e s'|] eqn:E; [| |done].
  - apply read_Return in E as (x & _ & Hlog & Hp & Hc & Hh & Hd).
    unfold only_reads, stdin, printed, writes, prints.
    rewrite Hlog, !omap_app. simpl. by rewrite !app_nil_r.
  - apply read_Raise in E as (Hlog & Hp & Hc & Hh & Hd & _).
    unfold only_reads, stdin, printed. by rewrite Hlog.
Qed.

Lemma exchange_Raise expr plo s sexp e s' :
  lispify s expr = Some sexp →
  exchange expr plo s = Raise e s' →
  only_reads (log_event (IoWrite (sexp +:+ "
")) (if debug s then log_event (IoPrint (VStr sexp) "
") s else s)) s'.
Proof.
  intros Hl. rewrite exchange_unfold, Hl. set (s0 := log_event _ _).
  assert (only_reads s0 s0) as H0 by done. revert H0.
  generalize s0 at 2 3. intros sa H0 H.
  pose proof read_only_reads as Hr.
  apply bind_Raise in H as [H|(v1 & sb & Hb & H)];
    [pose proof (Hr sa) as G; rewrite H in G; by eapply only_reads_trans|].
  pose proof (Hr sa) as G1. rewrite Hb in G1.
  apply bind_Raise in H as [H|(v2 & sc & Hc & H)];
    [pose proof (Hr sb) as G; rewrite H in G;
     eapply only_reads_trans; [|exact G]; by eapply only_reads_trans|].
  pose proof (Hr sb) as G2. rewrite Hc in G2.
  apply bind_Raise in H as [H|(v3 & sd & Hd & H)];
    [pose proof (Hr sc) as G; rewrite H in G;
     eapply only_reads_trans; [|exact G];
     eapply only_reads_trans; [|exact G2]; by eapply only_reads_trans|].
  pose proof (Hr sc) as G3. rewrite Hd in G3.
  apply bind_Raise in H as [H|(v4 & se & He & H)];
    [pose proof (Hr sd) as G; rewrite H in G;
     eapply only_reads_trans; [|exact G];
     eapply only_reads_trans; [|exact G3];
     eapply only_reads_trans; [|exact G2]; by eapply only_reads_trans|].
  unfold bind, modify in H. by destruct plo.
Qed.

(** X4: a request that the writer rejects raises before anything is
    written, and the session is as before.  A request whose frame is cut
    short, with fewer than four expressions left to read, raises after
    its line was written; the exception is not that of an engine
    condition, [self.package] and the class cache are as before the
    call, and the Lisp output is not echoed. *)
Theorem eval_request_failure fuel expr rlo plo s :
  (lispify s expr = None →
   eval (S fuel) expr rlo plo s = Raise WriterError s) ∧
  (∀ sexp, lispify s expr = Some sexp → (length (stdout s) < 4)%nat →
     ∃ e s', eval (S fuel) expr rlo plo s = Raise e s' ∧
             (∀ c a, e ≠ ExcInstance c a) ∧
             package s' = package s ∧ classes s' = classes s ∧
             class_heap s' = class_heap s ∧
             stdin s' = stdin s ++ [sexp +:+ "
"] ∧
             printed s' = printed s ++ prints (debug_echo s sexp)).
Proof.
  split.
  - intros Hl. simpl. unfold bind at 1. by rewrite exchange_unfold, Hl.
  - intros sexp Hl Hlen.
    destruct (exchange expr plo s) as [[[[pkg val] err] output] s1|e s1|] eqn:Hex.
    + apply exchange_Return in Hex as (?&e1&e2&e3&e4&_&Hs&_).
      rewrite Hs in Hlen. simpl in Hlen. lia.
    + exists e, s1. split; [simpl; unfold bind at 1; by rewrite Hex|].
      split; [intros c a; by eapply exchange_no_instance|].
      apply (exchange_Raise _ _ _ _ _ _ Hl) in Hex as (Hw & Hp & Hk & Hc & Hh & _).
      rewrite Hw, Hp, Hk, Hc, Hh. unfold stdin, printed, debug_echo.
      destruct (debug s); simpl; unfold writes, prints;
        rewrite ?omap_app; simpl; by rewrite ?app_nil_r, <- ?app_assoc.
    + by apply total_exchange in Hex.
Qed.

(** X5: a condition frame that is not a paired cell is taken as no
    condition, and when the result frame is a value of a builtin host
    type other than the empty tuple, the call raises [AttributeError],
    after the patching pass has run. *)
Theorem eval_result_not_a_list fuel expr rlo plo s pkg val err output s1 s2 :
  exchange expr plo s = Return (pkg, val, err, output) s1 →
  is_Cons err = false →
  patch_unpatched (eval fuel) s1 = Return tt s2 →
  builtin_atom val = true →
  eval (S fuel) expr rlo plo s = Raise AttributeError s2.
Proof.
  intros Hex Herr Hpatch Hval.
  rewrite (eval_success_case _ _ _ _ _ _ _ _ _ _ Hex Herr).
  rewrite (bind_of_Return _ _ _ _ _ Hpatch).
  destruct val as [| | | | | |[|x items]| | | |]; try done; by destruct rlo.
Qed.

(** ** The members of a patched class *)

Lemma attach_other d pairs m :
  m ∉ python_name <$> pairs.*1 → attach d pairs !! m = d !! m.
Proof.
  revert d. induction pairs as [|[n g] pairs IH]; intros d Hm; simpl; [done|].
  simpl in Hm. apply not_elem_of_cons in Hm as [Hne Hm].
  unfold attach in *. simpl. rewrite IH by done. by rewrite lookup_insert_ne.
Qed.

Lemma attach_last d before n g after :
  python_name n ∉ python_name <$> after.*1 →
  attach d (before ++ (n, g) :: after) !! python_name n = Some (MMethod g).
Proof.
  intros Hn. unfold attach. rewrite foldl_app. simpl.
  fold (attach (<[python_name n:=MMethod g]>
                  (foldl (λ d p, <[python_name p.1:=MMethod p.2]> d) d before))
               after).
  rewrite attach_other by done. by rewrite lookup_insert_eq.
Qed.

Lemma member_loop_attaches cls pairs s :
  ∃ s', for_each (member_pair <$> pairs) (λ cons,
          let! nm := attr_car cons in
          let! gf := attr_cdr cons in
          add_member_function cls nm gf) s = Return tt s' ∧
        (∀ c, c ≠ cls → class_heap s' !! c = class_heap s !! c) ∧
        (∀ C, class_heap s !! cls = Some C →
              class_heap s' !! cls
              = Some (mkClass (cls_name C) (cls_base C)
                              (attach (cls_dict C) pairs))).
Proof.
  revert s. induction pairs as [|[n g] pairs IH]; intros s.
  - exists s. split; [done|]. split; [done|]. by intros [? ? ?] H.
  - cbn [fmap list_fmap for_each member_pair fst snd].
    unfold bind at 1. cbn [attr_car attr_cdr]. unfold bind at 1 2, ret.
    unfold add_member_function, setattr, modify.
    destruct (IH (with_class_heap
                    (alter (λ c, mkClass (cls_name c) (cls_base c)
                                    (<[python_name n:=MMethod g]> (cls_dict c)))
                           cls (class_heap s)) s)) as (s' & Hs' & Ho & Hc).
    exists s'. split; [exact Hs'|]. simpl in Ho, Hc. split.
    + intros c Hne. rewrite Ho by done. by rewrite list_lookup_alter_ne.
    + intros C HC.
      rewrite (Hc (mkClass (cls_name C) (cls_base C)
                           (<[python_name n:=MMethod g]> (cls_dict C)))); [done|].
      rewrite list_lookup_alter, HC. simpl. by case_decide.
Qed.

(** X6: the loop that attaches the operations of a class description
    [((name . gf) ...)] to a class changes the members of that class
    only; a member whose name is not in the description is as before,
    and under the [python_name] of a listed name the class has the
    function of the last pair with that [python_name]. *)
Theorem member_loop_last_wins cls pairs s C :
  class_heap s !! cls = Some C →
  ∃ s' C',
    for_each (member_pair <$> pairs) (λ cons,
      let! nm := attr_car cons in
      let! gf := attr_cdr cons in
      add_member_function cls nm gf) s = Return tt s' ∧
    class_heap s' !! cls = Some C' ∧
    cls_name C' = cls_name C ∧ cls_base C' = cls_base C ∧
    (∀ c, c ≠ cls → class_heap s' !! c = class_heap s !! c) ∧
    (∀ m, m ∉ python_name <$> pairs.*1 → cls_dict C' !! m = cls_dict C !! m) ∧
    (∀ before n g after,
       pairs = before ++ (n, g) :: after →
       python_name n ∉ python_name <$> after.*1 →
       cls_dict C' !! python_name n = Some (MMethod g)).
Proof.
  intros HC. destruct (member_loop_attaches cls pairs s) as (s' & Hs' & Ho & Hc).
  exists s', (mkClass (cls_name C) (cls_base C) (attach (cls_dict C) pairs)).
  split; [exact Hs'|]. split; [by apply Hc|]. do 2 (split; [done|]).
  split; [exact Ho|]. split.
  - intros m Hm. by apply attach_other.
  - intros before n g after -> Hn. by apply attach_last.
Qed.

(** ** Instances that the patching pass does not take up *)

Lemma not_revived_respected : respected not_revived.
Proof.
  apply respected_intro; unfold not_revived; simpl; try by intros.
  - intros a b c [Hab Hp] [Hbc Hq]. split; [lia|].
    intros i Hi Hn. apply Hq; [lia|]. by apply Hp.
  - intros cls h s. unfold read_object.
    destruct (classes s !! cls); simpl; (split; [lia|]); intros i Hi Hn; [done|].
    intros Hp. apply pending_register in Hp as [Hp| ->]; [by apply Hn|lia].
  - intros s. split; [done|]. intros i _ _ (k & l & Hin & _).
    by apply elem_of_nil in Hin.
Qed.

Lemma settled_outside_refl X s : settled_outside X s s.
Proof. split; [done|]. by intros i _ _ Hn. Qed.

Lemma settled_outside_trans X a b c :
  settled_outside X a b → settled_outside X b c → settled_outside X a c.
Proof.
  intros [Hab Hp] [Hbc Hq]. split; [lia|]. intros i Hi HX Hn.
  destruct (Hp i Hi HX Hn) as [Hn' Ho].
  destruct (Hq i) as [Hn'' Ho']; [lia|done|done|]. split; [done|congruence].
Qed.

Lemma settled_outside_mono (X Y : nat → Prop) s s' :
  (∀ i, X i → Y i) → settled_outside X s s' → settled_outside Y s s'.
Proof. intros HXY [Hn H]. split; [done|]. intros i Hi HY. apply H; auto. Qed.

Lemma settled_outside_same X s s' :
  next_ref s' = next_ref s → unpatched_instances s' = unpatched_instances s →
  obj_class s' = obj_class s → settled_outside X s s'.
Proof.
  intros Hn Hu Ho. split; [lia|]. intros i _ _ Hp. unfold pending.
  by rewrite Hu, Ho.
Qed.

Lemma exchange_keeps_settled X expr plo :
  keeps (settled_outside X) (exchange expr plo).
Proof.
  apply exchange_keeps;
    [apply settled_outside_refl|apply settled_outside_trans
    |intros; by apply settled_outside_same
    |intros; by apply settled_outside_same|].
  apply read_keeps;
    [apply settled_outside_refl|apply settled_outside_trans
    |intros; by apply settled_outside_same
    |intros; by apply settled_outside_same|].
  intros cls h s. unfold read_object.
  destruct (classes s !! cls); simpl; (split; [simpl; lia|]);
    intros i Hi _ Hn; simpl; rewrite lookup_insert_ne by lia; (split; [|done]).
  - done.
  - intros Hp. apply pending_register in Hp as [Hp| ->]; [by apply Hn|lia].
Qed.

(** A call changes the runtime type only of instances that are pending
    when it starts or that it reads itself. *)
Lemma eval_keeps_settled fuel expr rlo plo :
  keeps (settled_outside (λ _, False)) (eval fuel expr rlo plo).
Proof.
  revert expr rlo plo. induction fuel as [|fuel IH]; intros expr rlo plo.
  - by intros s.
  - simpl. apply (keeps_bind _ (settled_outside_trans _));
      [apply exchange_keeps_settled|].
    intros [[[pkg val] err] output].
    destruct (is_Cons err).
    + intros s. destruct (raise_condition_raises err s)
        as (e & s' & -> & _ & _ & _ & _ & Hu & Ho & Hn).
      by apply settled_outside_same.
    + apply (keeps_bind _ (settled_outside_trans _)).
      2:{ intros _. apply keeps_return_values;
            [apply settled_outside_refl|apply settled_outside_trans]. }
      intros s. unfold patch_unpatched, bind, get, modify. simpl.
      assert (keeps (settled_outside (pending s))
                (for_each (unpatched_instances s) (patch_class (eval fuel))))
        as Hloop.
      { apply keeps_for_each_in;
          [apply settled_outside_refl|apply settled_outside_trans|].
        intros [k l] Hkl. apply patch_class_keeps_on;
          [apply settled_outside_refl|apply settled_outside_trans
          |intros n b d s0; by apply settled_outside_same
          |intros c s0; by apply settled_outside_same
          |intros c a m s0; by apply settled_outside_same| |].
        - intros c i Hi s0. split; [done|]. intros j Hj HX Hn. simpl.
          split; [done|]. rewrite lookup_insert_ne; [done|].
          intros ->. apply HX. by exists k, l.
        - intros e s0. specialize (IH e false false s0).
          destruct (eval fuel e false false s0); try done;
            (eapply settled_outside_mono; [|exact IH]; by intros ? []). }
      specialize (Hloop (with_unpatched [] s)).
      destruct (for_each _ _ _) as [[] s'|e s'|]; try done;
        destruct Hloop as [Hn H]; (split; [done|]);
        intros i Hi _ Hp; apply H; try done;
        intros (k & l & Hin & _); by apply elem_of_nil in Hin.
Qed.

(** X7: a call whose condition frame is not a paired cell empties
    [self.unpatched_instances] before it patches.  Whether it then
    returns or raises, no instance that was pending when its frame had
    been read is pending afterwards: when the patching pass raises, the
    instances it had not reached are not kept for a later call. *)
Theorem pass_forgets_snapshot fuel expr rlo plo s pkg val err output s1 s' :
  refs_allocated s →
  exchange expr plo s = Return (pkg, val, err, output) s1 →
  is_Cons err = false →
  final_state (eval (S fuel) expr rlo plo s) = Some s' →
  ∀ i, pending s i ∨ pending s1 i → ¬ pending s' i.
Proof.
  intros Hwf Hex Herr Hfin.
  rewrite (eval_success_case _ _ _ _ _ _ _ _ _ _ Hex Herr) in Hfin.
  apply exchange_markers in Hex as (e1&e2&e3&e4&_&Hm).
  destruct Hm as (Hn&_&_&_&_&Hq&Hr&_).
  assert (∀ i, pending s1 i → (i < next_ref s1)%nat) as Hwf1.
  { intros i Hi. apply Hr in Hi as [Hi|Hi]; [|lia]. specialize (Hwf i Hi). lia. }
  assert (not_revived (with_unpatched [] s1) s') as [_ Hnr].
  { unfold patch_unpatched in Hfin. unfold bind, get, modify in Hfin.
    assert (keeps not_revived
              (for_each (unpatched_instances s1) (patch_class (eval fuel))))
      as Hloop.
    { apply keeps_for_each;
        [apply not_revived_respected|apply not_revived_respected|].
      intros item. apply patch_class_keeps; [apply not_revived_respected|].
      intros e a b. apply eval_keeps, not_revived_respected. }
    specialize (Hloop (with_unpatched [] s1)).
    destruct (for_each _ _ _) as [[] s2|e s2|]; [| |done].
    - pose proof (return_values_state rlo val output s2) as Hst.
      destruct (return_values rlo val output s2); simplify_eq/=; done.
    - by simplify_eq/=. }
  intros i Hi.
  assert (pending s1 i) as Hi1 by (destruct Hi; [by apply Hq|done]).
  apply Hnr; [by apply Hwf1|].
  intros (k & l & Hin & _). by apply elem_of_nil in Hin.
Qed.

(** X8: whether a call returns or raises, an instance that exists and is
    not pending when the call starts is not pending afterwards and has
    the runtime type it had: a plain wrapper that was dropped from
    [self.unpatched_instances] stays a plain wrapper. *)
Theorem settled_instance_untouched fuel expr rlo plo s s' i :
  final_state (eval fuel expr rlo plo s) = Some s' →
  (i < next_ref s)%nat → ¬ pending s i →
  ¬ pending s' i ∧ obj_class s' !! i = obj_class s !! i.
Proof.
  intros Hfin Hi Hn.
  pose proof (eval_keeps_settled fuel expr rlo plo s) as Hk.
  destruct (eval fuel expr rlo plo s) as [v s0|e s0|]; [| |done];
    injection Hfin as ->; destruct Hk as [_ Hk]; (apply Hk; [done|tauto|done]).
Qed.

(** ** The class cache and the runtime types stay sound *)

Lemma registry_sound_stable s s' :
  heap_stable s s' → classes s' = classes s → obj_class s' = obj_class s →
  registry_sound s → registry_sound s'.
Proof.
  intros Hh Hc Ho [H1 H2]. split.
  - intros k c Hk. rewrite Hc in Hk. destruct (H1 _ _ Hk) as (d & Hd).
    destruct (Hh _ _ Hd) as (d' & Hd'). by exists d'.
  - intros i c Hi. rewrite Ho in Hi. destruct (H2 _ _ Hi) as (n & d & Hd).
    destruct (Hh _ _ Hd) as (d' & Hd'). by exists n, d'.
Qed.

Lemma wrapper_class_stable s s' c :
  heap_stable s s' → wrapper_class s c → wrapper_class s' c.
Proof.
  intros Hh (n & d & Hd). destruct (Hh _ _ Hd) as (d' & Hd'). by exists n, d'.
Qed.

Lemma exchange_keeps_registry expr plo :
  keeps (λ s s', registry_sound s → registry_sound s') (exchange expr plo).
Proof.
  set (R := λ s s' : Lisp, registry_sound s → registry_sound s').
  assert (∀ s, R s s) as Hrefl by (intros s H; exact H).
  assert (∀ a b c, R a b → R b c → R a c) as Htrans
    by (intros a b c Hab Hbc H; by apply Hbc, Hab).
  apply exchange_keeps; [done|done|by intros s ev H|by intros s p H|].
  apply read_keeps; [done|done|by intros s ev H|by intros s e rest _ H|].
  intros cls h s. unfold read_object.
  destruct (classes s !! cls) as [addr|] eqn:Hc; intros [H1 H2];
    (split; [exact H1|]); intros i c; simpl;
    (destruct (decide (i = next_ref s)) as [->|Hne];
       [rewrite lookup_insert_eq|rewrite lookup_insert_ne by done; apply H2]);
    [|done].
  intros [= <-]. destruct (H1 _ _ Hc) as (d & Hd). by exists (python_name cls), d.
Qed.

Local Abbreviation members_and_instances ev cls k l :=
  (let! f := function_of ev (VStr "cl4py:class-information") in
   let! alist := call ev f [VSym k] in
   let! conses := py_iter alist in
   do! for_each conses (λ cons,
         let! nm := attr_car cons in
         let! gf := attr_cdr cons in
         add_member_function cls nm gf) in
   for_each l (set_class cls)).

Lemma members_and_instances_keep_registry
    (ev : value → bool → bool → M value) cls k l :
  (∀ e, keeps (λ s s', registry_sound s → registry_sound s') (ev e false false)) →
  (∀ e, keeps heap_stable (ev e false false)) →
  keeps (λ s s', registry_sound s ∧ wrapper_class s cls →
                 registry_sound s' ∧ wrapper_class s' cls)
        (members_and_instances ev cls k l).
Proof.
  intros Hev Hst.
  set (R := λ s s' : Lisp, registry_sound s ∧ wrapper_class s cls →
                           registry_sound s' ∧ wrapper_class s' cls).
  assert (∀ s, R s s) as Hrefl by (intros s H; exact H).
  assert (∀ a b c, R a b → R b c → R a c) as Htrans
    by (intros a b c Hab Hbc H; by apply Hbc, Hab).
  assert (∀ e, keeps R (ev e false false)) as Hev'.
  { intros e s. specialize (Hev e s). specialize (Hst e s).
    destruct (ev e false false s); try done;
      intros [H1 H2]; (split; [by apply Hev|by eapply wrapper_class_stable]). }
  pose proof (@keeps_bind R Htrans) as Hbind.
  unfold function_of.
  apply Hbind; [apply Hev'|intros f].
  apply Hbind; [|intros alist].
  { unfold call. destruct f; first [by apply keeps_raise | apply Hev']. }
  apply Hbind; [by apply keeps_py_iter|intros conses].
  apply Hbind; [|intros _].
  - apply member_loop_keeps; [done|done|].
    intros c a m s [H1 H2].
    pose proof (resp_setattr _ heap_stable_respected c a m s) as Hh.
    unfold setattr, modify in Hh.
    split; [eapply registry_sound_stable; [exact Hh|done|done|exact H1]
           |eapply wrapper_class_stable; [exact Hh|exact H2]].
  - apply keeps_for_each; [done|done|].
    intros i s [[H1 H2] Hw]. split; [split; [exact H1|]|exact Hw].
    intros j c. simpl. destruct (decide (i = j)) as [->|Hne].
    + rewrite lookup_insert_eq. by intros [= <-].
    + rewrite lookup_insert_ne by done. apply H2.
Qed.

Lemma patch_class_keeps_registry (ev : value → bool → bool → M value) item :
  (∀ e, keeps (λ s s', registry_sound s → registry_sound s') (ev e false false)) →
  (∀ e, keeps heap_stable (ev e false false)) →
  keeps (λ s s', registry_sound s → registry_sound s') (patch_class ev item).
Proof.
  intros Hev Hst. destruct item as [k l]. intros s.
  pose proof (members_and_instances_keep_registry ev (length (class_heap s)) k l
                Hev Hst
                (with_classes (<[k:=length (class_heap s)]> (classes s))
                   (with_class_heap
                      (class_heap s ++ [mkClass (python_name k) LispWrapper ∅]) s)))
    as Hrest.
  change (patch_class ev (k, l) s)
    with (members_and_instances ev (length (class_heap s)) k l
            (with_classes (<[k:=length (class_heap s)]> (classes s))
               (with_class_heap
                  (class_heap s ++ [mkClass (python_name k) LispWrapper ∅]) s))).
  assert (registry_sound s →
          registry_sound
            (with_classes (<[k:=length (class_heap s)]> (classes s))
               (with_class_heap
                  (class_heap s ++ [mkClass (python_name k) LispWrapper ∅]) s)) ∧
          wrapper_class
            (with_classes (<[k:=length (class_heap s)]> (classes s))
               (with_class_heap
                  (class_heap s ++ [mkClass (python_name k) LispWrapper ∅]) s))
            (length (class_heap s))) as Hstart.
  { intros [H1 H2].
    assert (heap_stable s (with_class_heap
              (class_heap s ++ [mkClass (python_name k) LispWrapper ∅]) s)) as Hh
      by apply (resp_new_type _ heap_stable_respected (python_name k) LispWrapper ∅ s).
    split; [split|].
    - intros k' c. simpl. destruct (decide (k = k')) as [->|Hne].
      + rewrite lookup_insert_eq. intros [= <-]. exists ∅.
        by rewrite lookup_app_r, Nat.sub_diag.
      + rewrite lookup_insert_ne by done. intros Hk.
        destruct (H1 _ _ Hk) as (d & Hd). destruct (Hh _ _ Hd) as (d' & Hd').
        by exists d'.
    - intros i c Hi. eapply wrapper_class_stable; [exact Hh|]. by eapply H2.
    - exists (python_name k), ∅. simpl. by rewrite lookup_app_r, Nat.sub_diag. }
  destruct (members_and_instances _ _ _ _ _) as [[] s'|e s'|]; try done;
    intros H; by apply Hrest, Hstart.
Qed.

Lemma eval_keeps_registry fuel expr rlo plo :
  keeps (λ s s', registry_sound s → registry_sound s') (eval fuel expr rlo plo).
Proof.
  set (R := λ s s' : Lisp, registry_sound s → registry_sound s').
  assert (∀ s, R s s) as Hrefl by (intros s H; exact H).
  assert (∀ a b c, R a b → R b c → R a c) as Htrans
    by (intros a b c Hab Hbc H; by apply Hbc, Hab).
  revert expr rlo plo. induction fuel as [|fuel IH]; intros expr rlo plo.
  - by intros s.
  - simpl. apply (keeps_bind R Htrans); [apply exchange_keeps_registry|].
    intros [[[pkg val] err] output].
    destruct (is_Cons err).
    + intros s.
      pose proof (raise_condition_keeps _ heap_stable_respected err s) as Hh.
      destruct (raise_condition_raises err s)
        as (e & s' & Heq & _ & _ & _ & Hc & _ & Ho & _).
      rewrite Heq in *. intros H. by eapply registry_sound_stable.
    + apply (keeps_bind R Htrans); [|intros _; by apply keeps_return_values].
      unfold patch_unpatched.
      apply (keeps_bind R Htrans); [by apply keeps_get|intros items].
      apply (keeps_bind R Htrans); [by intros s H|intros _].
      apply keeps_for_each; [done|done|]. intros item.
      apply patch_class_keeps_registry; [intros e; apply IH|].
      intros e. apply eval_keeps, heap_stable_respected.
Qed.

(** X9: when every entry of [self.classes] is a subclass of
    [LispWrapper] named by the [python_name] of its symbol and the
    runtime type of every patched instance is a subclass of
    [LispWrapper], the same holds after a call, whether it returns or
    raises: the classes made for conditions never get into the cache or
    onto an instance. *)
Theorem registry_stays_sound fuel expr rlo plo s s' :
  registry_sound s →
  final_state (eval fuel expr rlo plo s) = Some s' →
  registry_sound s'.
Proof.
  intros Hs Hfin. pose proof (eval_keeps_registry fuel expr rlo plo s) as Hk.
  destruct (eval fuel expr rlo plo s) as [v s0|e s0|]; [| |done];
    injection Hfin as ->; by apply Hk.
Qed.

(** ** What a call prints *)

Lemma quiet_refl s : quiet s s.
Proof. by intros H. Qed.

Lemma quiet_trans a b c : quiet a b → quiet b c → quiet a c.
Proof.
  intros Hab Hbc H. destruct (Hab H) as [Hd Hp].
  destruct (Hbc Hd) as [Hd' Hp']. split; [done|congruence].
Qed.

Lemma quiet_same s s' : debug s' = debug s → events s' = events s → quiet s s'.
Proof. intros Hd He H. unfold printed. by rewrite Hd, He. Qed.

Lemma exchange_quiet expr : keeps quiet (exchange expr false).
Proof.
  intros s.
  destruct (exchange expr false s) as [[[[pkg val] err] output] s1|e s1|] eqn:Hex;
    [| |done].
  - apply exchange_Return in Hex as (sexp&e1&e2&e3&e4&_&_&Hlog&_&_&_&Hd).
    intros H. split; [congruence|].
    unfold printed, prints, debug_echo, output_echo in *.
    rewrite Hlog, H, !omap_app. simpl. by rewrite app_nil_r.
  - destruct (lispify s expr) as [sexp|] eqn:Hl.
    + pose proof (exchange_Raise _ _ _ _ _ _ Hl Hex) as (_ & Hp & _ & _ & _ & Hd).
      intros H. rewrite H in Hp, Hd. split; [by rewrite Hd|]. rewrite Hp.
      unfold printed, prints. simpl. rewrite omap_app. simpl.
      by rewrite app_nil_r.
    + rewrite exchange_unfold, Hl in Hex. injection Hex as _ <-.
      apply quiet_refl.
Qed.

Lemma raise_condition_quiet err : keeps quiet (raise_condition err).
Proof.
  intros s. unfold raise_condition, bind.
  destruct err; simpl; try apply quiet_refl.
  destruct (truthy err2); [destruct err2|]; simpl;
    first [apply quiet_refl | by apply quiet_same].
Qed.

Lemma patch_unpatched_quiet (ev : value → bool → bool → M value) :
  (∀ e, keeps quiet (ev e false false)) → keeps quiet (patch_unpatched ev).
Proof.
  intros Hev. unfold patch_unpatched.
  apply (keeps_bind _ quiet_trans); [apply keeps_get, quiet_refl|intros items].
  apply (keeps_bind _ quiet_trans); [intros s; by apply quiet_same|intros _].
  apply keeps_for_each; [apply quiet_refl|apply quiet_trans|].
  intros [k l]. apply patch_class_keeps_on;
    [apply quiet_refl|apply quiet_trans
    |intros n b d s; by apply quiet_same|intros c s; by apply quiet_same
    |intros c a m s; by apply quiet_same|intros c i _ s; by apply quiet_same
    |apply Hev].
Qed.

(** With [self.debug] off, a call without [print_lisp_output] prints
    nothing, and neither do the calls its patching pass makes. *)
Lemma eval_quiet fuel expr rlo : keeps quiet (eval fuel expr rlo false).
Proof.
  revert expr rlo. induction fuel as [|fuel IH]; intros expr rlo.
  - by intros s.
  - simpl. apply (keeps_bind _ quiet_trans); [apply exchange_quiet|].
    intros [[[pkg val] err] output].
    destruct (is_Cons err); [apply raise_condition_quiet|].
    apply (keeps_bind _ quiet_trans).
    + apply patch_unpatched_quiet. intros e. apply IH.
    + intros _. apply keeps_return_values; [apply quiet_refl|apply quiet_trans].
Qed.

(** X10: with [self.debug] off, all that a call whose frame is complete
    prints is the Lisp output of its own frame, once and without a line
    end, when [print_lisp_output] is set, and nothing otherwise: the
    calls that the patching pass makes print nothing, and [self.debug]
    is still off afterwards. *)
Theorem eval_prints_own_output fuel expr rlo plo s pkg val err output s1 s' :
  debug s = false →
  exchange expr plo s = Return (pkg, val, err, output) s1 →
  final_state (eval (S fuel) expr rlo plo s) = Some s' →
  printed s' = printed s ++ (if plo then [(output, EmptyString)] else []) ∧
  debug s' = false.
Proof.
  intros Hdbg Hex Hfin.
  rewrite (eval_after_exchange _ _ _ _ _ _ _ _ _ _ Hex) in Hfin.
  apply exchange_Return in Hex as (sexp&e1&e2&e3&e4&_&_&Hlog&_&_&_&Hd).
  assert (printed s1
          = printed s ++ (if plo then [(output, EmptyString)] else [])) as Hp1.
  { unfold printed, prints, debug_echo, output_echo in *.
    rewrite Hlog, Hdbg, !omap_app. by destruct plo. }
  set (m := if is_Cons err then raise_condition err
            else do! patch_unpatched (eval fuel) in
                 return_values rlo val output) in Hfin.
  assert (keeps quiet m) as Hk.
  { subst m. destruct (is_Cons err); [apply raise_condition_quiet|].
    apply (keeps_bind _ quiet_trans).
    - apply patch_unpatched_quiet. intros e. apply eval_quiet.
    - intros _. apply keeps_return_values; [apply quiet_refl|apply quiet_trans]. }
  specialize (Hk s1).
  destruct (m s1) as [v s0|e s0|]; [| |done];
    injection Hfin as ->; (destruct Hk as [Hd' Hp']; [congruence|]);
    (split; [congruence|done]).
Qed.

(** ** Looking up a function and a package *)

(** X11: when the lookup of [CL:FIND-PACKAGE] is answered by one object
    of a cached class and a frame without a condition, [find_package]
    has written one request line so far, and what it does next and hands
    back is the evaluation of the call of that object on [name], in the
    session as this first frame left it, with the namespace it
    reported. *)
Theorem find_package_two_calls fuel name s sexp pkg r output s1 :
  lispify s (VTuple [VStr "CL:FUNCTION"; VStr "CL:FIND-PACKAGE"]) = Some sexp →
  exchange (VTuple [VStr "CL:FUNCTION"; VStr "CL:FIND-PACKAGE"]) false s
  = Return (pkg, list_to_cons [VObject r], nil_value, output) s1 →
  unpatched_instances s1 = [] →
  function (S fuel) (VStr "CL:FIND-PACKAGE") s = Return (VObject r) s1 ∧
  find_package (S fuel) name s
  = eval (S fuel) (call_form (VObject r) [name]) false false s1 ∧
  stdin s1 = stdin s ++ [sexp +:+ "
"] ∧
  package s1 = pkg.
Proof.
  intros Hl Hex Hnone.
  assert (function (S fuel) (VStr "CL:FIND-PACKAGE") s = Return (VObject r) s1)
    as Hf.
  { unfold function, function_of.
    rewrite (eval_success_values _ _ _ _ _ _ _ _ s1 s1 Hex).
    - apply (return_values_one false).
    - by apply patch_unpatched_nothing. }
  split; [exact Hf|]. split.
  - unfold find_package. by rewrite (bind_of_Return _ _ _ _ _ Hf).
  - split; [by eapply exchange_stdin|].
    by apply exchange_Return in Hex as (?&?&?&?&?&_&_&_&Hp&_).
Qed.

(** ** A call never changes a class that exists when it starts *)

Lemma heap_kept_refl n s : heap_kept n s s.
Proof. by intros H. Qed.

Lemma heap_kept_trans n a b c :
  heap_kept n a b → heap_kept n b c → heap_kept n a c.
Proof.
  intros Hab Hbc H. destruct (Hab H) as [H1 H2].
  destruct (Hbc H1) as [H3 H4]. split; [done|congruence].
Qed.

Lemma heap_kept_same n s s' :
  class_heap s' = class_heap s → heap_kept n s s'.
Proof. intros Heq H. by rewrite Heq. Qed.

Lemma heap_kept_new n s x :
  heap_kept n s (with_class_heap (class_heap s ++ [x]) s).
Proof.
  intros H. simpl. rewrite length_app. split; [lia|]. by rewrite take_app_le.
Qed.

Lemma exchange_keeps_heap n expr plo : keeps (heap_kept n) (exchange expr plo).
Proof.
  apply exchange_keeps;
    [apply heap_kept_refl|apply heap_kept_trans
    |intros; by apply heap_kept_same|intros; by apply heap_kept_same|].
  apply read_keeps;
    [apply heap_kept_refl|apply heap_kept_trans
    |intros; by apply heap_kept_same|intros; by apply heap_kept_same|].
  intros cls h s. unfold read_object.
  destruct (classes s !! cls); by apply heap_kept_same.
Qed.

Lemma raise_condition_keeps_heap n err : keeps (heap_kept n) (raise_condition err).
Proof.
  intros s. unfold raise_condition, bind.
  destruct err; simpl; try apply heap_kept_refl.
  destruct (truthy err2); [destruct err2|]; simpl;
    first [apply heap_kept_refl | apply heap_kept_new].
Qed.

Lemma members_and_instances_keep_heap n
    (ev : value → bool → bool → M value) cls k l :
  (n ≤ cls)%nat →
  (∀ e, keeps (heap_kept n) (ev e false false)) →
  keeps (heap_kept n) (members_and_instances ev cls k l).
Proof.
  intros Hn Hev.
  pose proof (@keeps_bind _ (heap_kept_trans n)) as Hbind.
  unfold function_of.
  apply Hbind; [apply Hev|intros f].
  apply Hbind; [|intros alist].
  { unfold call. destruct f;
      first [apply keeps_raise, heap_kept_refl | apply Hev]. }
  apply Hbind; [apply keeps_py_iter, heap_kept_refl|intros conses].
  apply Hbind; [|intros _].
  - apply keeps_for_each; [apply heap_kept_refl|apply heap_kept_trans|].
    intros cons.
    apply Hbind; [apply keeps_attr_car, heap_kept_refl|intros nm].
    apply Hbind; [apply keeps_attr_cdr, heap_kept_refl|intros gf].
    unfold add_member_function.
    destruct nm; try (apply keeps_raise, heap_kept_refl).
    intros st H. simpl. rewrite length_alter. split; [done|].
    by apply take_alter_ge.
  - apply keeps_for_each; [apply heap_kept_refl|apply heap_kept_trans|].
    intros i s. by apply heap_kept_same.
Qed.

Lemma patch_class_keeps_heap n (ev : value → bool → bool → M value) item :
  (∀ e, keeps (heap_kept n) (ev e false false)) →
  keeps (heap_kept n) (patch_class ev item).
Proof.
  intros Hev. destruct item as [k l]. intros s.
  destruct (decide (n ≤ length (class_heap s))%nat) as [Hn|Hn].
  - pose proof (members_and_instances_keep_heap n ev (length (class_heap s)) k l
                  Hn Hev
                  (with_classes (<[k:=length (class_heap s)]> (classes s))
                     (with_class_heap
                        (class_heap s ++ [mkClass (python_name k) LispWrapper ∅])
                        s)))
      as Hrest.
    change (patch_class ev (k, l) s)
      with (members_and_instances ev (length (class_heap s)) k l
              (with_classes (<[k:=length (class_heap s)]> (classes s))
                 (with_class_heap
                    (class_heap s ++ [mkClass (python_name k) LispWrapper ∅]) s))).
    destruct (members_and_instances _ _ _ _ _) as [[] s'|e s'|]; try done;
      (eapply heap_kept_trans; [|exact Hrest]); apply heap_kept_new.
  - destruct (patch_class ev (k, l) s); try done; intros H; lia.
Qed.

Lemma eval_keeps_heap n fuel expr rlo plo :
  keeps (heap_kept n) (eval fuel expr rlo plo).
Proof.
  revert expr rlo plo. induction fuel as [|fuel IH]; intros expr rlo plo.
  - by intros s.
  - simpl. apply (keeps_bind _ (heap_kept_trans n)); [apply exchange_keeps_heap|].
    intros [[[pkg val] err] output].
    destruct (is_Cons err); [apply raise_condition_keeps_heap|].
    apply (keeps_bind _ (heap_kept_trans n)).
    2:{ intros _. apply keeps_return_values;
          [apply heap_kept_refl|apply heap_kept_trans]. }
    unfold patch_unpatched.
    apply (keeps_bind _ (heap_kept_trans n));
      [apply keeps_get, heap_kept_refl|intros items].
    apply (keeps_bind _ (heap_kept_trans n));
      [intros s; by apply heap_kept_same|intros _].
    apply keeps_for_each; [apply heap_kept_refl|apply heap_kept_trans|].
    intros item. apply patch_class_keeps_heap. intros e. apply IH.
Qed.

(** X3: whether a call returns or raises, every symbol that had an
    entry in [self.classes] still has one, and the class objects that
    exist when the call starts are the same afterwards, members
    included: a call makes new classes and attaches members to those
    only. *)
Theorem registry_only_grows fuel expr rlo plo s s' :
  final_state (eval fuel expr rlo plo s) = Some s' →
  cache_grows s s' ∧ class_heap s `prefix_of` class_heap s'.
Proof.
  intros Hfin.
  pose proof (eval_keeps _ cache_grows_respected fuel expr rlo plo s) as H1.
  pose proof (eval_keeps_heap (length (class_heap s)) fuel expr rlo plo s) as H2.
  assert (cache_grows s s' ∧ heap_kept (length (class_heap s)) s s') as [Hc Hh]
    by (destruct (eval fuel expr rlo plo s) as [v s0|e s0|]; [| |done];
        by injection Hfin as ->).
  split; [exact Hc|]. destruct Hh as [_ Hh]; [lia|].
  rewrite (take_ge (class_heap s)) in Hh by lia.
  exists (drop (length (class_heap s)) (class_heap s')).
  rewrite <- Hh at 1. by rewrite take_drop.
Qed.

(** X12: when the query for the description of the first pending class
    raises, the call raises the same exception in the same state.  The
    class made for it is in the cache, without members; its instances
    have the runtime type they had and are no longer pending. *)
Theorem failed_query_leaves_empty_class
    fuel expr rlo plo s pkg val err output s1 k l rest e s3 :
  refs_allocated s1 →
  exchange expr plo s = Return (pkg, val, err, output) s1 →
  is_Cons err = false →
  unpatched_instances s1 = (k, l) :: rest →
  function fuel (VStr "cl4py:class-information")
    (with_classes (<[k:=length (class_heap s1)]> (classes s1))
       (with_class_heap
          (class_heap s1 ++ [mkClass (python_name k) LispWrapper ∅])
          (with_unpatched [] s1)))
  = Raise e s3 →
  eval (S fuel) expr rlo plo s = Raise e s3 ∧
  classes s3 !! k = Some (length (class_heap s1)) ∧
  class_heap s3 !! length (class_heap s1)
  = Some (mkClass (python_name k) LispWrapper ∅) ∧
  ∀ i, i ∈ l → ¬ pending s3 i ∧ obj_class s3 !! i = obj_class s1 !! i.
Proof.
  intros Hwf Hex Herr Hu Hq.
  set (s2 := with_classes _ _) in Hq.
  split; [|split; [|split]].
  - rewrite (eval_success_case _ _ _ _ _ _ _ _ _ _ Hex Herr).
    unfold patch_unpatched. unfold bind at 1 2 3, get, modify. rewrite Hu.
    cbn [for_each]. unfold bind at 1.
    change (patch_class (eval fuel) (k, l) (with_unpatched [] s1))
      with (members_and_instances (eval fuel) (length (class_heap s1)) k l s2).
    unfold function in Hq. by rewrite (bind_of_Raise _ _ _ _ _ Hq).
  - pose proof (eval_keeps_cache_entry k (length (class_heap s1)) fuel
                  (VTuple [VStr "CL:FUNCTION"; VStr "cl4py:class-information"])
                  false false s2) as Hc.
    unfold function, function_of in Hq. rewrite Hq in Hc.
    apply Hc. subst s2. simpl. split; [by rewrite lookup_insert_eq|].
    apply not_elem_of_nil.
  - pose proof (eval_keeps_heap (S (length (class_heap s1))) fuel
                  (VTuple [VStr "CL:FUNCTION"; VStr "cl4py:class-information"])
                  false false s2) as Hh.
    unfold function, function_of in Hq. rewrite Hq in Hh.
    destruct Hh as [Hlen Htake].
    { subst s2. simpl. rewrite length_app. simpl. lia. }
    rewrite <- (lookup_take_lt _ (S (length (class_heap s1)))) by lia.
    rewrite Htake. subst s2. simpl.
    rewrite lookup_take_lt by lia.
    by rewrite lookup_app_r, Nat.sub_diag.
  - intros i Hi.
    pose proof (eval_keeps_settled fuel
                  (VTuple [VStr "CL:FUNCTION"; VStr "cl4py:class-information"])
                  false false s2) as Hs.
    unfold function, function_of in Hq. rewrite Hq in Hs.
    destruct Hs as [_ Hs].
    destruct (Hs i) as [Hn Ho]; [|tauto| |by split].
    + subst s2. simpl. apply Hwf. exists k, l. rewrite Hu. split; [by left|done].
    + subst s2. intros (k0 & l0 & Hin & _). by apply elem_of_nil in Hin.
Qed.

End Eval.

(** * Reading back the literal of a float *)

Module FloatFacts.
Local Open Scope Z_scope.

Lemma digits2_size p : digits2_pos p = Pos.size p.
Proof. induction p; simpl; congruence. Qed.

Lemma digits2_log2 p : Zpos (digits2_pos p) = Z.log2 (Zpos p) + 1.
Proof.
  rewrite digits2_size. destruct p; simpl; try lia.
Qed.

Lemma iter_pos_nat {A} (f : A → A) p x :
  SpecFloat.iter_pos f p x = Nat.iter (Pos.to_nat p) f x.
Proof.
  revert x. induction p as [p IH|p IH|]; intros x; cbn [SpecFloat.iter_pos].
  - rewrite !IH, Pos2Nat.inj_xI.
    rewrite <- Nat.iter_add, <- Nat.iter_succ_r. f_equal. lia.
  - rewrite !IH, Pos2Nat.inj_xO.
    rewrite <- Nat.iter_add. f_equal. lia.
  - reflexivity.
Qed.

Lemma shr_1_double z :
  0 < z →
  shr_1 {| shr_m := 2 * z; shr_r := false; shr_s := false |}
  = {| shr_m := z; shr_r := false; shr_s := false |}.
Proof. destruct z; try lia. reflexivity. Qed.

Lemma shr_iter n z :
  0 < z →
  Nat.iter n shr_1 {| shr_m := z * 2 ^ Z.of_nat n; shr_r := false; shr_s := false |}
  = {| shr_m := z; shr_r := false; shr_s := false |}.
Proof.
  revert z. induction n as [|n IH]; intros z Hz.
  - simpl. now rewrite Z.mul_1_r.
  - rewrite Nat.iter_succ_r.
    replace (z * 2 ^ Z.of_nat (S n)) with (2 * (z * 2 ^ Z.of_nat n)).
    + rewrite shr_1_double by (apply Z.mul_pos_pos; [lia|apply Z.pow_pos_nonneg; lia]).
      now apply IH.
    + rewrite Nat2Z.inj_succ, Z.pow_succ_r by lia. ring.
Qed.

Lemma Zdigits2_log2 z : 0 < z → Zdigits2 z = Z.log2 z + 1.
Proof. destruct z; try lia. intros _. apply digits2_log2. Qed.

Lemma Zdigits2_mul_pow2 m k :
  0 <= k → Zdigits2 (Zpos m * 2 ^ k) = Zpos (digits2_pos m) + k.
Proof.
  intros Hk. rewrite Zdigits2_log2 by (apply Z.mul_pos_pos; [lia|apply Z.pow_pos_nonneg; lia]).
  rewrite Z.log2_mul_pow2 by lia. rewrite digits2_log2. lia.
Qed.

Lemma binary_round_aux_exact s m e k :
  bounded Syntax.prec Syntax.emax m e = true → 0 <= k →
  binary_round_aux Syntax.prec Syntax.emax s (Zpos m * 2 ^ k) (e - k) loc_Exact
  = S754_finite s m e.
Proof.
  intros Hb Hk. unfold bounded in Hb.
  apply andb_prop in Hb as [Hc He]. unfold canonical_mantissa in Hc.
  apply Z.eqb_eq in Hc. 
  unfold binary_round_aux, shr_fexp.
  rewrite Zdigits2_mul_pow2 by lia.
  replace (Zpos (digits2_pos m) + k + (e - k)) with (Zpos (digits2_pos m) + e) by lia.
  rewrite Hc. replace (e - (e - k)) with k by lia.
  assert (shr (shr_record_of_loc (Zpos m * 2 ^ k) loc_Exact) (e - k) k
          = ({| shr_m := Zpos m; shr_r := false; shr_s := false |}, e)) as ->.
  { unfold shr, shr_record_of_loc. destruct k as [|p|p]; try lia.
    - rewrite Z.mul_1_r. f_equal. lia.
    - rewrite iter_pos_nat. rewrite <- (positive_nat_Z p) at 1.
      rewrite shr_iter by lia. f_equal. lia. }
  cbn [shr_m loc_of_shr_record round_nearest_even].
  simpl Zdigits2. rewrite Hc, Z.sub_diag. cbn [shr shr_record_of_loc shr_m].
  now rewrite He.
Qed.

Lemma new_location_zero n : new_location n 0 = loc_Exact.
Proof. unfold new_location. now destruct (Z.even n). Qed.

Lemma fexp_mono x y : x <= y → fexp Syntax.prec Syntax.emax x <= fexp Syntax.prec Syntax.emax y.
Proof. unfold fexp, emin, Syntax.prec, Syntax.emax. lia. Qed.

Lemma SFdiv_exact s m e N D :
  bounded Syntax.prec Syntax.emax m e = true →
  Zpos N * 2 ^ Z.max (- e) 0 = Zpos m * Zpos D * 2 ^ Z.max e 0 →
  SFdiv Syntax.prec Syntax.emax (S754_finite s N 0) (S754_finite false D 0)
  = S754_finite s m e.
Proof.
  intros Hb Heq. pose proof Hb as Hb'. unfold bounded in Hb'.
  apply andb_prop in Hb' as [Hc _]. unfold canonical_mantissa in Hc.
  apply Z.eqb_eq in Hc.
  unfold SFdiv, SFdiv_core_binary.
  rewrite !Z.add_0_r, Z.sub_diag.
  set (e' := Z.min (fexp Syntax.prec Syntax.emax (Zdigits2 (Zpos N) - Zdigits2 (Zpos D))) 0).
  assert (Zdigits2 (Zpos N) - Zdigits2 (Zpos D) <= Zpos (digits2_pos m) + e) as Hd.
  { simpl Zdigits2. rewrite !digits2_log2.
    assert (Z.log2 (Zpos N * 2 ^ Z.max (- e) 0)
            = Z.log2 (Zpos m * Zpos D * 2 ^ Z.max e 0)) as Hl by now rewrite Heq.
    rewrite !Z.log2_mul_pow2 in Hl by lia.
    pose proof (Z.log2_mul_above (Zpos m) (Zpos D)). lia. }
  assert (e' <= e) as He1.
  { subst e'. apply fexp_mono in Hd. rewrite Hc in Hd. lia. }
  assert (e' <= 0) as He0 by (subst e'; lia).
  replace (0 - e') with (- e') by lia.
  assert (match - e' with
          | 0 => Zpos N
          | Zpos _ => Z.shiftl (Zpos N) (- e')
          | Zneg _ => 0
          end = Zpos m * 2 ^ (e - e') * Zpos D) as ->.
  { assert (Zpos N * 2 ^ (- e') = Zpos m * 2 ^ (e - e') * Zpos D) as Hm.
    { apply (Z.mul_reg_r _ _ (2 ^ Z.max e 0)); [apply Z.pow_nonzero; lia|].
      transitivity (Zpos N * 2 ^ Z.max (- e) 0 * 2 ^ (e - e')).
      - rewrite <- !Z.mul_assoc, <- !Z.pow_add_r by lia. do 2 f_equal. lia.
      - rewrite Heq. ring. }
    destruct (- e') as [|p|p] eqn:Hp; try lia.
    rewrite Z.shiftl_mul_pow2 by lia. exact Hm. }
  assert (Z.div_eucl (Zpos m * 2 ^ (e - e') * Zpos D) (Zpos D)
          = (Zpos m * 2 ^ (e - e'), 0)) as ->.
  { pose proof (Z.div_mul (Zpos m * 2 ^ (e - e')) (Zpos D)) as Hq.
    pose proof (Z.mod_mul (Zpos m * 2 ^ (e - e')) (Zpos D)) as Hr.
    unfold Z.div, Z.modulo in Hq, Hr.
    destruct (Z.div_eucl _ _) as [q r]. f_equal; [apply Hq|apply Hr]; lia. }
  rewrite new_location_zero, Bool.xorb_false_r.
  replace e' with (e - (e - e')) at 2 by lia.
  apply binary_round_aux_exact; [done|lia].
Qed.

End FloatFacts.

(** * The round trip through the textual syntax *)

Module SyntaxFacts.
Import Syntax.

Local Arguments is_delimiter : simpl never.
Local Arguments is_whitespace : simpl never.

Lemma chars_text_of t : chars (text_of t) = t.
Proof. apply String.list_ascii_of_string_of_list_ascii. Qed.

Lemma text_of_chars s : text_of (chars s) = s.
Proof. apply String.string_of_list_ascii_of_string. Qed.

(** *** Strings *)

Lemma read_string_body_escape s rest :
  read_string_body (escape s ++ dquote :: rest) = Some (s, rest).
Proof.
  induction s as [|c s IH]; simpl; [done|].
  destruct (Ascii.eqb c dquote) eqn:Hq; simpl.
  - by rewrite IH.
  - destruct (Ascii.eqb c backslash) eqn:Hb; simpl.
    + by rewrite IH.
    + by rewrite Hq, Hb, IH.
Qed.

(** *** Tokens *)

Lemma not_delimiter_not_whitespace c :
  is_delimiter c = false → is_whitespace c = false.
Proof.
  unfold is_delimiter. intros H.
  do 4 (apply orb_false_iff in H as [H _]). exact H.
Qed.

Lemma skip_whitespace_token c t :
  is_delimiter c = false → skip_whitespace (c :: t) = c :: t.
Proof. intros H. simpl. by rewrite (not_delimiter_not_whitespace _ H). Qed.

Lemma take_token_app tok rest :
  forallb is_constituent tok = true → delimited rest = true →
  take_token (tok ++ rest) = (tok, rest).
Proof.
  intros Htok Hrest. induction tok as [|c tok IH]; simpl in *.
  - destruct rest as [|c rest]; simpl in *; [done|]. by rewrite Hrest.
  - apply andb_true_iff in Htok as [Hc Htok].
    unfold is_constituent in Hc. apply negb_true_iff in Hc.
    by rewrite Hc, IH.
Qed.

Lemma split_colon_none tok : no_colon tok = true → split_colon tok = None.
Proof.
  induction tok as [|c tok IH]; simpl; [done|].
  intros H. apply andb_true_iff in H as [Hc H].
  apply negb_true_iff in Hc. by rewrite Hc, IH.
Qed.

Lemma split_colon_app p n :
  no_colon p = true → split_colon (p ++ ":"%char :: n) = Some (p, n).
Proof.
  induction p as [|c p IH]; simpl; [done|].
  intros H. apply andb_true_iff in H as [Hc H].
  apply negb_true_iff in Hc. by rewrite Hc, IH.
Qed.

(** *** Integers *)

Lemma uint_chars d : Forall digit_like (chars (NilEmpty.string_of_uint d)).
Proof.
  induction d; simpl; constructor; try done.
Qed.

Lemma int_chars z : Forall digit_like (write_int z).
Proof.
  unfold write_int, NilZero.string_of_int, NilZero.string_of_uint.
  destruct (Z.to_int z) as [d|d]; [|simpl; constructor; [done|]];
    destruct d; try (repeat constructor; done); apply (uint_chars (_ _)).
Qed.

Lemma int_nonempty z : write_int z ≠ [].
Proof.
  unfold write_int, NilZero.string_of_int, NilZero.string_of_uint.
  destruct (Z.to_int z) as [d|d]; [|done]. by destruct d.
Qed.

Lemma read_write_int z : read_int (write_int z) = Some z.
Proof.
  unfold read_int, write_int. rewrite text_of_chars.
  rewrite NilZero.isi.
  - simpl. by rewrite DecimalZ.of_to.
  - destruct z; simpl; try done.
    + intros [= H]. by apply Unsigned.to_uint_nonnil in H.
  - destruct z; simpl; try done.
    intros [= H]. by apply Unsigned.to_uint_nonnil in H.
Qed.

Lemma digit_like_token t :
  Forall digit_like t →
  forallb is_constituent t = true ∧ no_colon t = true.
Proof.
  induction 1 as [|c t (Hd & Hc & _) _ [IH1 IH2]]; [done|]. simpl.
  unfold is_constituent at 1. by rewrite Hd, Hc, IH1, IH2.
Qed.

Lemma split_at_none p t :
  Forall (λ c, p c = false) t → split_at p t = None.
Proof. induction 1 as [|c t Hc _ IH]; simpl; [done|]. by rewrite Hc, IH. Qed.

Lemma split_at_app p a c b :
  Forall (λ x, p x = false) a → p c = true →
  split_at p (a ++ c :: b) = Some (a, b).
Proof.
  intros Ha Hc. induction Ha as [|x a Hx _ IH]; simpl; [by rewrite Hc|].
  by rewrite Hx, IH.
Qed.

(** A token without a point is not a floating literal. *)
Lemma read_float_no_point tok :
  Forall (λ c, Ascii.eqb c "." = false) tok → read_float tok = None.
Proof.
  intros H. unfold read_float. destruct tok as [|c b]; [done|].
  assert (Forall (λ x, Ascii.eqb "." x = false) (c :: b)) as H'
    by (eapply Forall_impl; [exact H|]; intros x Hx; by rewrite Ascii.eqb_sym).
  destruct (Ascii.eqb c "-"); cbv beta iota zeta.
  - apply Forall_cons in H' as [_ H']. by rewrite (split_at_none _ _ H').
  - by rewrite (split_at_none _ _ H').
Qed.

Lemma classify_int pkg z : classify pkg (write_int z) = Some (RInt z).
Proof.
  unfold classify.
  destruct (digit_like_token _ (int_chars z)) as [_ Hn].
  rewrite (split_colon_none _ Hn), read_float_no_point, read_write_int; [done|].
  eapply Forall_impl; [apply int_chars|]. by intros c (_ & _ & Hd).
Qed.

(** *** Floats *)

Lemma uint_digits d : Forall digit_char (chars (NilEmpty.string_of_uint d)).
Proof. induction d; simpl; constructor; try done. Qed.

Lemma pos_digits p :
  ∃ c t, write_int (Zpos p) = c :: t ∧ Forall digit_char (c :: t).
Proof.
  assert (Forall digit_char (write_int (Zpos p)) ∧ write_int (Zpos p) ≠ [])
    as [Hall Hne].
  { unfold write_int, NilZero.string_of_int, NilZero.string_of_uint. simpl.
    destruct (Pos.to_uint p); (split; [|done]);
      try (repeat constructor; done); apply (uint_digits (_ _)). }
  destruct (write_int (Zpos p)) as [|c t]; [done|]. by exists c, t.
Qed.

Lemma float_digits_pos m e : ∃ q, float_digits m e = Zpos q.
Proof.
  unfold float_digits. destruct e as [|p|p]; try by eexists.
  assert (0 < Zpos m * 2 ^ Zpos p)%Z as H
    by (apply Z.mul_pos_pos; [lia|apply Z.pow_pos_nonneg; lia]).
  destruct (Zpos m * 2 ^ Zpos p)%Z; try lia. by eexists.
Qed.

(** The digits of a finite float, read as a decimal with the exponent
    that the writer prints, are rounded to the float itself. *)
Lemma float_of_decimal_exact s m e :
  bounded prec emax m e = true →
  float_of_decimal s (float_digits m e * 10 ^ 1 + 0) (Z.min e 0 - 1)
  = S754_finite s m e.
Proof.
  intros Hb. destruct (float_digits_pos m e) as (q & Hq).
  unfold float_of_decimal. rewrite Hq.
  destruct (Zpos q * 10 ^ 1 + 0)%Z as [|n|n] eqn:Hn; try lia.
  destruct (Z.min e 0 - 1)%Z as [|k|k] eqn:Hk; try lia.
  apply FloatFacts.SFdiv_exact; [done|].
  rewrite Pos2Z.inj_pow.
  assert (Zpos k = 1 - Z.min e 0)%Z as -> by lia.
  assert (Zpos n = float_digits m e * 10)%Z as -> by lia.
  unfold float_digits. destruct e as [|p|p].
  - replace (Z.max (- 0) 0) with 0%Z by lia.
    replace (Z.max 0 0) with 0%Z by lia.
    replace (1 - Z.min 0 0)%Z with 1%Z by lia.
    rewrite Z.pow_0_r, Z.pow_1_r. ring.
  - replace (Z.max (- Zpos p) 0) with 0%Z by lia.
    replace (Z.max (Zpos p) 0) with (Zpos p) by lia.
    replace (1 - Z.min (Zpos p) 0)%Z with 1%Z by lia.
    rewrite Z.pow_0_r, Z.pow_1_r. ring.
  - replace (Z.max (- Zneg p) 0) with (Zpos p) by lia.
    replace (Z.max (Zneg p) 0) with 0%Z by lia.
    replace (1 - Z.min (Zneg p) 0)%Z with (Z.succ (Zpos p)) by lia.
    assert (10 ^ Zpos p = 5 ^ Zpos p * 2 ^ Zpos p)%Z as H10
      by (by rewrite <- Z.pow_mul_l).
    rewrite Z.pow_0_r, Z.pow_succ_r, Pos2Z.inj_mul, Pos2Z.inj_pow, H10 by lia.
    ring.
Qed.

Lemma read_unsigned_pos p : read_unsigned (write_int (Zpos p)) = Some (Zpos p).
Proof.
  destruct (pos_digits p) as (c & t & Heq & Hall).
  unfold read_unsigned. rewrite Heq.
  apply Forall_cons in Hall as [(_ & Hc & _) _]. rewrite Hc, <- Heq.
  apply read_write_int.
Qed.

Lemma read_float_body neg m e rest :
  bounded prec emax m e = true →
  rest = write_int (float_digits m e) ++ chars ".0d" ++ write_int (Z.min e 0) →
  match split_at (Ascii.eqb ".") rest with
  | None => None
  | Some (ip, rest') =>
      let '(fp, ex) :=
        match split_at is_exponent_marker rest' with
        | Some (fp, ep) => (fp, read_int ep)
        | None => (rest', Some 0%Z)
        end in
      match read_unsigned ip, read_unsigned fp, ex with
      | Some i, Some f, Some e' =>
          Some (float_of_decimal neg (i * 10 ^ Z.of_nat (length fp) + f)
                                 (e' - Z.of_nat (length fp)))
      | _, _, _ => None
      end
  end = Some (S754_finite neg m e).
Proof.
  intros Hb ->. destruct (float_digits_pos m e) as (q & Hq). rewrite Hq.
  destruct (pos_digits q) as (c & t & Heq & Hall).
  change (chars ".0d" ++ write_int (Z.min e 0))
    with ("."%char :: "0"%char :: "d"%char :: write_int (Z.min e 0)).
  rewrite split_at_app; [| |done].
  2:{ rewrite Heq. eapply Forall_impl; [exact Hall|].
      intros x ((_ & _ & Hd) & _). by rewrite Ascii.eqb_sym. }
  cbn [split_at]. change (is_exponent_marker "0") with false.
  change (is_exponent_marker "d") with true. cbn iota.
  rewrite read_unsigned_pos, read_write_int.
  change (read_unsigned ["0"%char]) with (Some 0%Z).
  cbn [length]. rewrite <- Hq. change (Z.of_nat 1) with 1%Z.
  by rewrite (float_of_decimal_exact neg m e Hb).
Qed.

Lemma read_write_float f w :
  float_ok f = true → write_float f = Some w → read_float w = Some f.
Proof.
  destruct f as [s|s| |s m e]; try done.
  - intros _ [= <-]. by destruct s.
  - intros Hb [= <-]. unfold read_float.
    destruct (float_digits_pos m e) as (q & Hq).
    destruct (pos_digits q) as (c & t & Heq & Hall).
    apply Forall_cons in Hall as [(_ & Hc & _) _].
    destruct s; cbn [write_sign app].
    + change (Ascii.eqb "-" "-") with true. cbn iota.
      by apply read_float_body.
    + rewrite Hq, Heq. cbn [app]. rewrite Hc. cbv beta iota zeta.
      change (c :: t ++ ?x) with ((c :: t) ++ x). rewrite <- Heq, <- Hq.
      by apply read_float_body.
Qed.

Lemma float_token f w :
  write_float f = Some w →
  forallb is_constituent w = true ∧ no_colon w = true ∧ w ≠ [] ∧
  is_dot w = false.
Proof.
  destruct f as [s|s| |s m e]; try done.
  - intros [= <-]. by destruct s.
  - intros [= <-].
    destruct (float_digits_pos m e) as (q & Hq). rewrite Hq.
    destruct (pos_digits q) as (c & t & Heq & Hall). rewrite Heq.
    assert (Forall digit_like (c :: t)) as Hd
      by (eapply Forall_impl; [exact Hall|]; by intros x [? _]).
    destruct (digit_like_token _ Hd) as [H1 H2].
    destruct (digit_like_token _ (int_chars (Z.min e 0))) as [H3 H4].
    apply Forall_cons in Hd as [(_ & _ & Hdot) _].
    unfold no_colon in *.
    split; [|split; [|split]].
    + rewrite !forallb_app, H1. cbn [forallb]. rewrite H3. by destruct s.
    + rewrite !forallb_app, H2. cbn [forallb]. rewrite H4. by destruct s.
    + by destruct s.
    + destruct s; [done|]. simpl. by rewrite Hdot.
Qed.

Lemma classify_float pkg f w :
  float_ok f = true → write_float f = Some w →
  classify pkg w = Some (RFloat f).
Proof.
  intros Hok Hw. destruct (float_token _ _ Hw) as (_ & Hn & _).
  unfold classify.
  by rewrite (split_colon_none _ Hn), (read_write_float _ _ Hok Hw).
Qed.

Lemma symbol_token pkg x :
  symbol_ok pkg x = true →
  forallb is_constituent (write_symbol pkg x) = true ∧
  write_symbol pkg x ≠ [].
Proof.
  unfold symbol_ok, write_symbol. intros H.
  apply andb_true_iff in H as [H _].
  apply andb_true_iff in H as [H Hne].
  apply andb_true_iff in H as [H _].
  apply andb_true_iff in H as [H _].
  apply andb_true_iff in H as [Hn Hp].
  destruct (String.eqb (sym_package x) pkg).
  - split; [done|]. by destruct (chars (sym_name x)).
  - split; [|by destruct (chars (sym_package x))].
    rewrite forallb_app. simpl. by rewrite Hn, Hp.
Qed.

Lemma classify_symbol pkg x :
  symbol_ok pkg x = true → classify pkg (write_symbol pkg x) = Some (RSym x).
Proof.
  unfold symbol_ok, write_symbol, classify. intros H.
  apply andb_true_iff in H as [H Hcur].
  apply andb_true_iff in H as [H Hne].
  apply andb_true_iff in H as [H Hcp].
  apply andb_true_iff in H as [H Hcn].
  destruct x as [name package]. simpl in *.
  destruct (String.eqb package pkg) eqn:Heq.
  - apply String.eqb_eq in Heq as ->.
    rewrite (split_colon_none _ Hcn).
    destruct (read_float (chars name)); [done|].
    destruct (read_int (chars name)); [done|].
    apply negb_true_iff in Hcur. rewrite Hcur.
    destruct (chars name) eqn:Hname; [done|].
    by rewrite <- Hname, text_of_chars.
  - rewrite (split_colon_app _ _ Hcp). by rewrite !text_of_chars.
Qed.

(** *** One expression *)

Lemma delimiter_parts c :
  is_delimiter c = false →
  is_whitespace c = false ∧ Ascii.eqb c "(" = false ∧
  Ascii.eqb c ")" = false ∧ Ascii.eqb c dquote = false.
Proof.
  unfold is_delimiter. intros H.
  apply orb_false_iff in H as [H _].
  apply orb_false_iff in H as [H H4].
  apply orb_false_iff in H as [H H3].
  apply orb_false_iff in H as [H1 H2]. done.
Qed.

Lemma parse_token f pkg tok rest e :
  tok ≠ [] → forallb is_constituent tok = true → delimited rest = true →
  classify pkg tok = Some e →
  parse (S f) pkg (tok ++ rest) = Some (e, rest).
Proof.
  intros Hne Htok Hrest Hcl. destruct tok as [|c tok]; [done|].
  pose proof (take_token_app _ _ Htok Hrest) as Htake.
  simpl in Htok. apply andb_true_iff in Htok as [Hc _].
  apply negb_true_iff in Hc.
  destruct (delimiter_parts _ Hc) as (Hw & Ho & _ & Hq).
  cbn [parse app]. rewrite (skip_whitespace_token _ _ Hc).
  rewrite Ho, Hq, Hc. change (c :: tok ++ rest) with ((c :: tok) ++ rest).
  by rewrite Htake, Hcl.
Qed.

Lemma parse_string f pkg s rest :
  parse (S f) pkg (write_string s ++ rest) = Some (RStr s, rest).
Proof.
  unfold write_string. cbn [parse app skip_whitespace].
  change (is_whitespace dquote) with false. cbn iota.
  change (Ascii.eqb dquote "(") with false.
  change (Ascii.eqb dquote dquote) with true. cbn iota.
  rewrite <- app_assoc. simpl.
  by rewrite read_string_body_escape, text_of_chars.
Qed.

Lemma token_starts_element tok rest :
  tok ≠ [] → forallb is_constituent tok = true → is_dot tok = false →
  starts_element (tok ++ rest).
Proof.
  intros Hne Htok Hdot. destruct tok as [|c tok]; [done|].
  simpl in Htok. apply andb_true_iff in Htok as [Hc Htok].
  apply negb_true_iff in Hc.
  destruct (delimiter_parts _ Hc) as (Hw & _ & Hcl & _).
  exists c, (tok ++ rest). repeat split; try done.
  simpl in *. destruct (Ascii.eqb c "."); [|done]. simpl in *.
  destruct tok as [|c' tok]; [done|]. simpl in *.
  apply andb_true_iff in Htok as [Hc' _]. by apply negb_true_iff in Hc'.
Qed.

Lemma int_not_dot z : is_dot (write_int z) = false.
Proof.
  pose proof (int_chars z) as H. pose proof (int_nonempty z) as Hne.
  destruct (write_int z) as [|c t]; [done|].
  apply Forall_cons in H as [(_ & _ & Hd) _]. simpl. by rewrite Hd.
Qed.

Lemma symbol_not_dot pkg x :
  symbol_ok pkg x = true → is_dot (write_symbol pkg x) = false.
Proof.
  unfold symbol_ok, write_symbol. intros H.
  apply andb_true_iff in H as [H Hcur].
  apply andb_true_iff in H as [H _].
  apply andb_true_iff in H as [H _].
  apply andb_true_iff in H as [H _].
  apply andb_true_iff in H as [_ Hp].
  destruct (String.eqb (sym_package x) pkg).
  - destruct (read_float (chars (sym_name x))); [done|].
    destruct (read_int (chars (sym_name x))); [done|].
    by apply negb_true_iff in Hcur.
  - destruct (chars (sym_package x)) as [|c p]; [done|]. simpl in *.
    apply andb_true_iff in Hp as [_ Hp].
    destruct p as [|c' p]; simpl in *; [apply andb_false_r|].
    apply andb_true_iff in Hp as [Hc' _]. apply negb_true_iff in Hc'.
    rewrite Hc'. apply andb_false_r.
Qed.

Lemma write_cons pkg a d :
  write pkg (VCons a d) =
  match write pkg a, write_tail pkg d with
  | Some wa, Some wt => Some ("("%char :: wa ++ wt)
  | _, _ => None
  end.
Proof. reflexivity. Qed.

Lemma write_starts_element pkg v w rest :
  representable pkg v = true → write pkg v = Some w →
  starts_element (w ++ rest).
Proof.
  destruct v as [| | | | |a d|items| | | |]; try done.
  6:{ simpl. intros _ Hw. destruct (float_token _ _ Hw) as (Hc & _ & Hne & Hd).
      by apply token_starts_element. }
  - intros _ [= <-].
    destruct (digit_like_token _ (int_chars z)) as [Hc _].
    apply token_starts_element;
      [apply int_nonempty|done|apply int_not_dot].
  - intros _ [= <-]. by eexists _, _.
  - intros Hok [= <-]. destruct (symbol_token _ _ Hok) as [Hc Hne].
    apply token_starts_element; [done|done|by apply symbol_not_dot].
  - intros _. rewrite write_cons.
    destruct (write pkg a), (write_tail pkg d); try done.
    intros [= <-]. by eexists _, _.
  - destruct items; [|done]. intros _ [= <-]. by eexists _, _.
Qed.

Lemma write_tail_delimited pkg d w rest :
  write_tail pkg d = Some w → delimited (w ++ rest) = true.
Proof.
  destruct d; simpl;
    repeat match goal with
           | |- context [match ?x with _ => _ end] => destruct x
           end;
    try done; by intros [= <-].
Qed.

(** *** Lists *)

Lemma skip_whitespace_element t : starts_element t → skip_whitespace t = t.
Proof. intros (c & t' & -> & Hw & _). simpl. by rewrite Hw. Qed.

Lemma parse_tail_element f pkg t ea et r1 r2 :
  starts_element t →
  parse f pkg t = Some (ea, r1) → parse_tail f pkg r1 = Some (et, r2) →
  parse_tail (S f) pkg t = Some (RCons ea et, r2).
Proof.
  intros Hs Ha Ht. cbn [parse_tail]. rewrite (skip_whitespace_element _ Hs).
  destruct Hs as (c & t' & -> & _ & Hc & Hd). by rewrite Hc, Hd, Ha, Ht.
Qed.

Lemma parse_tail_blank f pkg t :
  parse_tail f pkg (" "%char :: t) = parse_tail f pkg t.
Proof. by destruct f. Qed.

Lemma parse_blank f pkg t : parse f pkg (" "%char :: t) = parse f pkg t.
Proof. by destruct f. Qed.

Lemma parse_tail_dotted f pkg t e rest :
  parse f pkg t = Some (e, ")"%char :: rest) →
  parse_tail (S f) pkg (chars " . " ++ t) = Some (e, rest).
Proof.
  intros H. cbn [parse_tail]. simpl. by rewrite parse_blank, H.
Qed.

(** Parsing the printed form of a representable value gives the value
    back and leaves the rest of the text; the same holds for the printed
    tail of a list. *)
Lemma parse_write pkg v :
  representable pkg v = true →
  (∀ fuel rest, (depth v ≤ fuel)%nat → delimited rest = true →
     ∃ w, write pkg v = Some w ∧
          parse fuel pkg (w ++ rest) = Some (expr_of v, rest)) ∧
  (∀ fuel rest, (depth v ≤ fuel)%nat →
     ∃ w, write_tail pkg v = Some w ∧
          parse_tail fuel pkg (w ++ rest) = Some (expr_of v, rest)).
Proof.
  assert (∀ f e w rest,
            parse (S f) pkg (w ++ ")"%char :: rest) = Some (e, ")"%char :: rest) →
            parse_tail (S (S f)) pkg ((chars " . " ++ w ++ [")"%char]) ++ rest)
            = Some (e, rest)) as Hdot.
  { intros f e w rest H. rewrite <- !app_assoc. by apply parse_tail_dotted. }
  induction v as [| | | | |a IHa d IHd|items| | | |]; try done; intros Hrep.
  6:{ (* floats *)
      simpl in Hrep. destruct (write_float f) as [w|] eqn:Hw;
        [|by destruct f].
      destruct (float_token _ _ Hw) as (Hc & _ & Hne & _).
      pose proof (classify_float pkg _ _ Hrep Hw) as Hcl.
      split; intros fuel rest Hfuel; simpl in Hfuel;
        destruct fuel as [|[|f0]]; try lia.
      - intros Hrest. exists w. split; [done|]. by apply parse_token.
      - exists (chars " . " ++ w ++ [")"%char]).
        split; [simpl; by rewrite Hw|]. apply Hdot. by apply parse_token. }
  - (* integers *)
    destruct (digit_like_token _ (int_chars z)) as [Hc _].
    split; intros fuel rest Hfuel; simpl in Hfuel;
      destruct fuel as [|[|f]]; try lia.
    + intros Hrest. exists (write_int z). split; [done|].
      apply parse_token; [apply int_nonempty|done|done|apply classify_int].
    + eexists. split; [reflexivity|]. apply Hdot.
      apply parse_token; [apply int_nonempty|done|done|apply classify_int].
  - (* strings *)
    split; intros fuel rest Hfuel; simpl in Hfuel;
      destruct fuel as [|[|f]]; try lia.
    + intros _. exists (write_string s). split; [done|]. apply parse_string.
    + eexists. split; [reflexivity|]. apply Hdot, parse_string.
  - (* symbols *)
    simpl in Hrep. destruct (symbol_token _ _ Hrep) as [Hc Hne].
    split; intros fuel rest Hfuel; simpl in Hfuel;
      destruct fuel as [|[|f]]; try lia.
    + intros Hrest. exists (write_symbol pkg s). split; [done|].
      apply parse_token; [done|done|done|by apply classify_symbol].
    + eexists. split; [reflexivity|]. apply Hdot.
      apply parse_token; [done|done|done|by apply classify_symbol].
  - (* paired cells *)
    simpl in Hrep. apply andb_true_iff in Hrep as [Ha Hd].
    destruct (IHa Ha) as [IHa1 _]. destruct (IHd Hd) as [_ IHd2].
    split; intros fuel rest Hfuel; simpl in Hfuel.
    + intros _. destruct fuel as [|[|f]]; try lia.
      destruct (IHd2 f rest) as (wt & Hwt & Hpt); [lia|].
      destruct (IHa1 f (wt ++ rest)) as (wa & Hwa & Hpa);
        [lia|by eapply write_tail_delimited|].
      exists ("("%char :: wa ++ wt). rewrite write_cons, Hwa, Hwt.
      split; [done|]. cbn [parse app skip_whitespace].
      change (is_whitespace "(") with false. cbn iota.
      change (Ascii.eqb "(" "(") with true. cbn iota.
      rewrite <- app_assoc.
      eapply parse_tail_element; [|exact Hpa|exact Hpt].
      exact (write_starts_element _ _ _ _ Ha Hwa).
    + destruct fuel as [|f]; try lia.
      destruct (IHd2 f rest) as (wt & Hwt & Hpt); [lia|].
      destruct (IHa1 f (wt ++ rest)) as (wa & Hwa & Hpa);
        [lia|by eapply write_tail_delimited|].
      exists (" "%char :: wa ++ wt).
      split; [simpl; by rewrite Hwa, Hwt|].
      change ((" "%char :: wa ++ wt) ++ rest)
        with (" "%char :: (wa ++ wt) ++ rest).
      rewrite parse_tail_blank, <- app_assoc.
      eapply parse_tail_element; [|exact Hpa|exact Hpt].
      exact (write_starts_element _ _ _ _ Ha Hwa).
  - (* the empty list *)
    destruct items; [|done].
    split; intros fuel rest Hfuel; simpl in Hfuel;
      destruct fuel as [|[|f]]; try lia.
    + intros _. by exists (chars "()").
    + by exists [")"%char].
Qed.

(** *** The budget of the reader *)

Lemma depth_bound pkg v :
  representable pkg v = true →
  (∀ w, write pkg v = Some w → (depth v ≤ S (length w))%nat) ∧
  (∀ w, write_tail pkg v = Some w → (depth v ≤ S (length w))%nat).
Proof.
  induction v as [| | | | |a IHa d IHd|items| | | |]; try done; intros Hrep.
  6:{ split; intros w; simpl.
      - intros Hw. destruct (float_token _ _ Hw) as (_ & _ & Hne & _).
        destruct w; simpl; [done|lia].
      - destruct (write_float f); [|done]. intros [= <-]. simpl. lia. }
  - split; intros w [= <-]; simpl; [|lia].
    pose proof (int_nonempty z). destruct (write_int z); simpl; [done|lia].
  - split; intros w [= <-]; simpl; lia.
  - simpl in Hrep. destruct (symbol_token _ _ Hrep) as [_ Hne].
    split; intros w [= <-]; simpl; [|lia].
    destruct (write_symbol pkg s); simpl; [done|lia].
  - simpl in Hrep. apply andb_true_iff in Hrep as [Ha Hd].
    destruct (IHa Ha) as [IHa1 _]. destruct (IHd Hd) as [_ IHd2].
    assert (2 ≤ depth a)%nat by (destruct a; simpl; lia).
    assert (2 ≤ depth d)%nat by (destruct d; simpl; lia).
    split; intros w; [rewrite write_cons|simpl];
      destruct (write pkg a) as [wa|] eqn:Hwa; try done;
      destruct (write_tail pkg d) as [wt|] eqn:Hwt; try done;
      intros [= <-]; specialize (IHa1 _ eq_refl); specialize (IHd2 _ eq_refl);
      simpl; rewrite length_app; lia.
  - destruct items; [|done]. split; intros w [= <-]; simpl; lia.
Qed.

Lemma length_text_of t : String.length (text_of t) = length t.
Proof. induction t as [|c t IH]; simpl; [done|by rewrite IH]. Qed.

Lemma read_aux_expr_of pkg v s :
  representable pkg v = true → read_aux (expr_of v) s = Return v s.
Proof.
  induction v as [| | | | |a IHa d IHd|items| | | |]; try done.
  - simpl. intros H. apply andb_true_iff in H as [Ha Hd].
    unfold bind. by rewrite (IHa Ha), (IHd Hd).
  - by destruct items.
Qed.

(** C7: for every atom (integer, float that has a literal, string,
    symbol, the empty list) and list structure that both syntaxes
    represent, neither quoted nor a call-form, the writer yields a text,
    and the reader takes from that text, leaving nothing, an expression
    that it turns into the value itself. *)
Theorem parse_serialize pkg v :
  representable pkg v = true →
  ∃ txt, serialize pkg v = Some txt ∧
         parse_text pkg txt = Some (expr_of v, EmptyString) ∧
         ∀ s, read_aux (expr_of v) s = Return v s.
Proof.
  intros Hrep.
  destruct (parse_write pkg v Hrep) as [Hparse _].
  destruct (depth_bound pkg v Hrep) as [Hdepth _].
  destruct (Hparse (depth v) [] (le_n _) eq_refl) as (w & Hw & _).
  specialize (Hdepth w Hw).
  destruct (Hparse (S (length w)) [] Hdepth eq_refl) as (w' & Hw' & Hp).
  rewrite Hw in Hw'. injection Hw' as <-. rewrite app_nil_r in Hp.
  exists (text_of w). split; [unfold serialize; by rewrite Hw|]. split.
  - unfold parse_text. by rewrite length_text_of, chars_text_of, Hp.
  - intros s. by eapply read_aux_expr_of.
Qed.
End SyntaxFacts.

(** * Examples on the concrete session *)

Local Abbreviation demo_eval :=
  (eval demo_lispify demo_str demo_python_name demo_call_form).
Local Abbreviation demo_exchange := (exchange demo_lispify).
Local Abbreviation demo_patch :=
  (patch_unpatched demo_python_name demo_call_form).
Local Abbreviation after_exchange plo s :=
  (state_after (demo_exchange demo_request plo s) s).
Local Abbreviation after_eval fuel rlo plo s :=
  (state_after (demo_eval fuel demo_request rlo plo s) s).

(** The evaluation call on a frame with the two values [1] and [2]. *)
Lemma eval_result_values_witness :
  demo_exchange demo_request false (demo_session values_stream)
  = Return (VStr "COMMON-LISP-USER", list_to_cons [VInt 1; VInt 2], nil_value,
            VStr "done")
           (after_exchange false (demo_session values_stream)) ∧
  demo_patch (demo_eval 0) (after_exchange false (demo_session values_stream))
  = Return tt (after_exchange false (demo_session values_stream)) ∧
  demo_eval 1 demo_request false false (demo_session values_stream)
  = Return (VTuple [VInt 1; VInt 2])
           (after_exchange false (demo_session values_stream)).
Proof.
  assert (demo_exchange demo_request false (demo_session values_stream)
    = Return (VStr "COMMON-LISP-USER", list_to_cons [VInt 1; VInt 2], nil_value,
              VStr "done")
             (after_exchange false (demo_session values_stream))) as H1
    by (vm_compute; reflexivity).
  assert (demo_patch (demo_eval 0)
            (after_exchange false (demo_session values_stream))
    = Return tt (after_exchange false (demo_session values_stream))) as H2
    by (vm_compute; reflexivity).
  split; [exact H1|]. split; [exact H2|].
  exact (proj2 (proj2 (eval_result_values demo_lispify demo_str demo_python_name
                         demo_call_form 0 demo_request false false _ _ _ _ _ _
                         H1 H2))
           (VInt 1) (VInt 2) [] eq_refl).
Defined.

Local Abbreviation boom_frame TYPE :=
  (VStr "COMMON-LISP-USER", list_to_cons [VObject 0],
   VCons (VSym TYPE) (VCons (VStr "boom") nil_value), VStr "out").
Local Abbreviation boom_frame1 TYPE :=
  (VStr "COMMON-LISP-USER", list_to_cons [VObject 1],
   VCons (VSym TYPE) (VCons (VStr "boom") nil_value), VStr "out").
Local Abbreviation boom_session := (demo_session (condition_stream TYPEX)).
Local Abbreviation boom_again TYPE :=
  (with_stdout (condition_stream TYPE) (after_eval 1 false true boom_session)).


(** Two frames with the same condition type on the same host. *)
Lemma condition_class_fresh_witness :
  demo_exchange demo_request true boom_session
  = Return (boom_frame TYPEX) (after_exchange true boom_session) ∧
  demo_eval 1 demo_request false true boom_session
  = Raise (ExcInstance 0 [VStr "boom"]) (after_eval 1 false true boom_session) ∧
  class_heap boom_session !! 0%nat = None ∧
  1%nat ≠ 0%nat ∧
  class_heap (after_eval 1 false true (boom_again TYPEX)) !! 1%nat
  = Some (mkClass "GEO:TYPEX" RuntimeError {["__init__" := MInit (VStr "boom")]}).
Proof.
  assert (demo_exchange demo_request true boom_session
          = Return (boom_frame TYPEX) (after_exchange true boom_session)) as H1
    by (vm_compute; reflexivity).
  assert (demo_eval 1 demo_request false true boom_session
          = Raise (ExcInstance 0 [VStr "boom"])
                  (after_eval 1 false true boom_session)) as H2
    by (vm_compute; reflexivity).
  pose proof (condition_class_fresh demo_lispify demo_str demo_python_name
                demo_call_form 0 demo_request false true _ _ _ _ _ _ _ _ _ _
                H1 H2) as (Hfresh & _ & Hnext).
  split; [exact H1|]. split; [exact H2|]. split; [exact Hfresh|].
  destruct (Hnext 0%nat demo_request false true (boom_again TYPEX)
              (VStr "COMMON-LISP-USER") (list_to_cons [VObject 1]) (VStr "out")
              (after_exchange true (boom_again TYPEX))
              (VCons (VStr "boom") nil_value)
              1%nat [VStr "boom"] (after_eval 1 false true (boom_again TYPEX)))
    as (Hne & msg2 & Hmsg2 & Hcls & _); try (vm_compute; reflexivity).
  split; [exact Hne|]. injection Hmsg2 as <-. exact Hcls.
Defined.

(** Both output options on the frame with two values. *)
Lemma eval_output_options_witness :
  demo_exchange demo_request true (demo_session values_stream)
  = Return (VStr "COMMON-LISP-USER", list_to_cons [VInt 1; VInt 2], nil_value,
            VStr "done")
           (after_exchange true (demo_session values_stream)) ∧
  demo_patch (demo_eval 0) (after_exchange true (demo_session values_stream))
  = Return tt (after_exchange true (demo_session values_stream)) ∧
  demo_eval 1 demo_request true true (demo_session values_stream)
  = Return (VTuple [VTuple [VInt 1; VInt 2]; VStr "done"])
           (after_exchange true (demo_session values_stream)) ∧
  printed (after_eval 1 true true (demo_session values_stream))
  = [(VStr "done", EmptyString)].
Proof.
  assert (demo_exchange demo_request true (demo_session values_stream)
    = Return (VStr "COMMON-LISP-USER", list_to_cons [VInt 1; VInt 2], nil_value,
              VStr "done")
             (after_exchange true (demo_session values_stream))) as H1
    by (vm_compute; reflexivity).
  assert (demo_patch (demo_eval 0)
            (after_exchange true (demo_session values_stream))
    = Return tt (after_exchange true (demo_session values_stream))) as H2
    by (vm_compute; reflexivity).
  pose proof (eval_output_options demo_lispify demo_str demo_python_name
                demo_call_form 0 demo_request true _ _ _ _ _ _ H1 H2)
    as (_ & _ & Hmany & Hecho).
  split; [exact H1|]. split; [exact H2|].
  split; [exact (Hmany (VInt 1) (VInt 2) [] eq_refl)|].
  destruct (Hecho eq_refl) as (sexp & e1 & e2 & e3 & e4 & later & _ & _).
  vm_compute. reflexivity.
Defined.

(** The echo of the output text on a frame that carries a condition. *)
Lemma eval_echo_before_raise_witness :
  demo_exchange demo_request true boom_session
  = Return (boom_frame TYPEX) (after_exchange true boom_session) ∧
  ∃ e s' sexp e1 e2 e3 e4,
    demo_eval 1 demo_request false true boom_session = Raise e s' ∧
    demo_lispify boom_session demo_request = Some sexp ∧
    events s' = events boom_session ++ debug_echo boom_session sexp ++
                [IoWrite (sexp +:+ "
"); IoRead e1 (VStr "COMMON-LISP-USER");
                 IoRead e2 (list_to_cons [VObject 0]);
                 IoRead e3 (VCons (VSym TYPEX) (VCons (VStr "boom") nil_value));
                 IoRead e4 (VStr "out"); IoPrint (VStr "out") EmptyString] ∧
    printed s' = printed boom_session ++ prints (debug_echo boom_session sexp) ++
                 [(VStr "out", EmptyString)].
Proof.
  assert (demo_exchange demo_request true boom_session
          = Return (boom_frame TYPEX) (after_exchange true boom_session)) as H1
    by (vm_compute; reflexivity).
  split; [exact H1|].
  exact (eval_echo_before_raise demo_lispify demo_str demo_python_name
           demo_call_form 0 demo_request false _ _ _ _ _ _ _ H1).
Defined.

(** The framing of a call whose result brings work for the patching
    pass. *)
Lemma eval_framing_witness :
  demo_lispify (demo_session patching_stream) demo_request
  = Some "(GEO:MAKE-POINT 1 2)" ∧
  stdout (demo_session patching_stream)
  = USER :: rlist [RObject POINT 7] :: RNil :: RStr EmptyString
         :: drop 4 patching_stream ∧
  readable USER && readable (rlist [RObject POINT 7]) && readable RNil
  && readable (RStr EmptyString) = true ∧
  ∃ pkg val err output s1,
    demo_exchange demo_request false (demo_session patching_stream)
    = Return (pkg, val, err, output) s1 ∧
    stdout s1 = drop 4 patching_stream ∧ package s1 = pkg ∧
    events s1 = events (demo_session patching_stream) ++
                debug_echo (demo_session patching_stream) "(GEO:MAKE-POINT 1 2)" ++
                [IoWrite ("(GEO:MAKE-POINT 1 2)" +:+ "
"); IoRead USER pkg; IoRead (rlist [RObject POINT 7]) val; IoRead RNil err;
                 IoRead (RStr EmptyString) output] ++
                output_echo false output ∧
    stdin s1 = stdin (demo_session patching_stream) ++
               ["(GEO:MAKE-POINT 1 2)" +:+ "
"] ∧
    demo_eval 5 demo_request false false (demo_session patching_stream) =
      (if is_Cons err then raise_condition demo_str err
       else do! demo_patch (demo_eval 4) in return_values false val output) s1 ∧
    ∀ s', final_state (demo_eval 5 demo_request false false
                         (demo_session patching_stream)) = Some s' →
          log_extends s1 s' ∧
          (is_Cons err = true ∨ unpatched_instances s1 = [] →
           events s' = events s1 ∧ stdout s' = drop 4 patching_stream) ∧
          ((∃ v, demo_eval 5 demo_request false false
                   (demo_session patching_stream) = Return v s') ∨
           (∃ c a, demo_eval 5 demo_request false false
                     (demo_session patching_stream)
                   = Raise (ExcInstance c a) s') →
           ∃ nested,
             events s' = events s1 ++ concat nested ∧
             Forall nested_frame nested ∧
             length (stdin s')
             = (length (stdin (demo_session patching_stream))
                + (1 + length nested))%nat ∧
             length (reads (events s'))
             = (length (reads (events (demo_session patching_stream)))
                + 4 * (1 + length nested))%nat).
Proof.
  assert (demo_lispify (demo_session patching_stream) demo_request
          = Some "(GEO:MAKE-POINT 1 2)") as H1 by (vm_compute; reflexivity).
  assert (stdout (demo_session patching_stream)
          = USER :: rlist [RObject POINT 7] :: RNil :: RStr EmptyString
                 :: drop 4 patching_stream) as H2 by reflexivity.
  assert (readable USER && readable (rlist [RObject POINT 7]) && readable RNil
          && readable (RStr EmptyString) = true) as H3 by reflexivity.
  split; [exact H1|]. split; [exact H2|]. split; [exact H3|].
  exact (eval_framing demo_lispify demo_str demo_python_name demo_call_form
           4 demo_request false false _ _ _ _ _ _ _ H1 H2 H3).
Defined.

(** The recorded package after the call that patches: every frame of
    the session names the same package. *)
Lemma package_after_eval_witness :
  demo_exchange demo_request false (demo_session patching_stream)
  = Return (VStr "COMMON-LISP-USER", list_to_cons [VObject 0], nil_value,
            VStr EmptyString)
           (after_exchange false (demo_session patching_stream)) ∧
  demo_eval 5 demo_request false false (demo_session patching_stream)
  = Return (VObject 0) (after_eval 5 false false (demo_session patching_stream)) ∧
  package (after_exchange false (demo_session patching_stream))
  = VStr "COMMON-LISP-USER" ∧
  ∃ pkg' val' err' output',
    current_frame (events (after_eval 5 false false
                             (demo_session patching_stream)))
    = [pkg'; val'; err'; output'] ∧
    package (after_eval 5 false false (demo_session patching_stream)) = pkg'.
Proof.
  assert (demo_exchange demo_request false (demo_session patching_stream)
    = Return (VStr "COMMON-LISP-USER", list_to_cons [VObject 0], nil_value,
              VStr EmptyString)
             (after_exchange false (demo_session patching_stream))) as H1
    by (vm_compute; reflexivity).
  assert (demo_eval 5 demo_request false false (demo_session patching_stream)
    = Return (VObject 0)
             (after_eval 5 false false (demo_session patching_stream))) as H2
    by (vm_compute; reflexivity).
  pose proof (package_after_eval demo_lispify demo_str demo_python_name
                demo_call_form 4 demo_request false false _ _ _ _ _ _ H1)
    as (Hpkg & _ & Hlast).
  split; [exact H1|]. split; [exact H2|]. split; [exact Hpkg|].
  apply Hlast. left. eexists. exact H2.
Defined.

(** The claim that every call writes one line and reads four
    expressions, taken for the whole of a call, fails for a call that
    patches: this one call writes five lines and reads twenty
    expressions. *)
Lemma eval_framing_counterexample :
  demo_eval 5 demo_request false false (demo_session patching_stream)
  = Return (VObject 0) (after_eval 5 false false (demo_session patching_stream)) ∧
  stdin (demo_session patching_stream) = [] ∧
  length (stdin (after_eval 5 false false (demo_session patching_stream)))
  = 5%nat ∧
  length (reads (events (after_eval 5 false false (demo_session patching_stream))))
  = 20%nat ∧
  ¬ (∀ fuel expr rlo plo s v s',
       demo_eval fuel expr rlo plo s = Return v s' →
       length (stdin s') = (length (stdin s) + 1)%nat ∧
       length (reads (events s')) = (length (reads (events s)) + 4)%nat).
Proof.
  assert (demo_eval 5 demo_request false false (demo_session patching_stream)
          = Return (VObject 0)
                   (after_eval 5 false false (demo_session patching_stream))) as H
    by (vm_compute; reflexivity).
  assert (length (stdin (after_eval 5 false false (demo_session patching_stream)))
          = 5%nat) as H5 by (vm_compute; reflexivity).
  split; [exact H|]. split; [reflexivity|]. split; [exact H5|].
  split; [vm_compute; reflexivity|].
  intros Hall. destruct (Hall _ _ _ _ _ _ _ H) as [Hw _].
  rewrite H5 in Hw. discriminate Hw.
Qed.

(** The claim that the recorded namespace after a call is the first
    value of the call's own frame fails for a call that patches: its
    frame reports [A], the frames of the calls of its patching pass
    report [GEO], and [GEO] is what the session records at the end. *)
Lemma package_after_eval_counterexample :
  demo_exchange demo_request false (demo_session namespace_stream)
  = Return (VStr "A", list_to_cons [VObject 0], nil_value, VStr EmptyString)
           (after_exchange false (demo_session namespace_stream)) ∧
  demo_eval 5 demo_request false false (demo_session namespace_stream)
  = Return (VObject 0) (after_eval 5 false false (demo_session namespace_stream)) ∧
  package (after_eval 5 false false (demo_session namespace_stream)) = VStr "GEO" ∧
  ¬ (∀ fuel expr rlo plo s pkg val err output s1 v s',
       demo_exchange expr plo s = Return (pkg, val, err, output) s1 →
       demo_eval (S fuel) expr rlo plo s = Return v s' →
       package s' = pkg).
Proof.
  assert (demo_exchange demo_request false (demo_session namespace_stream)
    = Return (VStr "A", list_to_cons [VObject 0], nil_value, VStr EmptyString)
             (after_exchange false (demo_session namespace_stream))) as H1
    by (vm_compute; reflexivity).
  assert (demo_eval 5 demo_request false false (demo_session namespace_stream)
    = Return (VObject 0)
             (after_eval 5 false false (demo_session namespace_stream))) as H2
    by (vm_compute; reflexivity).
  assert (package (after_eval 5 false false (demo_session namespace_stream))
          = VStr "GEO") as H3 by (vm_compute; reflexivity).
  split; [exact H1|]. split; [exact H2|]. split; [exact H3|].
  intros Hall. specialize (Hall 4%nat _ _ _ _ _ _ _ _ _ _ _ H1 H2).
  rewrite H3 in Hall. discriminate Hall.
Qed.

Local Abbreviation boom_then_patch :=
  (with_stdout patching_stream (after_eval 1 false true boom_session)).

(** The object read in a frame that carries a condition stays pending,
    and the next call that returns patches it. *)
Lemma condition_skips_patching_witness :
  demo_exchange demo_request true boom_session
  = Return (boom_frame TYPEX) (after_exchange true boom_session) ∧
  classes (after_eval 1 false true boom_session) = classes boom_session ∧
  unpatched_instances (after_eval 1 false true boom_session) = [(POINT, [0%nat])] ∧
  obj_class (after_eval 1 false true boom_session) !! 0%nat = Some Unpatched ∧
  refs_allocated boom_then_patch ∧
  demo_eval 5 demo_request false false boom_then_patch
  = Return (VObject 1) (after_eval 5 false false boom_then_patch) ∧
  patched (after_eval 5 false false boom_then_patch) 0.
Proof.
  assert (demo_exchange demo_request true boom_session
          = Return (boom_frame TYPEX) (after_exchange true boom_session)) as H1
    by (vm_compute; reflexivity).
  destruct (condition_skips_patching demo_lispify demo_str demo_python_name
              demo_call_form 0 demo_request false true _ _ _ _ _ _ _ H1)
    as (e & s' & Hev & Hcls & Hun & Hobj & _ & _ & _ & _ & Hlater).
  assert (s' = after_eval 1 false true boom_session) as ->
    by (rewrite Hev; reflexivity).
  assert (refs_allocated boom_then_patch) as Hwf
    by (apply refs_allocated_check; vm_compute; reflexivity).
  assert (demo_eval 5 demo_request false false boom_then_patch
          = Return (VObject 1) (after_eval 5 false false boom_then_patch)) as H2
    by (vm_compute; reflexivity).
  assert (pending (after_eval 1 false true boom_session) 0) as Hp
    by (exists POINT, [0%nat]; split; [vm_compute; left|left]).
  assert (pending boom_then_patch 0) as Hp'
    by (exists POINT, [0%nat]; split; [vm_compute; left|left]).
  split; [exact H1|]. split; [exact Hcls|].
  split; [vm_compute; reflexivity|]. split; [vm_compute; reflexivity|].
  split; [exact Hwf|]. split; [exact H2|].
  exact (Hlater boom_then_patch 4 demo_request false false (VObject 1)
           (after_eval 5 false false boom_then_patch) Hwf H2 0%nat Hp Hp').
Defined.

Local Abbreviation point_again :=
  (cached_session [USER; rlist [RObject POINT 7]; RNil; RStr EmptyString]).

(** A new object of the cached class [POINT]. *)
Lemma cached_class_used_at_once_witness :
  classes point_again !! POINT = Some 0%nat ∧
  demo_exchange demo_request false point_again
  = Return (VStr "COMMON-LISP-USER", list_to_cons [VObject 0], nil_value,
            VStr EmptyString)
           (after_exchange false point_again) ∧
  demo_eval 1 demo_request false false point_again
  = Return (VObject 0) (after_exchange false point_again) ∧
  obj_class (after_exchange false point_again) !! 0%nat = Some (Synth 0) ∧
  class_heap (after_exchange false point_again) = class_heap point_again ∧
  stdin (after_exchange false point_again) = ["(GEO:MAKE-POINT 1 2)" +:+ "
"].
Proof.
  assert (classes point_again !! POINT = Some 0%nat) as H0
    by (vm_compute; reflexivity).
  assert (demo_exchange demo_request false point_again
    = Return (VStr "COMMON-LISP-USER", list_to_cons [VObject 0], nil_value,
              VStr EmptyString)
             (after_exchange false point_again)) as H1
    by (vm_compute; reflexivity).
  destruct (cached_class_used_at_once demo_lispify demo_str demo_python_name
              demo_call_form 0 demo_request false false _ _ _ _ _ _ _ _ H0 H1)
    as (sexp & e1 & e2 & e3 & e4 & Hl & Hs & Hobj & _ & Hheap & _ & Hquiet & _).
  injection Hs as <- <- <- <-.
  assert (sexp = "(GEO:MAKE-POINT 1 2)") as ->
    by (vm_compute in Hl; by injection Hl as <-).
  destruct Hquiet as (Hev & Hfin); [reflexivity| |reflexivity|].
  { repeat constructor; vm_compute; eauto. }
  split; [exact H0|]. split; [exact H1|]. split; [exact Hev|].
  split; [exact (Hobj 0%nat eq_refl)|]. split; [exact Hheap|].
  destruct (Hfin (after_exchange false point_again)) as (_ & _ & _ & _ & Hin).
  { rewrite Hev. reflexivity. }
  exact Hin.
Defined.

Local Abbreviation tenth := (S754_finite false 7205759403792794 (-56)).
Local Abbreviation round_trip_value :=
  (VCons (VInt (-12))
     (VCons (VFloat tenth)
        (VCons (VFloat (S754_zero true))
           (VCons (VStr "a b") (VSym (mkSymbol "X" "KW")))))).

(** A dotted list of an integer, the float nearest to one tenth, the
    negative zero, a string and a symbol of another namespace. *)
Lemma parse_serialize_witness :
  Syntax.representable "COMMON-LISP-USER" round_trip_value = true ∧
  ∃ txt,
    Syntax.serialize "COMMON-LISP-USER" round_trip_value = Some txt ∧
    Syntax.parse_text "COMMON-LISP-USER" txt
    = Some (Syntax.expr_of round_trip_value, EmptyString) ∧
    ∀ s, read_aux (Syntax.expr_of round_trip_value) s
         = Return round_trip_value s.
Proof.
  assert (Syntax.representable "COMMON-LISP-USER" round_trip_value = true)
    as H by (vm_compute; reflexivity).
  split; [exact H|]. exact (SyntaxFacts.parse_serialize _ _ H).
Defined.

(** The writer prints the booleans, but the reader reads [NIL] as a
    symbol: they are outside the values that both syntaxes represent. *)
Example boolean_is_read_as_symbol :
  Syntax.serialize "COMMON-LISP-USER" (VBool false) = Some "NIL" ∧
  Syntax.parse_text "COMMON-LISP-USER" "NIL"
  = Some (RSym (mkSymbol "NIL" "COMMON-LISP-USER"), EmptyString).
Proof. split; vm_compute; reflexivity. Qed.

(** A host sequence is written as a plain list and read back as a chain
    of paired cells: it is outside the values that both syntaxes
    represent, too. *)
Example host_list_is_read_as_cells :
  Syntax.serialize "COMMON-LISP-USER" (VList [VInt 1; VInt 2]) = Some "(1 2)" ∧
  Syntax.parse_text "COMMON-LISP-USER" "(1 2)"
  = Some (RCons (RInt 1) (RCons (RInt 2) RNil), EmptyString) ∧
  ∀ s, read_aux (RCons (RInt 1) (RCons (RInt 2) RNil)) s
       = Return (list_to_cons [VInt 1; VInt 2]) s.
Proof. repeat split; vm_compute; reflexivity. Qed.

(** The reader rounds a floating literal to the nearest binary64
    number: the literal [0.1d0] gives the float that the writer prints
    with all its digits, a literal beyond the range gives an infinity,
    and the smallest literal gives the smallest subnormal number. *)
Example float_literals_are_rounded :
  Syntax.parse_text "COMMON-LISP-USER" "0.1d0"
  = Some (RFloat tenth, EmptyString) ∧
  Syntax.serialize "COMMON-LISP-USER" (VFloat tenth)
  = Some "10000000000000000555111512312578270211815834045410156250.0d-56" ∧
  Syntax.parse_text "COMMON-LISP-USER" "-1.5"
  = Some (RFloat (S754_finite true 6755399441055744 (-52)), EmptyString) ∧
  Syntax.parse_text "COMMON-LISP-USER" "1.0e400"
  = Some (RFloat (S754_infinity false), EmptyString) ∧
  Syntax.parse_text "COMMON-LISP-USER" "4.9e-324"
  = Some (RFloat (S754_finite false 1 (-1074)), EmptyString).
Proof. repeat split; vm_compute; reflexivity. Qed.

(** The loop of the patching pass takes every entry of its snapshot,
    cached by now or not: here the class of the second object is cached
    by the call that answers the query for the first, and the loop makes
    a class for it again, so the two instances of
    [STANDARD-GENERIC-FUNCTION] end with different class objects. *)
Example pending_class_resolved_twice :
  returned (demo_eval 5 demo_request false false (function_session twice_stream))
  = Some (VTuple [VObject 0; VObject 1]) ∧
  cls_name <$> class_heap (after_eval 5 false false (function_session twice_stream))
  = ["FUNCTION"; "POINT"; "STANDARD-GENERIC-FUNCTION";
     "STANDARD-GENERIC-FUNCTION"] ∧
  obj_class (after_eval 5 false false (function_session twice_stream)) !! 1%nat
  = Some (Synth 3) ∧
  obj_class (after_eval 5 false false (function_session twice_stream)) !! 3%nat
  = Some (Synth 2) ∧
  classes (after_eval 5 false false (function_session twice_stream)) !! GENERIC
  = Some 3%nat.
Proof. repeat split; vm_compute; reflexivity. Qed.

(** * Examples for the further properties *)

Local Abbreviation demo_find_package :=
  (find_package demo_lispify demo_str demo_python_name demo_call_form).
Local Abbreviation demo_function :=
  (function demo_lispify demo_str demo_python_name demo_call_form).
Local Abbreviation demo_members cls :=
  (λ cons : value,
     let! nm := attr_car cons in
     let! gf := attr_cdr cons in
     add_member_function demo_python_name cls nm gf).
Local Abbreviation patched_session :=
  (with_stdout values_stream
     (after_eval 5 false false (demo_session patching_stream))).
Local Abbreviation lost_session := (demo_session lost_stream).
Local Abbreviation lost_then_patch :=
  (with_stdout patching_stream (after_eval 2 false false lost_session)).

(** The instance left pending by a condition: the next call that returns
    empties the pending map and has cached its class. *)
Lemma eval_resolves_pending_witness :
  demo_eval 5 demo_request false false boom_then_patch
  = Return (VObject 1) (after_eval 5 false false boom_then_patch) ∧
  POINT ∈ pending_classes boom_then_patch ∧
  unpatched_instances (after_eval 5 false false boom_then_patch) = [] ∧
  is_Some (classes (after_eval 5 false false boom_then_patch) !! POINT).
Proof.
  assert (demo_eval 5 demo_request false false boom_then_patch
          = Return (VObject 1) (after_eval 5 false false boom_then_patch)) as H
    by (vm_compute; reflexivity).
  assert (POINT ∈ pending_classes boom_then_patch) as Hp by (vm_compute; left).
  destruct (eval_resolves_pending demo_lispify demo_str demo_python_name
              demo_call_form 5 demo_request false false _ _ _ H) as [H1 H2].
  split; [exact H|]. split; [exact Hp|]. split; [exact H1|].
  exact (H2 POINT Hp).
Defined.

(** The instance patched by one call is still patched after the next. *)
Lemma patched_stays_patched_witness :
  final_state (demo_eval 1 demo_request false false patched_session)
  = Some (after_eval 1 false false patched_session) ∧
  (0 < next_ref patched_session)%nat ∧
  patched patched_session 0 ∧
  patched (after_eval 1 false false patched_session) 0.
Proof.
  assert (final_state (demo_eval 1 demo_request false false patched_session)
          = Some (after_eval 1 false false patched_session)) as H
    by (vm_compute; reflexivity).
  assert (0 < next_ref patched_session)%nat as Hi by (vm_compute; lia).
  assert (patched patched_session 0) as Hp
    by (exists 0%nat; vm_compute; reflexivity).
  split; [exact H|]. split; [exact Hi|]. split; [exact Hp|].
  exact (patched_stays_patched demo_lispify demo_str demo_python_name
           demo_call_form 1 demo_request false false _ _ 0%nat H Hi Hp).
Defined.

(** A session that holds the class of a condition, then a call that
    makes classes. *)
Lemma registry_only_grows_witness :
  final_state (demo_eval 5 demo_request false false boom_then_patch)
  = Some (after_eval 5 false false boom_then_patch) ∧
  cache_grows boom_then_patch (after_eval 5 false false boom_then_patch) ∧
  class_heap boom_then_patch
  `prefix_of` class_heap (after_eval 5 false false boom_then_patch).
Proof.
  assert (final_state (demo_eval 5 demo_request false false boom_then_patch)
          = Some (after_eval 5 false false boom_then_patch)) as H
    by (vm_compute; reflexivity).
  split; [exact H|].
  exact (registry_only_grows demo_lispify demo_str demo_python_name
           demo_call_form 5 demo_request false false _ _ H).
Defined.

(** A frame cut short after two expressions. *)
Lemma eval_request_failure_witness :
  demo_lispify (demo_session short_stream) demo_request
  = Some "(GEO:MAKE-POINT 1 2)" ∧
  (length (stdout (demo_session short_stream)) < 4)%nat ∧
  ∃ e s',
    demo_eval 1 demo_request false true (demo_session short_stream)
    = Raise e s' ∧
    (∀ c a, e ≠ ExcInstance c a) ∧
    package s' = package (demo_session short_stream) ∧
    classes s' = classes (demo_session short_stream) ∧
    class_heap s' = class_heap (demo_session short_stream) ∧
    stdin s' = stdin (demo_session short_stream) ++ ["(GEO:MAKE-POINT 1 2)" +:+ "
"] ∧
    printed s'
    = printed (demo_session short_stream)
      ++ prints (debug_echo (demo_session short_stream) "(GEO:MAKE-POINT 1 2)").
Proof.
  assert (demo_lispify (demo_session short_stream) demo_request
          = Some "(GEO:MAKE-POINT 1 2)") as H1 by (vm_compute; reflexivity).
  assert (length (stdout (demo_session short_stream)) < 4)%nat as H2
    by (vm_compute; lia).
  split; [exact H1|]. split; [exact H2|].
  exact (proj2 (eval_request_failure demo_lispify demo_str demo_python_name
                  demo_call_form 0 demo_request false true
                  (demo_session short_stream)) _ H1 H2).
Defined.

(** The result frame is the integer [5] and the condition frame is a
    string. *)
Lemma eval_result_not_a_list_witness :
  demo_exchange demo_request false (demo_session atom_stream)
  = Return (VStr "COMMON-LISP-USER", VInt 5, VStr "oops", VStr EmptyString)
           (after_exchange false (demo_session atom_stream)) ∧
  is_Cons (VStr "oops") = false ∧
  demo_patch (demo_eval 0) (after_exchange false (demo_session atom_stream))
  = Return tt (after_exchange false (demo_session atom_stream)) ∧
  builtin_atom (VInt 5) = true ∧
  demo_eval 1 demo_request false false (demo_session atom_stream)
  = Raise AttributeError (after_exchange false (demo_session atom_stream)).
Proof.
  assert (demo_exchange demo_request false (demo_session atom_stream)
    = Return (VStr "COMMON-LISP-USER", VInt 5, VStr "oops", VStr EmptyString)
             (after_exchange false (demo_session atom_stream))) as H1
    by (vm_compute; reflexivity).
  assert (demo_patch (demo_eval 0)
            (after_exchange false (demo_session atom_stream))
    = Return tt (after_exchange false (demo_session atom_stream))) as H3
    by (vm_compute; reflexivity).
  split; [exact H1|]. split; [reflexivity|]. split; [exact H3|].
  split; [reflexivity|].
  exact (eval_result_not_a_list demo_lispify demo_str demo_python_name
           demo_call_form 0 demo_request false false _ _ _ _ _ _ _
           H1 eq_refl H3 eq_refl).
Defined.

(** Two operations under the same name: the class has the second. *)
Lemma member_loop_last_wins_witness :
  class_heap (cached_session []) !! 0%nat = Some (mkClass "POINT" LispWrapper ∅) ∧
  ∃ s' C',
    for_each (member_pair <$> [(AREA, VObject 1); (AREA, VObject 2)])
             (demo_members 0%nat) (cached_session [])
    = Return tt s' ∧
    class_heap s' !! 0%nat = Some C' ∧
    cls_name C' = "POINT" ∧ cls_base C' = LispWrapper ∧
    cls_dict C' !! "AREA" = Some (MMethod (VObject 2)).
Proof.
  assert (class_heap (cached_session []) !! 0%nat
          = Some (mkClass "POINT" LispWrapper ∅)) as H by reflexivity.
  split; [exact H|].
  destruct (member_loop_last_wins demo_python_name 0%nat
              [(AREA, VObject 1); (AREA, VObject 2)] _ _ H)
    as (s' & C' & Hloop & HC & Hn & Hb & _ & _ & Hlast).
  exists s', C'. split; [exact Hloop|]. split; [exact HC|].
  split; [exact Hn|]. split; [exact Hb|].
  apply (Hlast [(AREA, VObject 1)] AREA (VObject 2) [] eq_refl).
  simpl. apply not_elem_of_nil.
Defined.

(** The query of the patching pass is answered by a condition: the call
    raises, and the instance it was about to patch is no longer pending
    and still a plain wrapper. *)
Lemma pass_forgets_snapshot_witness :
  refs_allocated lost_session ∧
  demo_exchange demo_request false lost_session
  = Return (VStr "COMMON-LISP-USER", list_to_cons [VObject 0], nil_value,
            VStr EmptyString)
           (after_exchange false lost_session) ∧
  is_Cons nil_value = false ∧
  final_state (demo_eval 2 demo_request false false lost_session)
  = Some (after_eval 2 false false lost_session) ∧
  raised (demo_eval 2 demo_request false false lost_session)
  = Some (ExcInstance 1 [VStr "no"]) ∧
  pending (after_exchange false lost_session) 0 ∧
  ¬ pending (after_eval 2 false false lost_session) 0 ∧
  obj_class (after_eval 2 false false lost_session) !! 0%nat = Some Unpatched.
Proof.
  assert (refs_allocated lost_session) as Hwf
    by (apply refs_allocated_check; vm_compute; reflexivity).
  assert (demo_exchange demo_request false lost_session
    = Return (VStr "COMMON-LISP-USER", list_to_cons [VObject 0], nil_value,
              VStr EmptyString)
             (after_exchange false lost_session)) as H1
    by (vm_compute; reflexivity).
  assert (final_state (demo_eval 2 demo_request false false lost_session)
          = Some (after_eval 2 false false lost_session)) as H2
    by (vm_compute; reflexivity).
  assert (pending (after_exchange false lost_session) 0) as Hp
    by (exists POINT, [0%nat]; split; [vm_compute; left|left]).
  split; [exact Hwf|]. split; [exact H1|]. split; [reflexivity|].
  split; [exact H2|]. split; [vm_compute; reflexivity|]. split; [exact Hp|].
  split; [|vm_compute; reflexivity].
  exact (pass_forgets_snapshot demo_lispify demo_str demo_python_name
           demo_call_form 1 demo_request false false _ _ _ _ _ _ _
           Hwf H1 eq_refl H2 0%nat (or_intror Hp)).
Defined.

(** The instance dropped by the interrupted pass is a plain wrapper
    after a later call that returns and patches another instance of the
    same class. *)
Lemma settled_instance_untouched_witness :
  final_state (demo_eval 5 demo_request false false lost_then_patch)
  = Some (after_eval 5 false false lost_then_patch) ∧
  (0 < next_ref lost_then_patch)%nat ∧
  ¬ pending lost_then_patch 0 ∧
  obj_class lost_then_patch !! 0%nat = Some Unpatched ∧
  ¬ pending (after_eval 5 false false lost_then_patch) 0 ∧
  obj_class (after_eval 5 false false lost_then_patch) !! 0%nat
  = obj_class lost_then_patch !! 0%nat ∧
  patched (after_eval 5 false false lost_then_patch) 1.
Proof.
  assert (final_state (demo_eval 5 demo_request false false lost_then_patch)
          = Some (after_eval 5 false false lost_then_patch)) as H
    by (vm_compute; reflexivity).
  assert (0 < next_ref lost_then_patch)%nat as Hi by (vm_compute; lia).
  assert (unpatched_instances lost_then_patch = []) as Hu
    by (vm_compute; reflexivity).
  assert (¬ pending lost_then_patch 0) as Hn.
  { intros (k & l & Hin & _). rewrite Hu in Hin. by apply elem_of_nil in Hin. }
  destruct (settled_instance_untouched demo_lispify demo_str demo_python_name
              demo_call_form 5 demo_request false false _ _ 0%nat H Hi Hn)
    as [H1 H2].
  split; [exact H|]. split; [exact Hi|]. split; [exact Hn|].
  split; [vm_compute; reflexivity|]. split; [exact H1|]. split; [exact H2|].
  eexists. vm_compute. reflexivity.
Defined.

(** A session with the class [FUNCTION] in its cache, and a call that
    makes three classes. *)
Lemma registry_stays_sound_witness :
  registry_sound demo_python_name (function_session twice_stream) ∧
  final_state (demo_eval 5 demo_request false false (function_session twice_stream))
  = Some (after_eval 5 false false (function_session twice_stream)) ∧
  registry_sound demo_python_name
    (after_eval 5 false false (function_session twice_stream)).
Proof.
  assert (registry_sound demo_python_name (function_session twice_stream)) as Hs.
  { split.
    - intros k c Hk. simpl in Hk. apply lookup_singleton_Some in Hk as [<- <-].
      exists ∅. reflexivity.
    - intros i c Hi. simpl in Hi. by rewrite lookup_empty in Hi. }
  assert (final_state
            (demo_eval 5 demo_request false false (function_session twice_stream))
          = Some (after_eval 5 false false (function_session twice_stream))) as H
    by (vm_compute; reflexivity).
  split; [exact Hs|]. split; [exact H|].
  exact (registry_stays_sound demo_lispify demo_str demo_python_name
           demo_call_form 5 demo_request false false _ _ Hs H).
Defined.

(** The Lisp output [done] is printed once. *)
Lemma eval_prints_own_output_witness :
  debug (demo_session values_stream) = false ∧
  demo_exchange demo_request true (demo_session values_stream)
  = Return (VStr "COMMON-LISP-USER", list_to_cons [VInt 1; VInt 2], nil_value,
            VStr "done")
           (after_exchange true (demo_session values_stream)) ∧
  final_state (demo_eval 1 demo_request false true (demo_session values_stream))
  = Some (after_eval 1 false true (demo_session values_stream)) ∧
  printed (after_eval 1 false true (demo_session values_stream))
  = printed (demo_session values_stream) ++ [(VStr "done", EmptyString)] ∧
  debug (after_eval 1 false true (demo_session values_stream)) = false.
Proof.
  assert (demo_exchange demo_request true (demo_session values_stream)
    = Return (VStr "COMMON-LISP-USER", list_to_cons [VInt 1; VInt 2], nil_value,
              VStr "done")
             (after_exchange true (demo_session values_stream))) as H1
    by (vm_compute; reflexivity).
  assert (final_state
            (demo_eval 1 demo_request false true (demo_session values_stream))
          = Some (after_eval 1 false true (demo_session values_stream))) as H2
    by (vm_compute; reflexivity).
  assert (debug (demo_session values_stream) = false) as H0 by reflexivity.
  split; [exact H0|]. split; [exact H1|]. split; [exact H2|].
  exact (eval_prints_own_output demo_lispify demo_str demo_python_name
           demo_call_form 0 demo_request false true _ _ _ _ _ _ _
           H0 H1 H2).
Defined.

Local Abbreviation find_session := (function_session find_package_stream).
Local Abbreviation find_lookup :=
  (VTuple [VStr "CL:FUNCTION"; VStr "CL:FIND-PACKAGE"]).
Local Abbreviation find_line :=
  (match demo_lispify find_session find_lookup with
   | Some t => t
   | None => EmptyString
   end).
Local Abbreviation after_lookup :=
  (state_after (demo_exchange find_lookup false find_session) find_session).

(** The lookup is answered by an object of the cached class [FUNCTION],
    and the call by the keyword [GEO] under the namespace [GEO]. *)
Lemma find_package_two_calls_witness :
  demo_lispify find_session find_lookup = Some find_line ∧
  demo_exchange find_lookup false find_session
  = Return (VStr "COMMON-LISP-USER", list_to_cons [VObject 0], nil_value,
            VStr EmptyString) after_lookup ∧
  unpatched_instances after_lookup = [] ∧
  demo_function 1 (VStr "CL:FIND-PACKAGE") find_session
  = Return (VObject 0) after_lookup ∧
  demo_find_package 1 (VStr "GEO") find_session
  = demo_eval 1 (demo_call_form (VObject 0) [VStr "GEO"]) false false
      after_lookup ∧
  stdin after_lookup = stdin find_session ++ [find_line +:+ "
"] ∧
  package after_lookup = VStr "COMMON-LISP-USER" ∧
  returned (demo_find_package 1 (VStr "GEO") find_session)
  = Some (VSym (mkSymbol "GEO" "KEYWORD")).
Proof.
  assert (demo_lispify find_session find_lookup = Some find_line) as H1
    by (vm_compute; reflexivity).
  assert (demo_exchange find_lookup false find_session
    = Return (VStr "COMMON-LISP-USER", list_to_cons [VObject 0], nil_value,
              VStr EmptyString) after_lookup) as H2
    by (vm_compute; reflexivity).
  assert (unpatched_instances after_lookup = []) as H3
    by (vm_compute; reflexivity).
  destruct (find_package_two_calls demo_lispify demo_str demo_python_name
              demo_call_form 0 (VStr "GEO") _ _ _ _ _ _ H1 H2 H3)
    as (Hf & Hfp & Hin & Hpkg).
  split; [exact H1|]. split; [exact H2|]. split; [exact H3|].
  split; [exact Hf|]. split; [exact Hfp|]. split; [exact Hin|].
  split; [exact Hpkg|]. vm_compute. reflexivity.
Defined.

Local Abbreviation lost_query_state :=
  (with_classes
     (<[POINT:=length (class_heap (after_exchange false lost_session))]>
        (classes (after_exchange false lost_session)))
     (with_class_heap
        (class_heap (after_exchange false lost_session)
         ++ [mkClass (demo_python_name POINT) LispWrapper ∅])
        (with_unpatched [] (after_exchange false lost_session)))).

(** The query for the description of [POINT] is answered by a
    condition: [POINT] is cached as a class without members, and the
    instance read before is a plain wrapper that nothing waits for. *)
Lemma failed_query_leaves_empty_class_witness :
  refs_allocated (after_exchange false lost_session) ∧
  demo_exchange demo_request false lost_session
  = Return (VStr "COMMON-LISP-USER", list_to_cons [VObject 0], nil_value,
            VStr EmptyString)
           (after_exchange false lost_session) ∧
  is_Cons nil_value = false ∧
  unpatched_instances (after_exchange false lost_session) = [(POINT, [0%nat])] ∧
  demo_function 1 (VStr "cl4py:class-information") lost_query_state
  = Raise (ExcInstance 1 [VStr "no"]) (after_eval 2 false false lost_session) ∧
  demo_eval 2 demo_request false false lost_session
  = Raise (ExcInstance 1 [VStr "no"]) (after_eval 2 false false lost_session) ∧
  classes (after_eval 2 false false lost_session) !! POINT = Some 0%nat ∧
  class_heap (after_eval 2 false false lost_session) !! 0%nat
  = Some (mkClass "POINT" LispWrapper ∅) ∧
  ¬ pending (after_eval 2 false false lost_session) 0 ∧
  obj_class (after_eval 2 false false lost_session) !! 0%nat = Some Unpatched.
Proof.
  assert (refs_allocated (after_exchange false lost_session)) as Hwf
    by (apply refs_allocated_check; vm_compute; reflexivity).
  assert (demo_exchange demo_request false lost_session
    = Return (VStr "COMMON-LISP-USER", list_to_cons [VObject 0], nil_value,
              VStr EmptyString)
             (after_exchange false lost_session)) as H1
    by (vm_compute; reflexivity).
  assert (unpatched_instances (after_exchange false lost_session)
          = [(POINT, [0%nat])]) as Hu by (vm_compute; reflexivity).
  assert (demo_function 1 (VStr "cl4py:class-information") lost_query_state
          = Raise (ExcInstance 1 [VStr "no"])
                  (after_eval 2 false false lost_session)) as Hq
    by (vm_compute; reflexivity).
  destruct (failed_query_leaves_empty_class demo_lispify demo_str
              demo_python_name demo_call_form 1 demo_request false false
              _ _ _ _ _ _ _ _ _ _ _ Hwf H1 eq_refl Hu Hq)
    as (Hev & Hc & Hh & Hi).
  destruct (Hi 0%nat) as [Hn Ho]; [by left|].
  split; [exact Hwf|]. split; [exact H1|]. split; [reflexivity|].
  split; [exact Hu|]. split; [exact Hq|]. split; [exact Hev|].
  split; [exact Hc|]. split; [exact Hh|]. split; [exact Hn|].
  rewrite Ho. vm_compute. reflexivity.
Defined.
